(** * Koishi core: permission resolution and the command execution pipeline

    A shallow embedding of [packages/core/src/permission.ts], of the
    registration, execution, disposal and escaping parts of
    [packages/core/src/command/command.ts], and of the selection loop of
    [plugins/a11y/suggest/src/index.ts], with the properties of the design
    document and further properties of the code stated over it. *)

From Stdlib Require Import String Ascii List Bool Arith NArith Lia.
From Stdlib Require Import Permutation Wellfounded Relations DecimalString.
From Equations Require Import Equations.
Import ListNotations.
Local Open Scope string_scope.
Local Open Scope list_scope.

Set Implicit Arguments.

(** ** JavaScript helpers used by both files

    A string is the sequence of its code units, each held in one
    character. *)

Module JS.

(** The outcome of calling a function: it returns or it throws.  An
    awaited promise is its settled outcome. *)
Inductive completion (E A : Type) : Type :=
| Return (a : A)
| Throw (e : E).
Arguments Return {E A} a.
Arguments Throw {E A} e.

(** JavaScript numbers stay abstract: [num_ge a b] is [a >= b] and
    [to_number s] is the unary plus [+s]. *)
Class Numbers : Type := {
  Num : Type;
  num_ge : Num -> Num -> bool;
  to_number : string -> Num
}.

(** The numbers that occur as authority levels: the naturals and [NaN].
    The conversion reads a string of decimal digits. *)
Fixpoint digits_value (s : string) (acc : nat) : option nat :=
  match s with
  | EmptyString => Some acc
  | String c rest =>
      let n := nat_of_ascii c in
      if Nat.leb 48 n && Nat.leb n 57
      then digits_value rest (10 * acc + (n - 48))
      else None
  end.

Definition level_numbers : Numbers :=
  {| Num := option nat;
     num_ge := fun a b =>
       match a, b with
       | Some x, Some y => Nat.leb y x
       | _, _ => false
       end;
     to_number := fun s => digits_value s 0 |}.

(** [s.startsWith(p)] *)
Definition startsWith (s p : string) : bool := String.prefix p s.

(** [s.endsWith(p)] *)
Definition endsWith (s p : string) : bool :=
  Nat.leb (String.length p) (String.length s) &&
  String.eqb (substring (String.length s - String.length p) (String.length p) s) p.

(** [s.slice(n)] for [0 <= n] *)
Definition slice_from (n : nat) (s : string) : string :=
  substring n (String.length s - n) s.

(** [s.slice(0, -1)] *)
Definition slice_init (s : string) : string :=
  substring 0 (String.length s - 1) s.

(** [list.includes(x)] on an array of strings *)
Definition includes (l : list string) (x : string) : bool :=
  existsb (String.eqb x) l.

Lemma includes_app l1 l2 x : includes (l1 ++ l2) x = includes l1 x || includes l2 x.
Proof. unfold includes. apply existsb_app. Qed.

(** Keeps the equation of a case analysis at hand. *)
Definition inspect {A : Type} (x : A) : { y : A | x = y } := exist _ x eq_refl.

(** A string is falsy exactly when it is empty. *)
Definition truthy (s : string) : bool := negb (String.eqb s "").

End JS.

(** ** [Map<string, V>]: keys are unique and iterate in insertion order *)

Module StrMap.
Section Def.
Context {V : Type}.

Definition t := list (string * V).

Fixpoint get (m : t) (k : string) : option V :=
  match m with
  | [] => None
  | (k', v) :: rest => if String.eqb k' k then Some v else get rest k
  end.

Definition has (m : t) (k : string) : bool :=
  match get m k with Some _ => true | None => false end.

(** [set] keeps the position of a key that is present and appends a new
    one. *)
Fixpoint set (m : t) (k : string) (v : V) : t :=
  match m with
  | [] => [(k, v)]
  | (k', v') :: rest =>
      if String.eqb k' k then (k', v) :: rest else (k', v') :: set rest k v
  end.

Fixpoint delete (m : t) (k : string) : t :=
  match m with
  | [] => []
  | (k', v') :: rest =>
      if String.eqb k' k then rest else (k', v') :: delete rest k
  end.

Definition keys (m : t) : list string := map fst m.

End Def.
Arguments t : clear implicits.
End StrMap.

(** ** [Dict<V>]: a plain object used as a dictionary

    Own string keys are kept in creation order; [Object.entries] lists the
    keys that are array indices first, in ascending numeric order, and then
    the other keys in creation order. *)

Module Dict.
Section Def.
Context {V : Type}.

Definition t := StrMap.t V.

Definition is_digit (c : ascii) : bool :=
  let n := nat_of_ascii c in Nat.leb 48 n && Nat.leb n 57.

Fixpoint digits (s : string) (acc : N) : option N :=
  match s with
  | EmptyString => Some acc
  | String c rest =>
      if is_digit c
      then digits rest (10 * acc + N.of_nat (nat_of_ascii c - 48))%N
      else None
  end.

(** A canonical numeric string below [2^32 - 1]. *)
Definition array_index (s : string) : option N :=
  match s with
  | EmptyString => None
  | String c rest =>
      if Ascii.eqb c "0"
      then (if String.eqb rest "" then Some 0%N else None)
      else match digits s 0 with
           | Some n => if (n <=? 4294967294)%N then Some n else None
           | None => None
           end
  end.

Fixpoint insert_sorted (n : N) (e : string * V) (l : list (N * (string * V)))
    : list (N * (string * V)) :=
  match l with
  | [] => [(n, e)]
  | (m, e') :: rest =>
      if (n <=? m)%N then (n, e) :: l else (m, e') :: insert_sorted n e rest
  end.

Fixpoint index_entries (o : t) : list (N * (string * V)) :=
  match o with
  | [] => []
  | (k, v) :: rest =>
      match array_index k with
      | Some n => insert_sorted n (k, v) (index_entries rest)
      | None => index_entries rest
      end
  end.

Definition named_entries (o : t) : list (string * V) :=
  List.filter (fun e => match array_index (fst e) with Some _ => false | None => true end) o.

(** [Object.entries(o)] *)
Definition entries (o : t) : list (string * V) :=
  List.map snd (index_entries o) ++ named_entries o.

End Def.
Arguments t : clear implicits.
End Dict.

(** ** permission.ts *)

Module Permission.
Section Model.

Context {numbers : JS.Numbers}.

Record User := { authority : JS.Num }.

(** The fields of [Partial<Session>] that this file reads.  [bot] is
    [session.bot?.supports] applied to the session itself; it may throw
    or reject. *)
Record Session := {
  user : option User;
  bot : option (string -> JS.completion string bool)
}.

(** [Computed<boolean>]: a boolean, or a function of the session.  Two
    functions are the same value when they are the same object, which the
    reference [ref] stands for. *)
Inductive Computed : Type :=
| Static (b : bool)
| Dynamic (ref : nat) (f : Session -> bool).

(** Modelled from the spec: [session.resolve], which is defined outside
    the given sources.  A condition is a computed boolean, a static value
    or a predicate evaluated against the request context. *)
Definition resolve (session : Session) (value : Computed) : bool :=
  match value with
  | Static b => b
  | Dynamic _ f => f session
  end.

(** Strict equality [===] on [Computed<boolean>] values. *)
Definition same (a b : Computed) : bool :=
  match a, b with
  | Static x, Static y => Bool.eqb x y
  | Dynamic r _, Dynamic s _ => Nat.eqb r s
  | _, _ => false
  end.

(** cosmokit's [remove(list, item)]: drops the first element that is
    strictly equal to [item], if there is one. *)
Fixpoint remove (items : list Computed) (item : Computed) : list Computed :=
  match items with
  | [] => []
  | x :: rest => if same x item then rest else x :: remove rest item
  end.

(** *** class DAG *)

Definition Edges := StrMap.t (list Computed).
Definition Store := StrMap.t Edges.

Definition link (store : Store) (source target : string) (condition : Computed) : Store :=
  let store1 := if StrMap.has store source then store else StrMap.set store source [] in
  match StrMap.get store1 source with
  | None => store1
  | Some map =>
      let map1 := if StrMap.has map target then map else StrMap.set map target [] in
      match StrMap.get map1 target with
      | None => store1
      | Some conditions =>
          StrMap.set store1 source (StrMap.set map1 target (conditions ++ [condition]))
      end
  end.

Definition unlink (store : Store) (source target : string) (condition : Computed) : Store :=
  match StrMap.get store source with
  | None => store
  | Some map =>
      match StrMap.get map target with
      | None => store
      | Some conditions =>
          StrMap.set store source (StrMap.set map target (remove conditions condition))
      end
  end.

(** [conditions.every(value => !session.resolve(value))] *)
Definition every_false (session : Session) (conditions : list Computed) : bool :=
  forallb (fun value => negb (resolve session value)) conditions.

(** The [for (const [key, conditions] of map)] loop of [subgraph]. *)
Fixpoint visit_edges (session : Session) (map : Edges) (queue : list string) : list string :=
  match map with
  | [] => queue
  | (key, conditions) :: rest =>
      if every_false session conditions
      then visit_edges session rest queue
      else visit_edges session rest (queue ++ [key])
  end.

(** The edges of the nodes that are not yet in [result]: together with the
    queue length this bounds the remaining iterations of the loop. *)
Fixpoint unvisited_edges (store : Store) (result : list string) : nat :=
  match store with
  | [] => 0
  | (k, map) :: rest =>
      (if JS.includes result k then 0 else List.length map) + unvisited_edges rest result
  end.

Definition budget (store : Store) (queue result : list string) : nat :=
  List.length queue + unvisited_edges store result.

Lemma visit_edges_length session map queue :
  List.length (visit_edges session map queue) <= List.length queue + List.length map.
Proof.
  revert queue. induction map as [| [key conditions] rest IH]; intros queue; simpl.
  - lia.
  - destruct (every_false session conditions).
    + specialize (IH queue). lia.
    + specialize (IH (queue ++ [key])). rewrite length_app in IH. simpl in IH. lia.
Qed.

Lemma unvisited_edges_mono store result node :
  unvisited_edges store (result ++ [node]) <= unvisited_edges store result.
Proof.
  induction store as [| [k map] rest IH]; simpl; [lia |].
  rewrite JS.includes_app. destruct (JS.includes result k); simpl; [lia |].
  destruct (String.eqb k node); simpl; lia.
Qed.

Lemma unvisited_edges_visit store result node map :
  StrMap.get store node = Some map ->
  JS.includes result node = false ->
  unvisited_edges store (result ++ [node]) + List.length map <= unvisited_edges store result.
Proof.
  induction store as [| [k m] rest IH]; simpl; [discriminate |].
  intros Hget Hnew. rewrite JS.includes_app.
  destruct (String.eqb k node) eqn:E.
  - apply String.eqb_eq in E. subst k. injection Hget as ->.
    rewrite Hnew. simpl. rewrite String.eqb_refl. simpl.
    pose proof (unvisited_edges_mono rest result node). lia.
  - specialize (IH Hget Hnew).
    destruct (JS.includes result k); simpl; [lia |].
    destruct (String.eqb k node); simpl; lia.
Qed.

(** The [while ((node = queue.shift()))] loop of [subgraph].  The loop
    condition is the truthiness of the dequeued value: it ends on an empty
    queue and also on an empty string. *)
Equations? subgraph_loop (store : Store) (session : Session)
    (queue result : list string) : list string
    by wf (budget store queue result) lt :=
  subgraph_loop store session [] result := result;
  subgraph_loop store session (node :: queue) result with JS.truthy node := {
    | false := result
    | true with JS.inspect (JS.includes result node) := {
      | exist _ true Hseen := subgraph_loop store session queue result
      | exist _ false Hnew with JS.inspect (StrMap.get store node) := {
        | exist _ None Hnone := subgraph_loop store session queue (result ++ [node])
        | exist _ (Some map) Hmap :=
            subgraph_loop store session (visit_edges session map queue) (result ++ [node])
        }
      }
    }.
Proof.
  all: unfold budget; simpl.
  - pose proof (@unvisited_edges_visit store result node map Hmap Hnew).
    pose proof (visit_edges_length session map queue). lia.
  - pose proof (unvisited_edges_mono store result node). lia.
Qed.

(** [subgraph(parents, session, result = new Set())] *)
Definition subgraph (store : Store) (parents : list string) (session : Session)
    (result : list string) : list string :=
  subgraph_loop store session parents result.

(** *** Notions used to state the properties of the graph *)

(** [this.store.get(source)?.get(target)]: the conditions of an edge. *)
Definition edge (store : Store) (source target : string) : option (list Computed) :=
  match StrMap.get store source with
  | None => None
  | Some map => StrMap.get map target
  end.

(** Whether the loop over the edges of [source] enqueues [target]. *)
Definition traversed (store : Store) (session : Session) (source target : string) : bool :=
  match StrMap.get store source with
  | None => false
  | Some map => JS.includes (visit_edges session map []) target
  end.


(** The spec's wording of the edge rule: at least one condition resolves to
    true. *)
Definition spec_traversable (session : Session) (conditions : list Computed) : bool :=
  existsb (resolve session) conditions.

(** No start node and no target is the empty string. *)
Definition truthy_targets (store : Store) : Prop :=
  forall source map target conditions,
    StrMap.get store source = Some map -> In (target, conditions) map ->
    JS.truthy target = true.

(** One step along an edge that the traversal follows. *)
Definition step (store : Store) (session : Session) (source target : string) : Prop :=
  traversed store session source target = true.

(** Reachable from a start node along such edges. *)
Inductive reachable (store : Store) (session : Session) (starts : list string) : string -> Prop :=
| reach_start node : In node starts -> reachable store session starts node
| reach_step source target :
    reachable store session starts source ->
    step store session source target ->
    reachable store session starts target.

(** *** class Permissions *)

(** [Permissions.ProvideCallback]: the awaited result, as a boolean, or the
    value thrown. *)
Definition ProvideCallback := string -> Session -> JS.completion string bool.

Record Permissions := {
  inherits : Store;
  depends : Store;
  providers : Dict.t ProvideCallback;
  (** how many times ['internal/permission'] was emitted *)
  emitted : nat
}.

Definition provide (p : Permissions) (name : string) (callback : ProvideCallback) : Permissions :=
  {| inherits := inherits p; depends := depends p;
     providers := StrMap.set (providers p) name callback;
     emitted := emitted p |}.

(** The disposer that [provide] registers. *)
Definition provide_dispose (p : Permissions) (name : string) : Permissions :=
  {| inherits := inherits p; depends := depends p;
     providers := StrMap.delete (providers p) name;
     emitted := emitted p |}.

Definition authority_provider : ProvideCallback :=
  fun name session =>
    let value := JS.to_number (JS.slice_from 10 name) in
    JS.Return (match user session with
               | None => true
               | Some u => JS.num_ge (authority u) value
               end).

Definition bot_provider : ProvideCallback :=
  fun name session =>
    match bot session with
    | None => JS.Return false
    | Some supports => supports (JS.slice_from 4 name)
    end.

(** [new Permissions(ctx)] *)
Definition create : Permissions :=
  provide
    (provide {| inherits := []; depends := []; providers := []; emitted := 0 |}
             "authority.*" authority_provider)
    "bot.*" bot_provider.

(** The filter of [check]: [name === key], or [key] ends in a star and
    [name] starts with the rest of it. *)
Definition matches (name key : string) : bool :=
  String.eqb name key ||
  (JS.endsWith key "*" && JS.startsWith name (JS.slice_init key)).

Inductive event : Type :=
| Called (key : string)
| Warned (error : string).

(** The [for (const callback of callbacks)] loop of [check]. *)
Fixpoint run_callbacks (callbacks : list (string * ProvideCallback))
    (name : string) (session : Session) : list event * JS.completion string bool :=
  match callbacks with
  | [] => ([], JS.Return true)
  | (key, callback) :: rest =>
      match callback name session with
      | JS.Throw e => ([Called key], JS.Throw e)
      | JS.Return false => ([Called key], JS.Return false)
      | JS.Return true =>
          let (trace, r) := run_callbacks rest name session in
          (Called key :: trace, r)
      end
  end.

Definition matching (p : Permissions) (name : string) : list (string * ProvideCallback) :=
  List.filter (fun e => matches name (fst e)) (Dict.entries (providers p)).

(** The [try] block of [check]. *)
Definition check_try (p : Permissions) (name : string) (session : Session)
    : list event * JS.completion string bool :=
  match matching p name with
  | [] => ([], JS.Return false)
  | callbacks => run_callbacks callbacks name session
  end.

(** [check(name, session)], with the callbacks it called and the warnings
    it logged. *)
Definition check (p : Permissions) (name : string) (session : Session)
    : list event * JS.completion string bool :=
  match check_try p name session with
  | (trace, JS.Return b) => (trace, JS.Return b)
  | (trace, JS.Throw error) => (trace ++ [Warned error], JS.Return false)
  end.

(** *** Notions used to state the properties of [check] *)

(** The callback of an entry returned [true]. *)
Definition provider_passes (name : string) (session : Session)
    (e : string * ProvideCallback) : Prop :=
  snd e name session = JS.Return true.

(** The events of calling each entry of a list. *)
Definition calls (entries : list (string * ProvideCallback)) : list event :=
  List.map (fun e => Called (fst e)) entries.

(** [inherit(child, parent, condition = true)] *)
Definition inherit (p : Permissions) (child parent : string) (condition : Computed) : Permissions :=
  {| inherits := link (inherits p) parent child condition;
     depends := depends p; providers := providers p;
     emitted := S (emitted p) |}.

(** The disposer that [inherit] registers. *)
Definition inherit_dispose (p : Permissions) (child parent : string) (condition : Computed) : Permissions :=
  {| inherits := unlink (inherits p) parent child condition;
     depends := depends p; providers := providers p;
     emitted := S (emitted p) |}.

(** [depend(dependent, dependency, condition = true)] *)
Definition depend (p : Permissions) (dependent dependency : string) (condition : Computed) : Permissions :=
  {| inherits := inherits p;
     depends := link (depends p) dependent dependency condition;
     providers := providers p;
     emitted := S (emitted p) |}.

(** The disposer that [depend] registers. *)
Definition depend_dispose (p : Permissions) (dependent dependency : string) (condition : Computed) : Permissions :=
  {| inherits := inherits p;
     depends := unlink (depends p) dependent dependency condition;
     providers := providers p;
     emitted := S (emitted p) |}.

Definition Cache := Dict.t (JS.completion string bool).

(** [parents.map(parent => cache[parent] ||= this.check(parent, session))]:
    the settled promises, and the cache afterwards.  A provider callback is
    a function of the name and the session, so the order in which the pending
    checks make progress does not show in their results. *)
Fixpoint check_parents (p : Permissions) (session : Session) (cache : Cache)
    (parents : list string) : Cache * list (JS.completion string bool) :=
  match parents with
  | [] => (cache, [])
  | parent :: rest =>
      match StrMap.get cache parent with
      | Some promise =>
          let (cache', results) := check_parents p session cache rest in
          (cache', promise :: results)
      | None =>
          let promise := snd (check p parent session) in
          let (cache', results) := check_parents p session (StrMap.set cache parent promise) rest in
          (cache', promise :: results)
      end
  end.

(** [await Promise.all(promises)] *)
Fixpoint await_all (promises : list (JS.completion string bool))
    : JS.completion string (list bool) :=
  match promises with
  | [] => JS.Return []
  | JS.Throw e :: _ => JS.Throw e
  | JS.Return b :: rest =>
      match await_all rest with
      | JS.Return bs => JS.Return (b :: bs)
      | JS.Throw e => JS.Throw e
      end
  end.

(** The [for (const name of ...)] loop of [test]. *)
Fixpoint test_loop (p : Permissions) (x : list string) (session : Session)
    (cache : Cache) (names : list string) : JS.completion string bool :=
  match names with
  | [] => JS.Return true
  | name :: rest =>
      let parents := subgraph (inherits p) [name] session [] in
      if existsb (fun parent => JS.includes x parent) parents
      then test_loop p x session cache rest
      else
        let (cache', promises) := check_parents p session cache parents in
        match await_all promises with
        | JS.Throw e => JS.Throw e
        | JS.Return results =>
            if existsb (fun result => result) results
            then test_loop p x session cache' rest
            else JS.Return false
        end
  end.

(** [test(x, y, session)] *)
Definition test (p : Permissions) (x y : list string) (session : Session)
    : JS.completion string bool :=
  test_loop p x session [] (subgraph (depends p) y session []).

(** *** [authority] and [list] *)

(** The conversion of a number to a string that a template literal
    applies. *)
Variable number_to_string : JS.Num -> string.


(** [new Set(items)], continued from the elements [set]: an element is
    added at the end unless it is there already. *)
Fixpoint add_all (set items : list string) : list string :=
  match items with
  | [] => set
  | x :: rest => add_all (if JS.includes set x then set else set ++ [x]) rest
  end.

(** [list()] *)
Definition list_names (p : Permissions) : list string :=
  add_all [] (StrMap.keys (inherits p) ++ StrMap.keys (depends p)).

(** *** Notions used to state further properties *)

(** The edges out of a node, none when the node has no entry. *)
Definition edges_of (store : Store) (source : string) : Edges :=
  match StrMap.get store source with Some map => map | None => [] end.

(** The conditions of an edge, none when there is no such edge. *)
Definition conditions_of (store : Store) (source target : string) : list Computed :=
  match edge store source target with Some conditions => conditions | None => [] end.

(** The queue after the edges of a node were visited. *)
Definition expand (store : Store) (session : Session) (node : string)
    (queue : list string) : list string :=
  match StrMap.get store node with
  | None => queue
  | Some map => visit_edges session map queue
  end.


(** The reference of a function object identifies it: a condition of the
    list that is the same object as [condition] resolves as it does. *)
Definition coherent (session : Session) (conditions : list Computed)
    (condition : Computed) : Prop :=
  forall x, In x conditions -> same x condition = true ->
            resolve session x = resolve session condition.

(** The result of [check] as a boolean. *)
Definition allows (p : Permissions) (session : Session) (name : string) : bool :=
  match snd (check p name session) with
  | JS.Return b => b
  | JS.Throw _ => false
  end.

(** A required name is satisfied: a name of its inherit closure is held,
    or is granted by the providers. *)
Definition satisfied (p : Permissions) (x : list string) (session : Session)
    (name : string) : bool :=
  existsb (fun parent => JS.includes x parent || allows p session parent)
          (subgraph (inherits p) [name] session []).

(** The cache of [test] holds results of [check]. *)
Definition cached (p : Permissions) (session : Session) (cache : Cache) : Prop :=
  forall k v, StrMap.get cache k = Some v -> v = snd (check p k session).

(** *** The scenario of the short-circuit property *)

(** A fresh resolver after [inherit("authority.3", "cmd.foo")] and
    [depend("cmd.bar", "cmd.foo")]. *)
Definition granted : Permissions :=
  depend (inherit create "authority.3" "cmd.foo" (Static true))
         "cmd.bar" "cmd.foo" (Static true).

(** The same after the disposer of the [inherit] call has run. *)
Definition revoked : Permissions :=
  inherit_dispose granted "authority.3" "cmd.foo" (Static true).

End Model.

(** A session without a user and without a bot, for the examples. *)
Definition anonymous : @Session JS.level_numbers := {| user := None; bot := None |}.

End Permission.


(** ** command/command.ts *)

Module Command.

(** The awaited result of a checker, an action or a continuation:
    [void | Fragment].  [null] and [undefined] are one value here. *)
Inductive Value : Type :=
| Nullish
| Text (s : string).

(** cosmokit's [isNullable] *)
Definition isNullable (v : Value) : bool :=
  match v with
  | Nullish => true
  | Text _ => false
  end.

(** Thrown values: a [SessionError] with its path and parameters, or any
    other error. *)
Inductive Error : Type :=
| SessionError (path : string) (param : list string)
| OtherError (message : string).

Definition Outcome := JS.completion Error Value.

(** [Argv]: the fields [execute] reads.  [text] is [argv.session.text]. *)
Record Argv := {
  error : option string;
  args : list string;
  text : string -> list string -> string
}.

(** The body of an asynchronous function that may call [argv.next]: it
    returns or throws, or it awaits [argv.next()] or [argv.next(callback)]
    and goes on with the outcome of that call. *)
Inductive Async : Type :=
| Finish (r : Outcome)
| Next (k : Outcome -> Async)
| NextWith (callback : Async) (k : Outcome -> Async).

(** A checker: [checker_ref] is the identity of the function object and
    [check_body] the awaited outcome of calling it.  The checkers run before
    [execute] installs [argv.next]. *)
Record Checker := { checker_ref : nat; check_body : Argv -> Outcome }.

(** An action: the identity of the function object and its body. *)
Record Action := { action_ref : nat; action_body : Argv -> Async }.

(** [config.handleError]: a boolean or a function. *)
Inductive HandleError : Type :=
| Flag (b : bool)
| Handler (h : Error -> Argv -> Outcome).

(** What the command file takes from the rest of the framework. *)
Class Host : Type := {
  (** [Next.MAX_DEPTH] *)
  MAX_DEPTH : nat;
  (** [String.prototype.toLowerCase] *)
  toLowerCase : string -> string;
  (** [ctx.serial(argv.session, 'command/before-execute', argv)] *)
  before_execute : Argv -> Outcome
}.

Record Command := {
  (** the identity of the object *)
  id : nat;
  name : string;
  (** [parent.name], when [parent] is set *)
  parent : option string;
  _aliases : list string;
  _checkers : list Checker;
  _actions : list Action;
  handleError : HandleError
}.

(** Modelled from the spec: [ctx.$commander], whose class is outside the
    given sources.  The Command Registry owns the alias to command map,
    a global name to Command lookup read with [get] and written with [set],
    and the flat command list.  Commands are held by identity. *)
Record Commander := {
  commands : StrMap.t nat;
  _commandList : list nat
}.

(** *** Registration *)

(** The registry and the command under construction or change. *)
Record World := { commander : Commander; this : Command }.

Definition set_aliases (c : Command) (aliases : list string) : Command :=
  {| id := id c; name := name c; parent := parent c; _aliases := aliases;
     _checkers := _checkers c; _actions := _actions c; handleError := handleError c |}.

Definition set_checkers (c : Command) (checkers : list Checker) : Command :=
  {| id := id c; name := name c; parent := parent c; _aliases := _aliases c;
     _checkers := checkers; _actions := _actions c; handleError := handleError c |}.

Definition set_actions (c : Command) (actions : list Action) : Command :=
  {| id := id c; name := name c; parent := parent c; _aliases := _aliases c;
     _checkers := _checkers c; _actions := actions; handleError := handleError c |}.

(** cosmokit's [remove] on an array of strings *)
Fixpoint remove_string (items : list string) (item : string) : list string :=
  match items with
  | [] => []
  | x :: rest => if String.eqb x item then rest else x :: remove_string rest item
  end.

Definition quote : string := String (ascii_of_nat 34) EmptyString.

Definition duplicate_error (name : string) : Error :=
  OtherError ("duplicate command names: " ++ quote ++ name ++ quote)%string.

Definition null_parent_error : Error :=
  OtherError "TypeError: Cannot read properties of null (reading 'name')".

Section Registration.
Context {host : Host}.

(** The first two statements of [_registerAlias]: the name in lower case,
    after the name of the parent when it starts with a dot. *)
Definition full_name (c : Command) (name : string) : JS.completion Error string :=
  let name := toLowerCase name in
  if JS.startsWith name "."
  then match parent c with
       | Some parent_name => JS.Return (parent_name ++ name)%string
       | None => JS.Throw null_parent_error
       end
  else JS.Return name.

(** [_registerAlias(name, prepend = false)]: the world afterwards, and
    whether the call returned or threw. *)
Definition _registerAlias (w : World) (name : string) (prepend : bool)
    : World * JS.completion Error unit :=
  match full_name (this w) name with
  | JS.Throw e => (w, JS.Throw e)
  | JS.Return name =>
      let done := JS.includes (_aliases (this w)) name in
      if done then
        if prepend
        then ({| commander := commander w;
                 this := set_aliases (this w) (name :: remove_string (_aliases (this w)) name) |},
              JS.Return tt)
        else (w, JS.Return tt)
      else
        let this1 :=
          set_aliases (this w)
            (if prepend then name :: _aliases (this w) else _aliases (this w) ++ [name]) in
        match StrMap.get (commands (commander w)) name with
        | None =>
            ({| commander := {| commands := StrMap.set (commands (commander w)) name (id (this w));
                                _commandList := _commandList (commander w) |};
                this := this1 |}, JS.Return tt)
        | Some previous =>
            if Nat.eqb previous (id (this w))
            then ({| commander := commander w; this := this1 |}, JS.Return tt)
            else ({| commander := commander w; this := this1 |},
                  JS.Throw (duplicate_error name))
        end
  end.

(** [alias(...names)] *)
Fixpoint alias (w : World) (names : list string) : World * JS.completion Error unit :=
  match names with
  | [] => (w, JS.Return tt)
  | name :: rest =>
      match _registerAlias w name false with
      | (w', JS.Return _) => alias w' rest
      | (w', JS.Throw e) => (w', JS.Throw e)
      end
  end.

(** The setter of [displayName] *)
Definition set_displayName (w : World) (name : string) : World * JS.completion Error unit :=
  _registerAlias w name true.

(** The checker every command starts with. *)
Definition default_checker : Checker :=
  {| checker_ref := 0; check_body := before_execute |}.

(** The object before the constructor body runs: field initialisers and
    [super(name, decl, ctx)]. *)
Definition fresh (ident : nat) (name : string) : Command :=
  {| id := ident; name := name; parent := None; _aliases := [];
     _checkers := [default_checker]; _actions := [];
     handleError := Flag true |}.

(** [new Command(name, decl, ctx)]: the registry afterwards, and the new
    command unless the constructor threw.  [base] is the outcome of
    [super(name, decl, ctx)], the constructor of a class outside the given
    sources: it returns, or it throws before the body of this constructor
    runs. *)
Definition construct (base : JS.completion Error unit) (c : Commander) (ident : nat)
    (name : string) : Commander * JS.completion Error Command :=
  match base with
  | JS.Throw e => (c, JS.Throw e)
  | JS.Return _ =>
      match _registerAlias {| commander := c; this := fresh ident name |} name false with
      | (w, JS.Throw e) => (commander w, JS.Throw e)
      | (w, JS.Return _) =>
          ({| commands := commands (commander w);
              _commandList := _commandList (commander w) ++ [id (this w)] |},
           JS.Return (this w))
      end
  end.

End Registration.

(** *** Checkers and actions *)

(** [before(callback, append = false)] *)
Definition before (c : Command) (callback : Checker) (append : bool) : Command :=
  set_checkers c (if append then _checkers c ++ [callback] else callback :: _checkers c).

(** [check(callback, append = false)] *)
Definition check (c : Command) (callback : Checker) (append : bool) : Command :=
  before c callback append.

(** [action(callback, prepend = false)] *)
Definition action (c : Command) (callback : Action) (prepend : bool) : Command :=
  set_actions c (if prepend then callback :: _actions c else _actions c ++ [callback]).

(** [before] called for each callback of a list, in order, each with its
    [append] flag. *)
Definition before_each (c : Command) (additions : list (Checker * bool)) : Command :=
  fold_left (fun c addition => before c (fst addition) (snd addition)) additions c.

(** cosmokit's [remove] on an array of checkers: function objects are
    compared by identity. *)
Fixpoint remove_checker (items : list Checker) (item : Checker) : list Checker :=
  match items with
  | [] => []
  | x :: rest =>
      if Nat.eqb (checker_ref x) (checker_ref item) then rest
      else x :: remove_checker rest item
  end.

(** The same on an array of actions. *)
Fixpoint remove_action (items : list Action) (item : Action) : list Action :=
  match items with
  | [] => []
  | x :: rest =>
      if Nat.eqb (action_ref x) (action_ref item) then rest
      else x :: remove_action rest item
  end.

(** The disposer that [before] registers. *)
Definition before_dispose (c : Command) (callback : Checker) : Command :=
  set_checkers c (remove_checker (_checkers c) callback).

(** The disposer that [action] registers. *)
Definition action_dispose (c : Command) (callback : Action) : Command :=
  set_actions c (remove_action (_actions c) callback).

(** The getter of [displayName]: [this._aliases[0]], which is [undefined]
    on an empty array. *)
Definition displayName (c : Command) : option string := hd_error (_aliases c).

(** *** [_escape] *)

Definition placeholder : string := "@@__PLACEHOLDER__@@".

Definition dollar : ascii := "$"%char.

Definition at_sign : ascii := "@"%char.

(** [.replace(/\$\$/g, '@@__PLACEHOLDER__@@')]: the matches are found from
    left to right and do not overlap. *)
Fixpoint replace_dollars (s : string) : string :=
  match s with
  | EmptyString => EmptyString
  | String c rest =>
      match rest with
      | EmptyString => String c EmptyString
      | String d rest' =>
          if Ascii.eqb c "$" && Ascii.eqb d "$"
          then (placeholder ++ replace_dollars rest')%string
          else String c (replace_dollars rest)
      end
  end.

(** [.replace(/\$\d/g, s => `{${s[1]}}`)] *)
Fixpoint replace_indices (s : string) : string :=
  match s with
  | EmptyString => EmptyString
  | String c rest =>
      match rest with
      | EmptyString => String c EmptyString
      | String d rest' =>
          if Ascii.eqb c "$" && Dict.is_digit d
          then String "{" (String d (String "}" (replace_indices rest')))
          else String c (replace_indices rest)
      end
  end.

(** [.replace(/@@__PLACEHOLDER__@@/g, '$')]; [skip] counts the characters
    of a match that are still to be passed over. *)
Fixpoint replace_placeholder (skip : nat) (s : string) : string :=
  match s with
  | EmptyString => EmptyString
  | String c rest =>
      match skip with
      | S skip' => replace_placeholder skip' rest
      | 0 =>
          if String.prefix placeholder s
          then String "$" (replace_placeholder (String.length placeholder - 1) rest)
          else String c (replace_placeholder 0 rest)
      end
  end.

(** [_escape(source)]: a value that is not a string is returned as it
    is. *)
Definition _escape {A : Type} (source : string + A) : string + A :=
  match source with
  | inl s => inl (replace_placeholder 0 (replace_indices (replace_dollars s)))
  | inr other => inr other
  end.

(** *** [dispose] *)

(** A command with what [dispose] reaches from it: the identities of its
    [_disposables] and the commands in [children], each with its own. *)
Unset Elimination Schemes.
Inductive Tree : Type :=
| Node (command : Command) (disposables : list nat) (children : list Tree).
Set Elimination Schemes.

Definition root (t : Tree) : Command :=
  match t with Node command _ _ => command end.

(** What a disposal did, in order: a disposable was called;
    ['command-removed'] was emitted with a command. *)
Inductive Disposal : Type :=
| Disposed (ref : nat)
| Removed (ident : nat).

(** cosmokit's [remove] on an array of commands, which are compared by
    identity. *)
Fixpoint remove_id (items : list nat) (item : nat) : list nat :=
  match items with
  | [] => []
  | x :: rest => if Nat.eqb x item then rest else x :: remove_id rest item
  end.

(** [for (const name of this._aliases) this.ctx.$commander.delete(name)] *)
Definition delete_each (names : list string) (m : StrMap.t nat) : StrMap.t nat :=
  fold_left (fun m name => StrMap.delete m name) names m.

(** [dispose()] on a command whose [parent] is set: the registry and the
    array [this.parent.children] afterwards, and what was done.  The loop
    over the children runs over a copy of [this.children], taken before
    the first child removes itself from the array. *)
Fixpoint dispose_child (t : Tree) (c : Commander) (siblings : list nat)
    : Commander * list nat * list Disposal :=
  match t with
  | Node cmd disposables children =>
      let own := List.map (fun child => id (root child)) children in
      let '(c1, _, events) :=
        (fix each (children : list Tree) (c : Commander) (own : list nat)
             : Commander * list nat * list Disposal :=
           match children with
           | [] => (c, own, [])
           | child :: rest =>
               let '(c1, own1, events1) := dispose_child child c own in
               let '(c2, own2, events2) := each rest c1 own1 in
               (c2, own2, events1 ++ events2)
           end) children c own in
      ({| commands := delete_each (_aliases cmd) (commands c1);
          _commandList := remove_id (_commandList c1) (id cmd) |},
       remove_id siblings (id cmd),
       List.map Disposed disposables ++ Removed (id cmd) :: events)
  end.

(** [dispose()]; [siblings] is [this.parent.children], when [parent] is
    set. *)
Definition dispose (t : Tree) (c : Commander) (siblings : option (list nat))
    : Commander * option (list nat) * list Disposal :=
  match siblings with
  | Some siblings =>
      let '(c', siblings', events) := dispose_child t c siblings in
      (c', Some siblings', events)
  | None =>
      let '(c', _, events) := dispose_child t c [] in
      (c', None, events)
  end.

(** The aliases that a disposal deletes, in the order of the deletions:
    those of the commands below, and then those of the command itself. *)
Fixpoint tree_aliases (t : Tree) : list string :=
  match t with
  | Node cmd _ children => flat_map tree_aliases children ++ _aliases cmd
  end.

(** The commands that a disposal takes from the command list, in order. *)
Fixpoint tree_ids (t : Tree) : list nat :=
  match t with
  | Node cmd _ children => flat_map tree_ids children ++ [id cmd]
  end.

(** What a disposal does, in order: each command calls its disposables and
    announces its removal before the commands below it do. *)
Fixpoint tree_events (t : Tree) : list Disposal :=
  match t with
  | Node cmd disposables children =>
      List.map Disposed disposables ++ Removed (id cmd) :: flat_map tree_events children
  end.

Definition remove_ids (ids : list nat) (items : list nat) : list nat :=
  fold_left remove_id ids items.

(** The aliases of the command are registered to it. *)
Definition registered (w : World) : Prop :=
  forall a, In a (_aliases (this w)) ->
            StrMap.get (commands (commander w)) a = Some (id (this w)).

(** *** A host for the examples *)

Definition lower_ascii (c : ascii) : ascii :=
  let n := nat_of_ascii c in
  if Nat.leb 65 n && Nat.leb n 90 then ascii_of_nat (n + 32) else c.

Fixpoint lower (s : string) : string :=
  match s with
  | EmptyString => EmptyString
  | String c rest => String (lower_ascii c) (lower rest)
  end.

Definition example_host : Host :=
  {| MAX_DEPTH := 64;
     toLowerCase := lower;
     before_execute := fun _ => JS.Return Nullish |}.

Definition example_argv : Argv :=
  {| error := None; args := []; text := fun path _ => path |}.

(** *** Function bodies for the examples *)

(** [() => next()] *)
Definition forward : Async := Next (fun r => Finish r).

(** [() => { throw e }] *)
Definition raise (e : Error) : Async := Finish (JS.Throw e).

(** [() => {}] *)
Definition nothing : Async := Finish (JS.Return Nullish).

(** [() => next(callback)] *)
Definition forward_with (callback : Async) : Async := NextWith callback (fun r => Finish r).

(** [() => { await next(); throw e }] *)
Definition forward_then_raise (e : Error) : Async := Next (fun _ => raise e).

(** A callback that queues a callback that queues a callback, and so on,
    [depth] times. *)
Fixpoint runaway (depth : nat) : Async :=
  match depth with
  | 0 => nothing
  | S depth' => forward_with (runaway depth')
  end.

(** A new command named ["echo"] with one action. *)
Definition echo (body : Async) : Command :=
  action (fresh (host := example_host) 1 "echo")
         {| action_ref := 1; action_body := fun _ => body |} false.

(** A checker added by a caller: it lets everything pass. *)
Definition lenient : Checker :=
  {| checker_ref := 7; check_body := fun _ => JS.Return Nullish |}.

(** A checker added by a caller: it answers with a text. *)
Definition denying : Checker :=
  {| checker_ref := 8; check_body := fun _ => JS.Return (Text "denied") |}.

(** *** Execution *)

(** What an execution did, in order: a checker was called; [argv.next]
    moved the cursor past a queue position and called the continuation
    there, or found none there; [logger.warn] was called with an error;
    ['command-error'] was emitted. *)
Inductive Event : Type :=
| Checked (ref : nat)
| Invoked (position : nat)
| Skipped (position : nat)
| Warned (e : Error)
| Emitted (e : Error).

(** The variables that [argv.next] closes over, and the events so far. *)
Record Pipeline := { queue : list Async; index : nat; trace : list Event }.

(** The position of a cursor event. *)
Definition position (e : Event) : option nat :=
  match e with
  | Invoked p | Skipped p => Some p
  | _ => None
  end.

Fixpoint positions (events : list Event) : list nat :=
  match events with
  | [] => []
  | e :: rest =>
      match position e with
      | Some p => p :: positions rest
      | None => positions rest
      end
  end.

(** The last cursor event, if any. *)
Fixpoint last_cursor (events : list Event) : option Event :=
  match events with
  | [] => None
  | e :: rest =>
      match last_cursor rest with
      | Some e' => Some e'
      | None => match position e with Some _ => Some e | None => None end
      end
  end.

(** The events of calling each checker of a list. *)
Definition checked (checkers : list Checker) : list Event :=
  List.map (fun v => Checked (checker_ref v)) checkers.

(** The checker returned a nullable value. *)
Definition passes (argv : Argv) (v : Checker) : Prop :=
  check_body v argv = JS.Return Nullish.

Definition decimal (n : nat) : string :=
  DecimalString.NilEmpty.string_of_uint (Nat.to_uint n).

Section Execution.
Context {host : Host}.

Definition depth_error : Error :=
  OtherError ("middleware stack exceeded " ++ decimal MAX_DEPTH)%string.

(** Modelled from the spec: [Next.compose], which is defined outside the given
    sources.  The callback given to [next] is spliced in as an additional
    continuation: calling that continuation runs the callback, which is
    passed [next]. *)
Definition compose (callback : Async) : Async := callback.

(** The [for (const validator of this._checkers)] loop: the checkers that
    were called, and the value to return or the error thrown, if any. *)
Fixpoint run_checkers (checkers : list Checker) (argv : Argv)
    : list Event * option Outcome :=
  match checkers with
  | [] => ([], None)
  | validator :: rest =>
      match check_body validator argv with
      | JS.Throw e => ([Checked (checker_ref validator)], Some (JS.Throw e))
      | JS.Return result =>
          if isNullable result
          then let (events, r) := run_checkers rest argv in
               (Checked (checker_ref validator) :: events, r)
          else ([Checked (checker_ref validator)], Some (JS.Return result))
      end
  end.

Definition push (st : Pipeline) (f : Async) : Pipeline :=
  {| queue := queue st ++ [f]; index := index st; trace := trace st |}.

(** [argv.next], given how to run a continuation. *)
Definition next_with (run : Async -> Pipeline -> option (Pipeline * Outcome))
    (callback : option Async) (st : Pipeline) : option (Pipeline * Outcome) :=
  let st1 := match callback with
             | Some f => push st (compose f)
             | None => st
             end in
  if match callback with
     | Some _ => Nat.ltb MAX_DEPTH (List.length (queue st1))
     | None => false
     end
  then Some (st1, JS.Throw depth_error)
  else
    match nth_error (queue st1) (index st1) with
    | None =>
        Some ({| queue := queue st1; index := S (index st1);
                 trace := trace st1 ++ [Skipped (index st1)] |},
              JS.Return Nullish)
    | Some f =>
        run f {| queue := queue st1; index := S (index st1);
                 trace := trace st1 ++ [Invoked (index st1)] |}
    end.

(** Running a function body; [fuel] bounds the number of nested steps. *)
Fixpoint run (fuel : nat) (f : Async) (st : Pipeline) : option (Pipeline * Outcome) :=
  match fuel with
  | 0 => None
  | S fuel' =>
      match f with
      | Finish r => Some (st, r)
      | Next k =>
          match next_with (run fuel') None st with
          | Some (st', r) => run fuel' (k r) st'
          | None => None
          end
      | NextWith callback k =>
          match next_with (run fuel') (Some callback) st with
          | Some (st', r) => run fuel' (k r) st'
          | None => None
          end
      end
  end.

Definition argv_next (fuel : nat) : option Async -> Pipeline -> option (Pipeline * Outcome) :=
  next_with (run fuel).

(** The [catch] block of [execute], entered with [error] when the cursor is
    not at [length]. *)
Definition recover (c : Command) (argv : Argv) (events : list Event) (error : Error)
    : list Event * Outcome :=
  match error with
  | SessionError path param => (events, JS.Return (Text (text argv path param)))
  | OtherError _ =>
      let events := events ++ [Warned error; Emitted error] in
      match handleError c with
      | Handler h =>
          match h error argv with
          | JS.Return result =>
              if isNullable result
              then (events, JS.Return (Text ""))
              else (events, JS.Return result)
          | JS.Throw e => (events, JS.Throw e)
          end
      | Flag true => (events, JS.Return (Text (text argv "internal.error-encountered" [])))
      | Flag false => (events, JS.Return (Text ""))
      end
  end.

(** The [try] statement of [execute] and the [return ''] after it. *)
Definition settle (c : Command) (argv : Argv) (length : nat)
    (st : Pipeline) (r : Outcome) : list Event * Outcome :=
  match r with
  | JS.Return result =>
      if isNullable result
      then (trace st, JS.Return (Text ""))
      else (trace st, JS.Return result)
  | JS.Throw error =>
      if Nat.eqb (index st) length
      then (trace st, JS.Throw error)
      else recover c argv (trace st) error
  end.

(** What the [catch] block makes of an error, by the kind of error and the
    policy of the command. *)
Definition converted (c : Command) (argv : Argv) (error : Error) : Outcome :=
  match error with
  | SessionError path param => JS.Return (Text (text argv path param))
  | OtherError _ =>
      match handleError c with
      | Flag true => JS.Return (Text (text argv "internal.error-encountered" []))
      | Flag false => JS.Return (Text "")
      | Handler h =>
          match h error argv with
          | JS.Return Nullish => JS.Return (Text "")
          | other => other
          end
      end
  end.

Definition truthy_error (argv : Argv) : option string :=
  match error argv with
  | Some e => if JS.truthy e then Some e else None
  | None => None
  end.

(** The pipeline when [argv.next] is first called: one continuation for each
    action, then [fallback]; the cursor at the start. *)
Definition start (c : Command) (argv : Argv) (fallback : Async) (events : list Event)
    : Pipeline :=
  {| queue := List.map (fun a => action_body a argv) (_actions c) ++ [fallback];
     index := 0;
     trace := events |}.

(** [execute(argv, fallback)]: the events and the outcome, for enough
    [fuel]. *)
Definition execute (fuel : nat) (c : Command) (argv : Argv) (fallback : Async)
    : option (list Event * Outcome) :=
  match truthy_error argv with
  | Some e => Some ([], JS.Return (Text e))
  | None =>
      match run_checkers (_checkers c) argv with
      | (events, Some r) => Some (events, r)
      | (events, None) =>
          match _actions c with
          | [] => Some (events, JS.Return (Text ""))
          | _ =>
              let st0 := start c argv fallback events in
              let length := List.length (queue st0) in
              match argv_next fuel None st0 with
              | Some (st, r) => Some (settle c argv length st r)
              | None => None
              end
          end
      end
  end.

End Execution.

End Command.

(** ** plugins/a11y/suggest/src/index.ts *)

Module Suggest.
Section Model.

(** [distance] of the package fastest-levenshtein. *)
Variable distance : string -> string -> nat.

(** [dist > name.length * minSimilarity], given [dist] and [name.length]:
    the right side is a floating-point number. *)
Variable exceeds : nat -> nat -> bool.

Definition push_error : string :=
  "TypeError: Cannot read properties of undefined (reading 'push')".

(** The loop of [suggest] over [items].  [suggestions] is [undefined]
    until the first assignment, and [minDistance] starts as [Infinity],
    which is [None] here. *)
Fixpoint select (target : string) (items : list string)
    (suggestions : option (list string)) (minDistance : option nat)
    : JS.completion string (option (list string)) :=
  match items with
  | [] => JS.Return suggestions
  | name :: rest =>
      let dist := distance name target in
      if Nat.leb (String.length name) 2 || exceeds dist (String.length name)
      then select target rest suggestions minDistance
      else if match minDistance with Some m => Nat.eqb dist m | None => false end
      then match suggestions with
           | Some found => select target rest (Some (found ++ [name])) minDistance
           | None => JS.Throw push_error
           end
      else if match minDistance with Some m => Nat.ltb dist m | None => true end
      then select target rest (Some [name]) (Some dist)
      else select target rest suggestions minDistance
  end.

(** *** Notions used to state the properties of the loop *)

(** A name that the loop does not pass over: it is longer than two
    characters and not too far from the target. *)
Definition qualifies (target name : string) : bool :=
  negb (Nat.leb (String.length name) 2
        || exceeds (distance name target) (String.length name)).

(** The qualifying names at a given distance, in the order of the items. *)
Definition at_distance (target : string) (m : nat) (items : list string) : list string :=
  List.filter (fun name => qualifies target name && Nat.eqb (distance name target) m) items.

(** The variables of the loop after the names [seen]. *)
Definition selected (target : string) (seen : list string)
    (suggestions : option (list string)) (minDistance : option nat) : Prop :=
  match suggestions, minDistance with
  | None, None => forall name, In name seen -> qualifies target name = false
  | Some found, Some m =>
      found = at_distance target m seen /\ found <> []
      /\ forall name, In name seen -> qualifies target name = true ->
                      m <= distance name target
  | _, _ => False
  end.

End Model.
End Suggest.

(** * Properties *)

Unset Implicit Arguments.

(** ** Maps and arrays *)

Module Facts.

(** Splits a conjunction into its parts, leaving the parts as they are. *)
Ltac conjs := repeat match goal with |- _ /\ _ => split end.

Lemma includes_In (l : list string) (x : string) : JS.includes l x = true <-> In x l.
Proof.
  unfold JS.includes. rewrite existsb_exists. split.
  - intros [y [Hy He]]. apply String.eqb_eq in He. now subst.
  - intros H. exists x. split; [assumption | apply String.eqb_refl].
Qed.

Lemma includes_false (l : list string) (x : string) : JS.includes l x = false <-> ~ In x l.
Proof.
  rewrite <- includes_In. destruct (JS.includes l x); split; intros H; congruence.
Qed.

Lemma truthy_nonempty (s : string) : JS.truthy s = true <-> s <> "".
Proof.
  unfold JS.truthy. rewrite negb_true_iff. split.
  - intros H E. subst. discriminate.
  - intros H. apply String.eqb_neq. assumption.
Qed.

Section Maps.
Context {V : Type}.
Implicit Types (m : StrMap.t V) (k : string) (v : V).

Lemma get_set_eq m k v : StrMap.get (StrMap.set m k v) k = Some v.
Proof.
  induction m as [| [k' v'] rest IH]; simpl.
  - now rewrite String.eqb_refl.
  - destruct (String.eqb k' k) eqn:E; simpl; rewrite E; auto.
Qed.

Lemma get_set_ne m k k' v : k <> k' -> StrMap.get (StrMap.set m k v) k' = StrMap.get m k'.
Proof.
  intros Hne. induction m as [| [k0 v0] rest IH]; simpl.
  - apply String.eqb_neq in Hne. now rewrite Hne.
  - destruct (String.eqb k0 k) eqn:E; simpl.
    + apply String.eqb_eq in E. subst k0.
      apply String.eqb_neq in Hne. now rewrite Hne.
    + now rewrite IH.
Qed.

Lemma get_In m k v : StrMap.get m k = Some v -> In (k, v) m.
Proof.
  induction m as [| [k' v'] rest IH]; simpl; [discriminate |].
  destruct (String.eqb k' k) eqn:E.
  - apply String.eqb_eq in E. intros [= ->]. subst. now left.
  - intros H. right. auto.
Qed.

Lemma get_None_keys m k : StrMap.get m k = None -> ~ In k (StrMap.keys m).
Proof.
  unfold StrMap.keys. induction m as [| [k' v'] rest IH]; simpl; [tauto |].
  destruct (String.eqb k' k) eqn:E; [discriminate |].
  apply String.eqb_neq in E. intros H [Hk | Hk]; [congruence | now apply IH].
Qed.


Lemma keys_set_present m k v : StrMap.has m k = true -> StrMap.keys (StrMap.set m k v) = StrMap.keys m.
Proof.
  unfold StrMap.has, StrMap.keys. induction m as [| [k' v'] rest IH]; simpl; [discriminate |].
  destruct (String.eqb k' k) eqn:E; simpl; [reflexivity |].
  intros H. now rewrite IH.
Qed.

Lemma keys_set_absent m k v : StrMap.has m k = false -> StrMap.keys (StrMap.set m k v) = StrMap.keys m ++ [k].
Proof.
  unfold StrMap.has, StrMap.keys. induction m as [| [k' v'] rest IH]; simpl; [reflexivity |].
  destruct (String.eqb k' k) eqn:E; simpl; [discriminate |].
  intros H. now rewrite IH.
Qed.

Lemma has_keys m k : StrMap.has m k = true <-> In k (StrMap.keys m).
Proof.
  unfold StrMap.has, StrMap.keys. induction m as [| [k' v'] rest IH]; simpl.
  - split; [discriminate | tauto].
  - destruct (String.eqb k' k) eqn:E.
    + apply String.eqb_eq in E. subst. tauto.
    + apply String.eqb_neq in E. rewrite IH. split; [tauto |]. intros [H | H]; [congruence | exact H].
Qed.

Lemma NoDup_keys_set m k v : NoDup (StrMap.keys m) -> NoDup (StrMap.keys (StrMap.set m k v)).
Proof.
  intros Hnd. destruct (StrMap.has m k) eqn:E.
  - now rewrite keys_set_present.
  - rewrite keys_set_absent by assumption.
    apply NoDup_app; [assumption | repeat constructor; simpl; tauto |].
    intros x Hx [Hk | []]. subst x.
    apply has_keys in Hx. congruence.
Qed.

End Maps.

End Facts.

(** ** The permission graph *)

Module GraphFacts.
Import Permission Facts.

Section Graph.
Context {numbers : JS.Numbers}.
Implicit Types (store : Store) (session : Session) (map : Edges).

Lemma every_false_spec session conditions :
  every_false session conditions = negb (spec_traversable session conditions).
Proof.
  unfold every_false, spec_traversable.
  induction conditions as [| c rest IH]; simpl; [reflexivity |].
  rewrite IH, negb_orb. reflexivity.
Qed.

Lemma visit_edges_app session map queue :
  visit_edges session map queue = queue ++ visit_edges session map [].
Proof.
  revert queue. induction map as [| [key conditions] rest IH]; intros queue; simpl.
  - now rewrite app_nil_r.
  - destruct (every_false session conditions); [apply IH |].
    rewrite (IH (queue ++ [key])), (IH [key]). now rewrite app_assoc.
Qed.

Lemma visit_edges_filter session map :
  visit_edges session map [] =
  List.map fst (List.filter (fun e => spec_traversable session (snd e)) map).
Proof.
  induction map as [| [key conditions] rest IH]; simpl; [reflexivity |].
  rewrite every_false_spec.
  destruct (spec_traversable session conditions); simpl.
  - rewrite visit_edges_app, IH. reflexivity.
  - exact IH.
Qed.

Lemma In_visit_edges session map target :
  In target (visit_edges session map []) <->
  exists conditions, In (target, conditions) map /\ spec_traversable session conditions = true.
Proof.
  rewrite visit_edges_filter, in_map_iff. split.
  - intros [[k conditions] [Hk Hin]]. simpl in Hk. subst k.
    apply filter_In in Hin. simpl in Hin. exists conditions. tauto.
  - intros [conditions [Hin Ht]]. exists (target, conditions). split; [reflexivity |].
    apply filter_In. simpl. tauto.
Qed.


Lemma edge_unlink store source target condition :
  edge (unlink store source target condition) source target =
  option_map (fun conditions => remove conditions condition) (edge store source target).
Proof.
  unfold unlink, edge.
  destruct (StrMap.get store source) as [map |] eqn:Hmap; simpl; [| now rewrite Hmap].
  destruct (StrMap.get map target) as [conditions |] eqn:Hget; simpl.
  - now rewrite !get_set_eq.
  - now rewrite Hmap, Hget.
Qed.

Lemma has_get {V : Type} (m : StrMap.t V) k :
  StrMap.has m k = false -> StrMap.get m k = None.
Proof. unfold StrMap.has. destruct (StrMap.get m k); [discriminate | reflexivity]. Qed.

Lemma edge_link store source target condition :
  edge (link store source target condition) source target =
  Some (match edge store source target with
        | Some conditions => conditions ++ [condition]
        | None => [condition]
        end).
Proof.
  unfold link, edge.
  destruct (StrMap.has store source) eqn:Hs.
  - unfold StrMap.has in Hs. destruct (StrMap.get store source) as [map |] eqn:Hmap; [| discriminate].
    destruct (StrMap.has map target) eqn:Ht.
    + unfold StrMap.has in Ht. destruct (StrMap.get map target) as [conditions |] eqn:Hc; [| discriminate].
      now rewrite !get_set_eq.
    + rewrite (has_get _ _ Ht), get_set_eq. cbv beta iota. now rewrite !get_set_eq.
  - rewrite (has_get _ _ Hs), get_set_eq. cbv beta iota.
    change (StrMap.has (@nil (string * list Computed)) target) with false. cbv iota.
    now rewrite !get_set_eq.
Qed.






(** *** The traversal *)

Lemma reachable_starts store session starts1 starts2 node :
  (forall s, In s starts1 -> reachable store session starts2 s) ->
  reachable store session starts1 node -> reachable store session starts2 node.
Proof.
  intros Hsub Hr. induction Hr as [n Hn | source target _ IH Hstep].
  - now apply Hsub.
  - eapply reach_step; eassumption.
Qed.

Lemma step_targets store session node map target :
  StrMap.get store node = Some map ->
  (step store session node target <-> In target (visit_edges session map [])).
Proof.
  intros Hmap. unfold step, traversed. rewrite Hmap. apply includes_In.
Qed.

Lemma step_no_edges store session node target :
  StrMap.get store node = None -> ~ step store session node target.
Proof. intros Hmap. unfold step, traversed. rewrite Hmap. discriminate. Qed.

Lemma visit_edges_truthy store session node map :
  truthy_targets store -> StrMap.get store node = Some map ->
  Forall (fun n => JS.truthy n = true) (visit_edges session map []).
Proof.
  intros Htruthy Hmap. apply Forall_forall. intros target Hin.
  apply In_visit_edges in Hin. destruct Hin as [conditions [Hin _]].
  eapply Htruthy; eassumption.
Qed.

(** What the loop computes when no node is the empty string: given the
    frontier invariant (every followed edge out of a visited node leads to a
    visited or a queued node), the result keeps the visited nodes, contains
    the queue, is closed under followed edges, has no duplicate, and holds
    only nodes that were visited before or are reachable from the queue. *)
Lemma subgraph_loop_spec store session queue result :
  truthy_targets store ->
  Forall (fun n => JS.truthy n = true) queue ->
  (forall n t, In n result -> step store session n t -> In t result \/ In t queue) ->
  let r := subgraph_loop store session queue result in
  incl result r
  /\ incl queue r
  /\ (forall n t, In n r -> step store session n t -> In t r)
  /\ (NoDup result -> NoDup r)
  /\ (forall n, In n r -> In n result \/ reachable store session queue n).
Proof.
  intros Htruthy. funelim (subgraph_loop store session queue result);
    intros Hq Hinv; cbv zeta.
  - (* the queue is empty *)
    repeat split; auto using incl_refl.
    + intros x [].
    + intros n t Hn Hs. destruct (Hinv n t Hn Hs) as [Ht | []]. exact Ht.
  - (* the dequeued node is falsy: excluded *)
    inversion Hq; subst. congruence.
  - (* the node was visited before *)
    clear Heqcall.
    pose proof (proj1 (includes_In _ _) Hseen) as Hin.
    inversion Hq as [| ? ? _ Hq']; subst.
    destruct (H Htruthy Hq') as (Hres & Hqueue & Hclosed & Hnodup & Hsound).
    { intros n t Hn Hs. destruct (Hinv n t Hn Hs) as [Ht | [Ht | Ht]]; subst; auto. }
    repeat split; auto.
    + intros x [Hx | Hx]; subst; auto.
    + intros n Hn. destruct (Hsound n Hn) as [Hr | Hr]; [now left | right].
      eapply reachable_starts; [| exact Hr]. intros s Hs. apply reach_start. now right.
  - (* a new node with outgoing edges *)
    clear Heqcall.
    pose proof (proj1 (includes_false _ _) Hnew) as Hfresh.
    inversion Hq as [| ? ? _ Hq']; subst.
    rewrite visit_edges_app in H |- *.
    destruct (H Htruthy) as (Hres & Hqueue & Hclosed & Hnodup & Hsound).
    { apply Forall_app. split; [assumption |]. eapply visit_edges_truthy; eassumption. }
    { intros n t Hn Hs. apply in_app_or in Hn. destruct Hn as [Hn | [Hn | []]].
      - destruct (Hinv n t Hn Hs) as [Ht | [Ht | Ht]]; subst; auto using in_or_app.
        left. apply in_or_app. right. now left.
      - subst n. right. apply in_or_app. right.
        eapply step_targets; eassumption. }
    repeat split; auto.
    + intros x Hx. apply Hres, in_or_app. now left.
    + intros x [Hx | Hx]; subst.
      * apply Hres, in_or_app. right. now left.
      * apply Hqueue, in_or_app. now left.
    + intros Hnd. apply Hnodup. apply NoDup_app; auto.
      * repeat constructor. simpl. tauto.
      * intros x Hx [Hx' | []]. subst. contradiction.
    + intros n Hn. destruct (Hsound n Hn) as [Hr | Hr].
      * apply in_app_or in Hr. destruct Hr as [Hr | [Hr | []]]; [now left |].
        subst. right. apply reach_start. now left.
      * right. eapply reachable_starts; [| exact Hr]. intros s Hs.
        apply in_app_or in Hs. destruct Hs as [Hs | Hs].
        -- apply reach_start. now right.
        -- eapply reach_step; [apply reach_start; now left |].
           eapply step_targets; eassumption.
  - (* a new node without outgoing edges *)
    clear Heqcall.
    pose proof (proj1 (includes_false _ _) Hnew) as Hfresh.
    inversion Hq as [| ? ? _ Hq']; subst.
    destruct (H Htruthy Hq') as (Hres & Hqueue & Hclosed & Hnodup & Hsound).
    { intros n t Hn Hs. apply in_app_or in Hn. destruct Hn as [Hn | [Hn | []]].
      - destruct (Hinv n t Hn Hs) as [Ht | [Ht | Ht]]; subst; auto using in_or_app.
        left. apply in_or_app. right. now left.
      - subst n. exfalso. eapply step_no_edges; eassumption. }
    repeat split; auto.
    + intros x Hx. apply Hres, in_or_app. now left.
    + intros x [Hx | Hx]; subst; auto. apply Hres, in_or_app. right. now left.
    + intros Hnd. apply Hnodup. apply NoDup_app; auto.
      * repeat constructor. simpl. tauto.
      * intros x Hx [Hx' | []]. subst. contradiction.
    + intros n Hn. destruct (Hsound n Hn) as [Hr | Hr].
      * apply in_app_or in Hr. destruct Hr as [Hr | [Hr | []]]; [now left |].
        subst. right. apply reach_start. now left.
      * right. eapply reachable_starts; [| exact Hr]. intros s Hs. apply reach_start. now right.
Qed.

(** X1: On a graph without the empty string as a node, [subgraph] returns,
    without duplicates, exactly the nodes reachable from the start nodes
    along followed edges; the start nodes are among them. *)
Theorem subgraph_reachable store session parents :
  truthy_targets store ->
  Forall (fun n => JS.truthy n = true) parents ->
  let r := subgraph store parents session [] in
  NoDup r /\ incl parents r /\ (forall n, In n r <-> reachable store session parents n).
Proof.
  intros Htruthy Hparents. unfold subgraph.
  destruct (subgraph_loop_spec store session parents [] Htruthy Hparents)
    as (_ & Hqueue & Hclosed & Hnodup & Hsound).
  { intros n t []. }
  cbv zeta. repeat split.
  - apply Hnodup. constructor.
  - exact Hqueue.
  - intros Hn. destruct (Hsound n Hn) as [[] | Hr]. exact Hr.
  - intros Hr. induction Hr as [n Hn | source target _ IH Hstep].
    + now apply Hqueue.
    + eapply Hclosed; eassumption.
Qed.

(** A cycle does not trap the traversal: each node is visited once. *)
Lemma subgraph_on_a_cycle session :
  let store := link (link [] "a" "b" (Static true)) "b" "a" (Static true) in
  subgraph store ["a"] session [] = ["a"; "b"].
Proof. reflexivity. Qed.

(** C5: the loop of [subgraph] ends when the dequeued value is falsy.  An
    empty string among the start nodes ends the traversal: it is not in the
    result, and neither are the start nodes after it. *)
Theorem subgraph_stops_at_empty_string session :
  subgraph [] ["a"; ""; "b"] session [] = ["a"].
Proof. reflexivity. Qed.

(** An empty string as a target ends the traversal as well: the node ["c"]
    is reachable from ["a"] along an edge whose condition is true and is
    not in the result. *)
Lemma subgraph_stops_at_empty_target session :
  let store := link (link [] "a" "" (Static true)) "a" "c" (Static true) in
  traversed store session "a" "c" = true /\
  subgraph store ["a"] session [] = ["a"].
Proof. split; reflexivity. Qed.

End Graph.

End GraphFacts.

(** ** The provider registry and the resolver *)

Module ResolverFacts.
Import Permission Facts.

(** *** Patterns *)

Lemma substring_zero_length (s : string) : substring 0 (String.length s) s = s.
Proof. induction s as [| c s IH]; simpl; [reflexivity | now rewrite IH]. Qed.

Lemma prefix_append (p rest : string) : String.prefix p (p ++ rest) = true.
Proof.
  induction p as [| c p IH]; simpl; [now destruct rest |].
  destruct (ascii_dec c c); [exact IH | congruence].
Qed.

Lemma prefix_split (p s : string) :
  String.prefix p s = true -> exists rest, s = (p ++ rest)%string.
Proof.
  revert s. induction p as [| c p IH]; intros s H.
  - exists s. reflexivity.
  - destruct s as [| d s]; simpl in H; [discriminate |].
    destruct (ascii_dec c d); [| discriminate]. subst d.
    destruct (IH s H) as [rest ->]. now exists rest.
Qed.

(** [name.startsWith(p)] holds exactly when [name] is [p] followed by
    something. *)
Lemma startsWith_spec (name p : string) :
  JS.startsWith name p = true <-> exists rest, name = (p ++ rest)%string.
Proof.
  unfold JS.startsWith. split.
  - apply prefix_split.
  - intros [rest ->]. apply prefix_append.
Qed.

Lemma substring_skip (c : ascii) (s : string) (n m : nat) :
  substring (S n) m (String c s) = substring n m s.
Proof. reflexivity. Qed.

Lemma endsWith_star_split (key : string) :
  JS.endsWith key "*" = true -> key = (JS.slice_init key ++ "*")%string.
Proof.
  unfold JS.endsWith, JS.slice_init. intros H.
  apply andb_prop in H. destruct H as [_ H]. apply String.eqb_eq in H.
  change (String.length "*") with 1 in H.
  induction key as [| c key IH]; [discriminate |].
  destruct key as [| d key].
  - simpl in H. simpl. exact H.
  - replace (String.length (String c (String d key)) - 1)
      with (S (String.length (String d key) - 1)) in * by (simpl; lia).
    rewrite substring_skip in H.
    change (substring 0 (S (String.length (String d key) - 1)) (String c (String d key)))
      with (String c (substring 0 (String.length (String d key) - 1) (String d key))).
    simpl append. f_equal. apply IH. exact H.
Qed.

Lemma length_append_star (s : string) : String.length (s ++ "*") = S (String.length s).
Proof. induction s as [| a s IH]; simpl; [reflexivity | now rewrite IH]. Qed.

Lemma substring_last_star (pre : string) :
  substring (String.length pre) 1 (pre ++ "*") = "*".
Proof. induction pre as [| c pre IH]; [reflexivity | exact IH]. Qed.

Lemma substring_init_star (pre : string) :
  substring 0 (String.length pre) (pre ++ "*") = pre.
Proof. induction pre as [| c pre IH]; simpl; [reflexivity | now rewrite IH]. Qed.

Lemma endsWith_star_append (pre : string) :
  JS.endsWith (pre ++ "*") "*" = true /\ JS.slice_init (pre ++ "*") = pre.
Proof.
  unfold JS.endsWith, JS.slice_init. rewrite length_append_star.
  change (String.length "*") with 1.
  replace (S (String.length pre) - 1) with (String.length pre) by lia.
  rewrite substring_last_star, substring_init_star. split; reflexivity.
Qed.

(** The filter of [check] keeps a key exactly when it is the name, or it is
    a prefix followed by a star and the name begins with that prefix. *)
Lemma matches_spec (name key : string) :
  matches name key = true <->
  name = key \/ exists pre rest, key = (pre ++ "*")%string /\ name = (pre ++ rest)%string.
Proof.
  unfold matches. rewrite orb_true_iff, andb_true_iff, String.eqb_eq, startsWith_spec.
  split.
  - intros [H | [Hend [rest Hrest]]]; [now left | right].
    exists (JS.slice_init key), rest. split; [now apply endsWith_star_split | exact Hrest].
  - intros [H | [pre [rest [-> ->]]]]; [now left | right].
    destruct (endsWith_star_append pre) as [H1 H2]. rewrite H1, H2. split; [reflexivity |].
    now exists rest.
Qed.

(** *** [check] *)

Section Check.
Context {numbers : JS.Numbers}.
Variables (name : string) (session : Session).

Local Abbreviation passes := (provider_passes name session).

(** How a run over the matching callbacks went: all were called and passed;
    or the calls stopped at one that returned [false]; or they stopped at one
    that threw. *)
Inductive run_shape (callbacks : list (string * ProvideCallback))
    : list event -> JS.completion string bool -> Prop :=
| all_passed :
    Forall passes callbacks ->
    run_shape callbacks (calls callbacks) (JS.Return true)
| stopped_false called key callback skipped :
    callbacks = called ++ (key, callback) :: skipped ->
    Forall passes called ->
    callback name session = JS.Return false ->
    run_shape callbacks (calls (called ++ [(key, callback)])) (JS.Return false)
| stopped_throw called key callback skipped error :
    callbacks = called ++ (key, callback) :: skipped ->
    Forall passes called ->
    callback name session = JS.Throw error ->
    run_shape callbacks (calls (called ++ [(key, callback)])) (JS.Throw error).

Lemma run_callbacks_shape callbacks :
  run_shape callbacks (fst (run_callbacks callbacks name session))
                      (snd (run_callbacks callbacks name session)).
Proof.
  induction callbacks as [| [key callback] rest IH]; simpl.
  - apply all_passed. constructor.
  - destruct (callback name session) as [[|] | error] eqn:Hcall; simpl.
    + destruct (run_callbacks rest name session) as [trace r]. simpl in *.
      inversion IH as [Hall Ht Hr | called k c skipped Hsplit Hall Hc Ht Hr
                      | called k c skipped e Hsplit Hall Hc Ht Hr]; subst.
      * apply (all_passed ((key, callback) :: rest)). constructor; assumption.
      * apply (stopped_false ((key, callback) :: called ++ (k, c) :: skipped)
                 ((key, callback) :: called) k c skipped); auto.
      * apply (stopped_throw ((key, callback) :: called ++ (k, c) :: skipped)
                 ((key, callback) :: called) k c skipped e); auto.
    + apply (stopped_false ((key, callback) :: rest) [] key callback rest); auto.
    + apply (stopped_throw ((key, callback) :: rest) [] key callback rest error); auto.
Qed.

(** The [catch] of [check] turns every error into [false]. *)
Lemma check_returns (p : Permissions) : exists b, snd (check p name session) = JS.Return b.
Proof.
  unfold check. destruct (check_try p name session) as [trace [b | error]]; simpl; eauto.
Qed.

(** The outcomes of [check], by the way the run over the matching callbacks
    went. *)
Lemma check_outcomes (p : Permissions) :
  let callbacks := matching p name in
  let trace := fst (check p name session) in
  let result := snd (check p name session) in
  (forall key callback, In (key, callback) callbacks <->
     In (key, callback) (Dict.entries (providers p)) /\
     (name = key \/
      exists pre rest, key = (pre ++ "*")%string /\ name = (pre ++ rest)%string))
  /\ (callbacks = [] -> trace = [] /\ result = JS.Return false)
  /\ (exists b, result = JS.Return b)
  /\ ((exists key callback error,
         In (key, callback) callbacks /\ callback name session = JS.Throw error) ->
      result = JS.Return false)
  /\ (result = JS.Return true <-> callbacks <> [] /\ Forall passes callbacks)
  /\ (exists called skipped,
        callbacks = called ++ skipped
        /\ Forall passes (removelast called)
        /\ (skipped <> [] -> exists last, called = removelast called ++ [last] /\ ~ passes last)
        /\ (trace = calls called
            \/ exists last error, called = removelast called ++ [last]
                 /\ snd last name session = JS.Throw error
                 /\ trace = calls called ++ [Warned error])).
Proof.
  cbv zeta. unfold check, check_try.
  pose proof (run_callbacks_shape (matching p name)) as Hshape.
  split.
  { intros key callback. unfold matching. rewrite filter_In, <- matches_spec. simpl. tauto. }
  destruct (matching p name) as [| first rest] eqn:Hm.
  { simpl. conjs.
    - auto.
    - eauto.
    - intros (key & callback & error & [] & _).
    - split; [discriminate | intros [H _]; congruence].
    - exists [], []. simpl. conjs; auto. congruence. }
  destruct (run_callbacks (first :: rest) name session) as [trace r]. simpl in Hshape.
  inversion Hshape as [Hall Ht Hr | called k c skipped Hsplit Hall Hc Ht Hr
                      | called k c skipped e Hsplit Hall Hc Ht Hr]; subst; simpl fst; simpl snd.
  - (* all passed *)
    conjs.
    + discriminate.
    + eauto.
    + intros (key & callback & error & Hin & Hthrow).
      rewrite Forall_forall in Hall. specialize (Hall _ Hin). unfold provider_passes in Hall.
      simpl in Hall. congruence.
    + split; [intros _; split; [discriminate | assumption] | reflexivity].
    + exists (first :: rest), []. rewrite app_nil_r. conjs; auto.
      * apply Forall_forall. intros x Hx. rewrite Forall_forall in Hall. apply Hall.
        destruct (@exists_last _ (first :: rest)) as (init & z & Hz); [discriminate |].
        rewrite Hz in *. rewrite removelast_last in Hx. apply in_or_app. now left.
      * congruence.
  - (* stopped at a callback that returned false *)
    conjs.
    + discriminate.
    + eauto.
    + reflexivity.
    + split; [discriminate |]. intros [_ Hp]. rewrite Forall_forall in Hp.
      assert (Hin : In (k, c) (first :: rest)).
      { rewrite Hsplit. apply in_or_app. right. now left. }
      specialize (Hp _ Hin). unfold provider_passes in Hp. simpl in Hp. congruence.
    + exists (called ++ [(k, c)]), skipped. rewrite Hsplit, <- app_assoc. simpl.
      rewrite removelast_last. conjs; auto.
      intros _. exists (k, c). split; [reflexivity |]. unfold provider_passes. simpl. congruence.
  - (* stopped at a callback that threw *)
    conjs.
    + discriminate.
    + eauto.
    + reflexivity.
    + split; [discriminate |]. intros [_ Hp]. rewrite Forall_forall in Hp.
      assert (Hin : In (k, c) (first :: rest)).
      { rewrite Hsplit. apply in_or_app. right. now left. }
      specialize (Hp _ Hin). unfold provider_passes in Hp. simpl in Hp. congruence.
    + exists (called ++ [(k, c)]), skipped. rewrite Hsplit, <- app_assoc. simpl.
      rewrite removelast_last. conjs; auto.
      * intros _. exists (k, c). split; [reflexivity |]. unfold provider_passes. simpl. congruence.
      * right. exists (k, c), e. auto.
Qed.

Lemma run_callbacks_pass (callbacks : list (string * ProvideCallback)) :
  Forall passes callbacks ->
  run_callbacks callbacks name session = (calls callbacks, JS.Return true).
Proof.
  induction 1 as [| [key callback] rest Hpass _ IH]; simpl; [reflexivity |].
  unfold provider_passes in Hpass. simpl in Hpass. now rewrite Hpass, IH.
Qed.

Lemma run_callbacks_stop (called skipped : list (string * ProvideCallback))
    (key : string) (callback : ProvideCallback) :
  Forall passes called ->
  callback name session <> JS.Return true ->
  run_callbacks (called ++ (key, callback) :: skipped) name session
  = (calls (called ++ [(key, callback)]), callback name session).
Proof.
  intros Hcalled Hstop. induction Hcalled as [| [k c] rest Hpass _ IH]; simpl.
  - destruct (callback name session) as [[|] | error]; [congruence | reflexivity | reflexivity].
  - unfold provider_passes in Hpass. simpl in Hpass. now rewrite Hpass, IH.
Qed.

Lemma first_failing (callbacks : list (string * ProvideCallback)) :
  Forall passes callbacks
  \/ exists called key callback skipped,
       callbacks = called ++ (key, callback) :: skipped
       /\ Forall passes called
       /\ callback name session <> JS.Return true.
Proof.
  induction callbacks as [| [key callback] rest [IH | (called & k & c & skipped & -> & Hc & Hk)]].
  - left. constructor.
  - destruct (callback name session) as [[|] | error] eqn:Hcall.
    + left. constructor; assumption.
    + right. exists [], key, callback, rest. conjs; [reflexivity | constructor | congruence].
    + right. exists [], key, callback, rest. conjs; [reflexivity | constructor | congruence].
  - destruct (callback name session) as [[|] | error] eqn:Hcall.
    + right. exists ((key, callback) :: called), k, c, skipped.
      conjs; [reflexivity | constructor; assumption | assumption].
    + right. exists [], key, callback, (called ++ (k, c) :: skipped).
      conjs; [reflexivity | constructor | congruence].
    + right. exists [], key, callback, (called ++ (k, c) :: skipped).
      conjs; [reflexivity | constructor | congruence].
Qed.

(** C8: [check] returns [false], having called nothing, when no provider
    pattern matches the name.  It never throws, and whenever some matching
    callback would throw, the result is [false].  The matching callbacks
    are called one after the other, in the order of [Object.entries], and
    the calls stop at the first one that does not return [true]; the result
    is [true] exactly when there is a matching callback and all of them
    return [true], and then each was called once and nothing was logged.
    When the calls stop at a callback that returns [false], the callbacks up
    to it were called, nothing was logged and the result is [false].  When
    they stop at a callback that throws, the callbacks up to it were called,
    the error was logged, once and after the calls, and the result is
    [false].  One of these is the case. *)
Theorem check_default_deny_contained_sequential (p : Permissions) :
  let callbacks := matching p name in
  let trace := fst (check p name session) in
  let result := snd (check p name session) in
  (forall key callback, In (key, callback) callbacks <->
     In (key, callback) (Dict.entries (providers p)) /\
     (name = key \/
      exists pre rest, key = (pre ++ "*")%string /\ name = (pre ++ rest)%string))
  /\ (callbacks = [] -> trace = [] /\ result = JS.Return false)
  /\ (exists b, result = JS.Return b)
  /\ ((exists key callback error,
         In (key, callback) callbacks /\ callback name session = JS.Throw error) ->
      result = JS.Return false)
  /\ (result = JS.Return true <-> callbacks <> [] /\ Forall passes callbacks)
  /\ (callbacks <> [] -> Forall passes callbacks ->
        trace = calls callbacks /\ result = JS.Return true)
  /\ (forall called key callback skipped,
        callbacks = called ++ (key, callback) :: skipped ->
        Forall passes called ->
        (callback name session = JS.Return false ->
           trace = calls (called ++ [(key, callback)]) /\ result = JS.Return false)
        /\ (forall error, callback name session = JS.Throw error ->
              trace = calls (called ++ [(key, callback)]) ++ [Warned error]
              /\ result = JS.Return false))
  /\ (Forall passes callbacks
      \/ exists called key callback skipped,
           callbacks = called ++ (key, callback) :: skipped
           /\ Forall passes called
           /\ (callback name session = JS.Return false
               \/ exists error, callback name session = JS.Throw error)).
Proof.
  cbv zeta.
  destruct (check_outcomes p) as (H1 & H2 & H3 & H4 & H5 & _). cbv zeta in *.
  conjs; auto.
  - intros Hne Hpass. unfold check, check_try.
    destruct (matching p name) as [| first rest] eqn:Hm; [congruence |].
    rewrite (run_callbacks_pass _ Hpass). auto.
  - intros called key callback skipped Hsplit Hcalled. unfold check, check_try.
    rewrite Hsplit.
    assert (Hcons : exists first rest, called ++ (key, callback) :: skipped = first :: rest).
    { destruct called; simpl; eauto. }
    destruct Hcons as (first & rest & Hcons). rewrite Hcons, <- Hcons.
    split.
    + intros Hfalse. rewrite run_callbacks_stop by (assumption || congruence).
      rewrite Hfalse. auto.
    + intros error Hthrow. rewrite run_callbacks_stop by (assumption || congruence).
      rewrite Hthrow. auto.
  - destruct (first_failing (matching p name))
      as [Hall | (called & key & callback & skipped & Hsplit & Hcalled & Hstop)]; [now left |].
    right. exists called, key, callback, skipped. conjs; auto.
    destruct (callback name session) as [[|] | error]; [congruence | now left | right; eauto].
Qed.

End Check.

(** *** [test] *)

Section Test.
Context {numbers : JS.Numbers}.

Lemma check_parents_returns p session parents :
  forall cache,
    Forall (fun e => exists b, snd e = JS.Return b) cache ->
    Forall (fun r => exists b, r = JS.Return b) (snd (check_parents p session cache parents))
    /\ Forall (fun e => exists b, snd e = JS.Return b) (fst (check_parents p session cache parents)).
Proof.
  induction parents as [| parent rest IH]; intros cache Hcache; simpl.
  - split; [constructor | assumption].
  - destruct (StrMap.get cache parent) as [promise |] eqn:Hget.
    + destruct (IH cache Hcache) as [H1 H2].
      destruct (check_parents p session cache rest) as [cache' results]. simpl in *.
      split; [| assumption]. constructor; [| assumption].
      apply get_In in Hget. rewrite Forall_forall in Hcache. apply (Hcache _ Hget).
    + pose proof (check_returns parent session p) as Hret.
      assert (Hcache' : Forall (fun e => exists b, snd e = JS.Return b)
                (StrMap.set cache parent (snd (check p parent session)))).
      { clear - Hcache Hret. induction cache as [| [k v] cache IHc]; simpl.
        - constructor; [exact Hret | constructor].
        - inversion Hcache; subst. destruct (String.eqb k parent); constructor; auto. }
      destruct (IH _ Hcache') as [H1 H2].
      destruct (check_parents p session _ rest) as [cache' results]. simpl in *.
      split; [| assumption]. constructor; assumption.
Qed.

Lemma await_all_returns promises :
  Forall (fun r => exists b, r = JS.Return b) promises ->
  exists results, await_all promises = JS.Return results.
Proof.
  induction 1 as [| r rest [b ->] _ [results IH]]; simpl.
  - now exists [].
  - rewrite IH. now exists (b :: results).
Qed.

(** [test] does not throw: the errors of the providers are contained by
    [check]. *)
Lemma test_returns p x y session : exists b, test p x y session = JS.Return b.
Proof.
  unfold test. generalize (subgraph (depends p) y session []). intros names.
  assert (Hcache : Forall (fun e : string * JS.completion string bool =>
                             exists b, snd e = JS.Return b) []) by constructor.
  revert Hcache. generalize (@nil (string * JS.completion string bool)).
  induction names as [| name rest IH]; intros cache Hcache; simpl.
  - now exists true.
  - destruct (existsb _ _); [now apply IH |].
    destruct (check_parents_returns p session (subgraph (inherits p) [name] session []) cache Hcache)
      as [H1 H2].
    destruct (check_parents p session cache _) as [cache' promises]. simpl in *.
    destruct (await_all_returns _ H1) as [results ->].
    destruct (existsb _ results); [now apply IH | now exists false].
Qed.

(** C1, as the code has it: after [inherit("authority.3", "cmd.foo")] and
    [depend("cmd.bar", "cmd.foo")] on a fresh resolver, the required name
    ["cmd.bar"] is itself among the names to satisfy; nobody grants it, so
    holding ["authority.3"] alone fails the test for ["cmd.bar"].  When
    ["cmd.bar"] is held too the test succeeds through the inherit edge, and
    fails once that edge is removed; likewise the test for ["cmd.foo"] with
    ["authority.3"] held succeeds, and fails once the edge is removed. *)
Theorem test_short_circuit session :
  subgraph (depends granted) ["cmd.bar"] session [] = ["cmd.bar"; "cmd.foo"]
  /\ subgraph (inherits granted) ["cmd.foo"] session [] = ["cmd.foo"; "authority.3"]
  /\ subgraph (inherits revoked) ["cmd.foo"] session [] = ["cmd.foo"]
  /\ test granted ["authority.3"] ["cmd.bar"] session = JS.Return false
  /\ test granted ["authority.3"; "cmd.bar"] ["cmd.bar"] session = JS.Return true
  /\ test revoked ["authority.3"; "cmd.bar"] ["cmd.bar"] session = JS.Return false
  /\ test granted ["authority.3"] ["cmd.foo"] session = JS.Return true
  /\ test revoked ["authority.3"] ["cmd.foo"] session = JS.Return false.
Proof. conjs; reflexivity. Qed.

End Test.

(** C1, as the spec states it, fails: with only ["authority.3"] held, the
    test for ["cmd.bar"] returns [false] while the inherit edge is in
    place. *)
Lemma test_short_circuit_counterexample :
  test (numbers := JS.level_numbers) granted ["authority.3"] ["cmd.bar"]
       {| user := None; bot := None |}
  = JS.Return false.
Proof. vm_compute. reflexivity. Qed.

End ResolverFacts.

(** ** Commands: registration and checkers *)

Module CommandFacts.
Import Command Facts.

Section Registry.
Context {host : Host}.

Lemma registerAlias_duplicate (w : World) (name key : string) (other : nat) (prepend : bool) :
  full_name (this w) name = JS.Return key ->
  StrMap.get (commands (commander w)) key = Some other ->
  other <> id (this w) ->
  registered w ->
  exists cmd',
    _registerAlias w name prepend
    = ({| commander := commander w; this := cmd' |}, JS.Throw (duplicate_error key)).
Proof.
  intros Hname Hget Hother Hreg. unfold _registerAlias. rewrite Hname.
  destruct (JS.includes (_aliases (this w)) key) eqn:Hdone.
  - apply includes_In in Hdone. apply Hreg in Hdone. congruence.
  - rewrite Hget. apply Nat.eqb_neq in Hother. rewrite Hother. eauto.
Qed.

Lemma alias_app (w : World) (earlier later : list string) :
  alias w (earlier ++ later) =
  match alias w earlier with
  | (w1, JS.Return _) => alias w1 later
  | (w1, JS.Throw e) => (w1, JS.Throw e)
  end.
Proof.
  revert w. induction earlier as [| name rest IH]; intros w; simpl; [reflexivity |].
  destruct (_registerAlias w name false) as [w' [[] | e]]; [apply IH | reflexivity].
Qed.

(** Whenever [_registerAlias] throws, the registry is as it was. *)
Lemma registerAlias_throw_registry_unchanged (w w' : World) (name : string)
    (prepend : bool) (e : Error) :
  _registerAlias w name prepend = (w', JS.Throw e) -> commander w' = commander w.
Proof.
  unfold _registerAlias. destruct (full_name (this w) name) as [key | e0].
  - destruct (JS.includes (_aliases (this w)) key).
    + destruct prepend; discriminate.
    + destruct (StrMap.get (commands (commander w)) key) as [previous |]; [| discriminate].
      destruct (Nat.eqb previous (id (this w))); [discriminate |].
      now intros [= <- _].
  - now intros [= <- _].
Qed.

(** C9: a name that the registry maps to another command is registered.
    While the name is not in the alias list of the command, the call throws
    the duplicate-name error and leaves the registry, the alias map and the
    command list, as it was: in [_registerAlias], in [alias] at the colliding
    name, and in the constructor, which throws the error of the constructor
    of the base class when that one throws.  The failed call has put the
    name in the alias list of the command, and there lies the fault: the
    same call made again finds the name in the list and returns without an
    error, and so does every call for a name that is in the list, although
    the registry maps the name to the other command.  In every case in
    which [_registerAlias] throws, the registry is as it was. *)
Theorem duplicate_alias_throws_only_while_unlisted
    (c : Commander) (cmd : Command) (name key : string) (other : nat) :
  full_name cmd name = JS.Return key ->
  StrMap.get (commands c) key = Some other ->
  other <> id cmd ->
  (JS.includes (_aliases cmd) key = false ->
     (forall prepend, exists cmd',
        _registerAlias {| commander := c; this := cmd |} name prepend
        = ({| commander := c; this := cmd' |}, JS.Throw (duplicate_error key))
        /\ In key (_aliases cmd')
        /\ exists cmd'',
             _registerAlias {| commander := c; this := cmd' |} name prepend
             = ({| commander := c; this := cmd'' |}, JS.Return tt))
     /\ (forall rest, exists cmd',
           alias {| commander := c; this := cmd |} (name :: rest)
           = ({| commander := c; this := cmd' |}, JS.Throw (duplicate_error key))
           /\ exists cmd'',
                alias {| commander := c; this := cmd' |} [name]
                = ({| commander := c; this := cmd'' |}, JS.Return tt)))
  /\ (JS.includes (_aliases cmd) key = true ->
        forall prepend, exists cmd',
          _registerAlias {| commander := c; this := cmd |} name prepend
          = ({| commander := c; this := cmd' |}, JS.Return tt))
  /\ (cmd = fresh (id cmd) name ->
        forall base, exists e,
          construct base c (id cmd) name = (c, JS.Throw e)
          /\ (base = JS.Return tt -> e = duplicate_error key)
          /\ (forall thrown, base = JS.Throw thrown -> e = thrown))
  /\ (forall w w' any prepend e,
        _registerAlias w any prepend = (w', JS.Throw e) -> commander w' = commander w).
Proof.
  intros Hname Hget Hother.
  pose proof Hother as Hneq. apply Nat.eqb_neq in Hneq.
  assert (Hfirst : JS.includes (_aliases cmd) key = false ->
            forall prepend, exists cmd',
              _registerAlias {| commander := c; this := cmd |} name prepend
              = ({| commander := c; this := cmd' |}, JS.Throw (duplicate_error key))
              /\ In key (_aliases cmd')
              /\ exists cmd'',
                   _registerAlias {| commander := c; this := cmd' |} name prepend
                   = ({| commander := c; this := cmd'' |}, JS.Return tt)).
  { intros Hfresh prepend. unfold _registerAlias at 1. cbn [this commander].
    rewrite Hname, Hfresh, Hget, Hneq.
    eexists. split; [reflexivity |]. split.
    - destruct prepend; simpl; [now left | apply in_or_app; right; now left].
    - unfold _registerAlias. cbn [this commander].
      assert (Hname' : forall aliases, full_name (set_aliases cmd aliases) name = JS.Return key)
        by (intros aliases; exact Hname).
      rewrite Hname'.
      assert (Hdone : JS.includes
                (_aliases (set_aliases cmd (if prepend then key :: _aliases cmd
                                            else _aliases cmd ++ [key]))) key = true).
      { apply includes_In. destruct prepend; simpl; [now left | apply in_or_app; right; now left]. }
      rewrite Hdone. destruct prepend; eauto. }
  conjs.
  - intros Hfresh. split; [now apply Hfirst |].
    intros rest. destruct (Hfirst Hfresh false) as (cmd' & Hthrow & Hin & cmd'' & Hagain).
    exists cmd'. simpl. rewrite Hthrow. split; [reflexivity |].
    exists cmd''. now rewrite Hagain.
  - intros Hlisted prepend. unfold _registerAlias. cbn [this commander].
    rewrite Hname, Hlisted. destruct prepend; eauto.
  - intros Hfresh [[] | thrown].
    + exists (duplicate_error key). unfold construct. rewrite <- Hfresh.
      assert (Hnone : JS.includes (_aliases cmd) key = false) by now rewrite Hfresh.
      destruct (Hfirst Hnone false) as (cmd' & -> & _). conjs; [reflexivity | reflexivity |].
      intros thrown' [=].
    + exists thrown. conjs; [reflexivity | discriminate |]. now intros thrown' [= <-].
  - intros w w' any prepend e. apply registerAlias_throw_registry_unchanged.
Qed.

(** After a failed attempt the name stays in the command's own alias list,
    so the same call made again returns; the registry is still unchanged. *)
Lemma registerAlias_again_returns (w : World) (name key : string) (other : nat) :
  full_name (this w) name = JS.Return key ->
  StrMap.get (commands (commander w)) key = Some other ->
  other <> id (this w) ->
  registered w ->
  exists w',
    _registerAlias w name false = (w', JS.Throw (duplicate_error key))
    /\ _registerAlias w' name false = (w', JS.Return tt).
Proof.
  intros Hname Hget Hother Hreg. unfold _registerAlias at 1. rewrite Hname.
  destruct (JS.includes (_aliases (this w)) key) eqn:Hdone.
  - apply includes_In in Hdone. apply Hreg in Hdone. congruence.
  - rewrite Hget. pose proof Hother as Hneq. apply Nat.eqb_neq in Hneq. rewrite Hneq.
    eexists. split; [reflexivity |].
    unfold _registerAlias. simpl.
    assert (Hname' : full_name (set_aliases (this w) (_aliases (this w) ++ [key])) name
                     = JS.Return key) by exact Hname.
    rewrite Hname'. rewrite JS.includes_app. simpl.
    rewrite String.eqb_refl, orb_true_r. reflexivity.
Qed.

End Registry.

(** C9 at a concrete registry: ["echo"] is registered to command 1, and
    command 2 asks for the alias ["Echo"], twice. *)
Lemma duplicate_alias_witness :
  let c := {| commands := [("echo", 1); ("say", 2)]; _commandList := [1; 2] |} in
  let cmd := set_aliases (fresh (host := example_host) 2 "say") ["say"] in
  full_name (host := example_host) cmd "Echo" = JS.Return "echo"
  /\ StrMap.get (commands c) "echo" = Some 1
  /\ 1 <> id cmd
  /\ JS.includes (_aliases cmd) "echo" = false
  /\ exists cmd',
       alias (host := example_host) {| commander := c; this := cmd |} ["Echo"]
       = ({| commander := c; this := cmd' |}, JS.Throw (duplicate_error "echo"))
       /\ exists cmd'',
            alias (host := example_host) {| commander := c; this := cmd' |} ["Echo"]
            = ({| commander := c; this := cmd'' |}, JS.Return tt).
Proof.
  cbv zeta.
  assert (Hne : 1 <> 2) by discriminate.
  split; [reflexivity |]. split; [reflexivity |]. split; [exact Hne |]. split; [reflexivity |].
  exact (proj2 (proj1 (duplicate_alias_throws_only_while_unlisted (host := example_host)
              {| commands := [("echo", 1); ("say", 2)]; _commandList := [1; 2] |}
              (set_aliases (fresh (host := example_host) 2 "say") ["say"])
              "Echo" "echo" 1 eq_refl eq_refl Hne) eq_refl) []).
Defined.

End CommandFacts.

(** ** The continuation queue *)

Module PipelineFacts.
Import Command Facts.

Lemma positions_app (a b : list Event) : positions (a ++ b) = positions a ++ positions b.
Proof.
  induction a as [| e a IH]; simpl; [reflexivity |].
  destruct (position e); simpl; now rewrite IH.
Qed.

Lemma In_positions (events : list Event) (p : nat) :
  In p (positions events) <-> In (Invoked p) events \/ In (Skipped p) events.
Proof.
  induction events as [| e rest IH]; simpl; [tauto |].
  destruct e; simpl; rewrite IH; intuition congruence.
Qed.

Lemma last_cursor_app (a b : list Event) :
  last_cursor (a ++ b) =
  match last_cursor b with Some e => Some e | None => last_cursor a end.
Proof.
  induction a as [| e a IH]; simpl; [now destruct (last_cursor b) |].
  rewrite IH. destruct (last_cursor b); reflexivity.
Qed.

Lemma last_cursor_position (events : list Event) (e : Event) :
  last_cursor events = Some e ->
  exists p before, position e = Some p /\ positions events = before ++ [p].
Proof.
  revert e. induction events as [| x rest IH]; intros e; simpl; [discriminate |].
  destruct (last_cursor rest) as [e' |] eqn:Hlast.
  - intros [= <-]. destruct (IH e' eq_refl) as (p & before & Hp & Hpos).
    rewrite Hpos. destruct (position x) as [q |].
    + exists p, (q :: before). auto.
    + exists p, before. auto.
  - assert (Hnone : positions rest = []).
    { clear - Hlast. induction rest as [| y rest IH]; simpl in *; [reflexivity |].
      destruct (last_cursor rest); [discriminate |].
      destruct (position y); [discriminate | auto]. }
    rewrite Hnone. destruct (position x) as [q |] eqn:Hx; [| discriminate].
    intros [= <-]. exists q, []. auto.
Qed.

(** *** Every run ends

    A function body is a well-founded tree, and each call of [next] replaces
    the body at hand by smaller ones: the rest of the body and, at most, the
    callback it queued.  The bodies still to run, those in progress and those
    queued behind the cursor, therefore decrease in the multiset order. *)

(** A part of a body: what follows a call of [next], or the callback. *)
Inductive part : Async -> Async -> Prop :=
| part_next k r : part (k r) (Next k)
| part_with k callback r : part (k r) (NextWith callback k)
| part_callback k callback : part callback (NextWith callback k).

Lemma part_wf : well_founded part.
Proof.
  intros f. induction f as [r | k IH | callback IHc k IH];
    constructor; intros y Hy; inversion Hy; subst; auto.
Qed.

(** One element of the list on the right is replaced by parts of it. *)
Inductive shrink (T' T : list Async) : Prop :=
| shrink_intro x parts rest :
    Permutation T (x :: rest) ->
    Permutation T' (parts ++ rest) ->
    (forall y, In y parts -> part y x) ->
    shrink T' T.

Lemma shrink_cons_inv (N T : list Async) (x : Async) :
  shrink N (x :: T) ->
  (exists parts, Permutation N (parts ++ T) /\ forall y, In y parts -> part y x)
  \/ (exists T', shrink T' T /\ Permutation N (x :: T')).
Proof.
  intros [z parts rest HT HN Hparts].
  destruct (Permutation_vs_cons_inv HT) as (l1 & l2 & Hsplit).
  destruct l1 as [| x' l1]; simpl in Hsplit; injection Hsplit as Hx Hl.
  - subst z T. left. exists parts. split; [| assumption].
    apply Permutation_cons_inv in HT. now rewrite HT.
  - subst x' T. right. exists (parts ++ l1 ++ l2). split.
    + apply (shrink_intro _ _ z parts (l1 ++ l2)); auto.
      symmetry. apply Permutation_middle.
    + assert (Hrest : Permutation rest (x :: l1 ++ l2)).
      { apply Permutation_cons_inv with (a := z).
        rewrite <- HT. rewrite perm_swap. apply perm_skip. symmetry. apply Permutation_middle. }
      rewrite HN, Hrest. symmetry. apply Permutation_middle.
Qed.

Lemma Acc_shrink_perm (T T' : list Async) :
  Permutation T T' -> Acc shrink T -> Acc shrink T'.
Proof.
  intros Hperm [H]. constructor. intros N [x parts rest HT HN Hparts].
  apply H. apply (shrink_intro _ _ x parts rest); auto. now rewrite Hperm.
Qed.

Lemma Acc_shrink_parts (x : Async) :
  (forall y, part y x -> forall T, Acc shrink T -> Acc shrink (y :: T)) ->
  forall parts T, (forall y, In y parts -> part y x) -> Acc shrink T -> Acc shrink (parts ++ T).
Proof.
  intros Hsmaller parts. induction parts as [| y parts IH]; intros T Hparts HT; simpl.
  - exact HT.
  - apply Hsmaller; [apply Hparts; now left |]. apply IH; [| exact HT].
    intros z Hz. apply Hparts. now right.
Qed.

Lemma Acc_shrink_cons (x : Async) (T : list Async) :
  Acc shrink T -> Acc shrink (x :: T).
Proof.
  revert T. induction (part_wf x) as [x _ IHx]. intros T HT.
  induction HT as [T HT IHT]. constructor. intros N HN.
  apply shrink_cons_inv in HN. destruct HN as [(parts & HN & Hparts) | (T' & HT' & HN)].
  - apply (Acc_shrink_perm (parts ++ T)); [now symmetry |].
    apply (Acc_shrink_parts x); auto. now constructor.
  - apply (Acc_shrink_perm (x :: T')); [now symmetry |]. now apply IHT.
Qed.

Lemma shrink_wf : well_founded shrink.
Proof.
  intros T. induction T as [| x T IH].
  - constructor. intros N [x parts rest HT _ _]. apply Permutation_nil in HT. discriminate.
  - now apply Acc_shrink_cons.
Qed.

Definition smaller : list Async -> list Async -> Prop := clos_trans _ shrink.

Lemma smaller_wf : well_founded smaller.
Proof. apply wf_clos_trans, shrink_wf. Qed.

Lemma shrink_cons (x : Async) (T' T : list Async) : shrink T' T -> shrink (x :: T') (x :: T).
Proof.
  intros [z parts rest HT HN Hparts].
  apply (shrink_intro _ _ z parts (x :: rest)); auto.
  - rewrite HT. apply perm_swap.
  - rewrite HN. apply Permutation_middle.
Qed.

Lemma smaller_cons (x : Async) (T' T : list Async) : smaller T' T -> smaller (x :: T') (x :: T).
Proof.
  induction 1 as [a b H | a b c _ IH1 _ IH2].
  - apply t_step. now apply shrink_cons.
  - eapply t_trans; eassumption.
Qed.

Lemma smaller_perm (A A' B B' : list Async) :
  Permutation A A' -> Permutation B B' -> smaller A B -> smaller A' B'.
Proof.
  intros HA HB H. revert A' B' HA HB.
  induction H as [a b [x parts rest HT HN Hparts] | a b c _ IH1 _ IH2]; intros A' B' HA HB.
  - apply t_step. apply (shrink_intro _ _ x parts rest); auto.
    + now rewrite <- HB.
    + now rewrite <- HA.
  - eapply t_trans; [apply IH1 | apply IH2]; eauto.
Qed.

(** Replacing [x] by some of its parts, in front of a list. *)
Lemma smaller_parts (x : Async) (parts T : list Async) :
  (forall y, In y parts -> part y x) -> smaller (parts ++ T) (x :: T).
Proof.
  intros Hparts. apply t_step. apply (shrink_intro _ _ x parts T); auto.
Qed.

Section Run.
Context {host : Host}.

(** *** More fuel changes nothing *)

Lemma next_with_mono (run1 run2 : Async -> Pipeline -> option (Pipeline * Outcome))
    (callback : option Async) (st : Pipeline) (x : Pipeline * Outcome) :
  (forall f s y, run1 f s = Some y -> run2 f s = Some y) ->
  next_with run1 callback st = Some x -> next_with run2 callback st = Some x.
Proof.
  intros Hrun. unfold next_with.
  destruct (match callback with Some _ => _ | None => false end); [auto |].
  destruct (nth_error _ _); auto.
Qed.

Lemma run_mono (fuel : nat) :
  forall fuel' f st x, fuel <= fuel' -> run fuel f st = Some x -> run fuel' f st = Some x.
Proof.
  induction fuel as [| fuel IH]; intros fuel' f st x Hle; [discriminate |].
  destruct fuel' as [| fuel']; [lia |]. simpl.
  assert (Hrun : forall f s y, run fuel f s = Some y -> run fuel' f s = Some y).
  { intros g s y. apply IH. lia. }
  destruct f as [r | k | callback k]; [auto | |].
  - destruct (next_with (run fuel) None st) as [[st1 r] |] eqn:Hnext; [| discriminate].
    rewrite (next_with_mono _ _ _ _ _ Hrun Hnext). apply Hrun.
  - destruct (next_with (run fuel) (Some callback) st) as [[st1 r] |] eqn:Hnext; [| discriminate].
    rewrite (next_with_mono _ _ _ _ _ Hrun Hnext). apply Hrun.
Qed.

Lemma argv_next_mono (fuel fuel' : nat) callback st x :
  fuel <= fuel' -> argv_next fuel callback st = Some x -> argv_next fuel' callback st = Some x.
Proof.
  intros Hle. unfold argv_next. apply next_with_mono. intros f s y. now apply run_mono.
Qed.

(** *** What a run does to the pipeline *)

(** From [st] to [st']: the queue grew at its end, the cursor moved forward
    over every position in between, one event for each, and a position was
    skipped only at or after the end of the queue. *)
Record Extends (st st' : Pipeline) : Prop := {
  ext_queue : exists added, queue st' = queue st ++ added;
  ext_trace : exists events,
      trace st' = trace st ++ events
      /\ positions events = seq (index st) (index st' - index st)
      /\ (forall e, In e events -> position e <> None)
      /\ (forall p, In (Skipped p) events -> List.length (queue st) <= p)
      /\ (forall p, In (Invoked p) events -> p < List.length (queue st'));
  ext_index : index st <= index st'
}.

Lemma Extends_refl (st : Pipeline) : Extends st st.
Proof.
  constructor.
  - exists []. now rewrite app_nil_r.
  - exists []. rewrite app_nil_r, Nat.sub_diag. simpl. conjs; auto; intros ? [].
  - lia.
Qed.

Lemma Extends_trans (a b c : Pipeline) : Extends a b -> Extends b c -> Extends a c.
Proof.
  intros [[q1 Hq1] (e1 & Ht1 & Hp1 & Hc1 & Hs1 & Hi1) Hi] [[q2 Hq2] (e2 & Ht2 & Hp2 & Hc2 & Hs2 & Hi2) Hj].
  constructor.
  - exists (q1 ++ q2). now rewrite Hq2, Hq1, app_assoc.
  - exists (e1 ++ e2). conjs.
    + now rewrite Ht2, Ht1, app_assoc.
    + rewrite positions_app, Hp1, Hp2.
      replace (index c - index a) with ((index b - index a) + (index c - index b)) by lia.
      rewrite seq_app. do 2 f_equal. lia.
    + intros e He. apply in_app_or in He. destruct He; auto.
    + intros p Hp. apply in_app_or in Hp. destruct Hp as [Hp | Hp]; [auto |].
      apply Hs2 in Hp. rewrite Hq1, length_app in Hp. lia.
    + intros p Hp. apply in_app_or in Hp. destruct Hp as [Hp | Hp]; [| auto].
      apply Hi1 in Hp. rewrite Hq2, length_app. lia.
  - lia.
Qed.

Lemma Extends_push (st : Pipeline) (f : Async) : Extends st (push st f).
Proof.
  constructor; simpl.
  - now exists [f].
  - exists []. rewrite app_nil_r, Nat.sub_diag. simpl. conjs; auto; intros ? [].
  - lia.
Qed.

Lemma Extends_invoke (st : Pipeline) (f : Async) :
  nth_error (queue st) (index st) = Some f ->
  Extends st {| queue := queue st; index := S (index st);
                trace := trace st ++ [Invoked (index st)] |}.
Proof.
  intros Hnth. constructor; cbn [queue index trace].
  - exists []. now rewrite app_nil_r.
  - exists [Invoked (index st)]. replace (S (index st) - index st) with 1 by lia.
    conjs; auto.
    + intros e [<- | []]. discriminate.
    + intros p [[=] | []].
    + intros p [[= <-] | []]. apply nth_error_Some. congruence.
  - lia.
Qed.

Lemma Extends_skip (st : Pipeline) :
  nth_error (queue st) (index st) = None ->
  Extends st {| queue := queue st; index := S (index st);
                trace := trace st ++ [Skipped (index st)] |}.
Proof.
  intros Hnth. constructor; cbn [queue index trace].
  - exists []. now rewrite app_nil_r.
  - exists [Skipped (index st)]. replace (S (index st) - index st) with 1 by lia.
    conjs; auto.
    + intros e [<- | []]. discriminate.
    + intros p [[= <-] | []]. now apply nth_error_None.
    + intros p [[=] | []].
  - lia.
Qed.

Lemma next_with_extends (run' : Async -> Pipeline -> option (Pipeline * Outcome))
    (callback : option Async) (st st' : Pipeline) (r : Outcome) :
  (forall f s s' y, run' f s = Some (s', y) -> Extends s s') ->
  next_with run' callback st = Some (st', r) -> Extends st st'.
Proof.
  intros Hrun. unfold next_with.
  set (st1 := match callback with Some f => push st (compose f) | None => st end).
  assert (H1 : Extends st st1).
  { unfold st1. destruct callback; [apply Extends_push | apply Extends_refl]. }
  destruct (match callback with Some _ => _ | None => false end).
  { intros [= <- <-]. exact H1. }
  destruct (nth_error (queue st1) (index st1)) as [f |] eqn:Hnth.
  - intros Hr. apply Hrun in Hr. eapply Extends_trans; [exact H1 |].
    eapply Extends_trans; [| exact Hr]. now apply (Extends_invoke st1 f).
  - intros [= <- <-]. eapply Extends_trans; [exact H1 |]. now apply Extends_skip.
Qed.

Lemma run_extends (fuel : nat) :
  forall f st st' r, run fuel f st = Some (st', r) -> Extends st st'.
Proof.
  induction fuel as [| fuel IH]; intros f st st' r; [discriminate |]. simpl.
  destruct f as [r0 | k | callback k].
  - intros [= <- <-]. apply Extends_refl.
  - destruct (next_with (run fuel) None st) as [[st1 r1] |] eqn:Hnext; [| discriminate].
    intros Hk. eapply Extends_trans.
    + eapply next_with_extends; [exact IH | exact Hnext].
    + eapply IH. exact Hk.
  - destruct (next_with (run fuel) (Some callback) st) as [[st1 r1] |] eqn:Hnext; [| discriminate].
    intros Hk. eapply Extends_trans.
    + eapply next_with_extends; [exact IH | exact Hnext].
    + eapply IH. exact Hk.
Qed.

Lemma argv_next_extends (fuel : nat) callback st st' r :
  argv_next fuel callback st = Some (st', r) -> Extends st st'.
Proof. apply next_with_extends. apply run_extends. Qed.

(** *** Enough fuel exists *)

(** The continuations behind the cursor. *)
Definition pending (st : Pipeline) : list Async := skipn (index st) (queue st).

Lemma skipn_nth_error {A : Type} (l : list A) (i : nat) (x : A) :
  nth_error l i = Some x -> skipn i l = x :: skipn (S i) l.
Proof.
  revert i. induction l as [| a l IH]; intros [| i]; simpl; try discriminate.
  - now intros [= ->].
  - intros H. now apply IH.
Qed.

Lemma skipn_nth_error_None {A : Type} (l : list A) (i : nat) :
  nth_error l i = None -> skipn i l = [] /\ skipn (S i) l = [].
Proof.
  intros H. apply nth_error_None in H. split; apply skipn_all2; lia.
Qed.

(** The callback that [next] queued, when it is still behind the cursor. *)
Definition queued (callback : option Async) (st : Pipeline) : list Async :=
  match callback with
  | Some f => skipn (index st - List.length (queue st)) [compose f]
  | None => []
  end.

Lemma queued_part (x : Async) (callback : option Async) (st : Pipeline) :
  (forall f, callback = Some f -> part f x) ->
  forall y, In y (queued callback st) -> part y x.
Proof.
  intros Hpart y. destruct callback as [f |]; simpl; [| tauto].
  intros Hy. assert (Heq : y = compose f).
  { destruct (index st - List.length (queue st)) as [| [| n]]; simpl in Hy;
      [destruct Hy as [Hy | []]; now symmetry | destruct Hy | destruct Hy]. }
  subst y. now apply Hpart.
Qed.

Definition runs_to_end (T : list Async) : Prop :=
  forall f st, Permutation T (f :: pending st) ->
  exists fuel st' r, run fuel f st = Some (st', r) /\ smaller (pending st') T.

(** A call of [next] from the body [x], when everything smaller than the
    work at hand runs to its end. *)
Lemma next_total (T : list Async) (x : Async) (callback : option Async) (st : Pipeline) :
  (forall T', smaller T' T -> runs_to_end T') ->
  Permutation T (x :: pending st) ->
  (forall f, callback = Some f -> part f x) ->
  exists fuel st' r,
    argv_next fuel callback st = Some (st', r)
    /\ (forall y, part y x -> smaller (y :: pending st') T).
Proof.
  intros IH HT Hcb. unfold argv_next, next_with.
  set (st1 := match callback with Some f => push st (compose f) | None => st end).
  assert (Hpending : pending st1 = pending st ++ queued callback st).
  { unfold st1, pending, queued. destruct callback as [f |]; simpl.
    - apply skipn_app.
    - now rewrite app_nil_r. }
  assert (Hextras := queued_part x callback st Hcb).
  assert (Hbelow : forall y, part y x -> smaller (y :: pending st1) T).
  { intros y Hy. rewrite Hpending.
    apply (smaller_perm ((y :: queued callback st) ++ pending st) _ (x :: pending st)).
    - simpl. apply perm_skip. apply Permutation_app_comm.
    - now symmetry.
    - apply smaller_parts. intros z [<- | Hz]; auto. }
  destruct (match callback with Some _ => _ | None => false end).
  { exists 0, st1, (JS.Throw depth_error). split; [reflexivity | exact Hbelow]. }
  destruct (nth_error (queue st1) (index st1)) as [q |] eqn:Hnth.
  - pose proof (skipn_nth_error _ _ _ Hnth) as Hskip. fold (pending st1) in Hskip.
    set (st2 := {| queue := queue st1; index := S (index st1);
                   trace := trace st1 ++ [Invoked (index st1)] |}).
    assert (Hsmaller : smaller (pending st1) T).
    { rewrite Hpending.
      apply (smaller_perm (queued callback st ++ pending st) _ (x :: pending st)).
      - apply Permutation_app_comm.
      - now symmetry.
      - now apply smaller_parts. }
    destruct (IH _ Hsmaller q st2) as (fuel & st' & r & Hrun & Hless).
    { rewrite Hskip. reflexivity. }
    exists fuel, st', r. split; [exact Hrun |].
    intros y Hy. eapply t_trans; [| apply (Hbelow y Hy)].
    now apply smaller_cons.
  - destruct (skipn_nth_error_None _ _ Hnth) as [Hnil1 Hnil2]. fold (pending st1) in Hnil1.
    exists 0. eexists. eexists. split; [reflexivity |].
    intros y Hy. specialize (Hbelow y Hy). rewrite Hnil1 in Hbelow.
    unfold pending. cbn [index queue]. now rewrite Hnil2.
Qed.

Lemma run_total_from (T : list Async) : runs_to_end T.
Proof.
  induction T as [T IH] using (well_founded_induction smaller_wf).
  intros f st HT.
  assert (Hstep : forall callback k,
            (forall r, part (k r) f) ->
            (forall g, callback = Some g -> part g f) ->
            exists fuel st' r,
              match next_with (run fuel) callback st with
              | Some (st1, r1) => run fuel (k r1) st1
              | None => None
              end = Some (st', r)
              /\ smaller (pending st') T).
  { intros callback k Hk Hcb.
    destruct (next_total T f callback st IH HT Hcb) as (fuel1 & st1 & r1 & Hnext & Hbelow).
    destruct (IH _ (Hbelow _ (Hk r1)) (k r1) st1 (Permutation_refl _))
      as (fuel2 & st' & r & Hrun & Hless).
    exists (Nat.max fuel1 fuel2), st', r. split.
    - fold (argv_next (Nat.max fuel1 fuel2) callback st).
      rewrite (argv_next_mono fuel1 (Nat.max fuel1 fuel2) _ _ _ (Nat.le_max_l _ _) Hnext).
      apply (run_mono fuel2); [apply Nat.le_max_r | exact Hrun].
    - eapply t_trans; [exact Hless |]. now apply Hbelow. }
  destruct f as [r0 | k | callback k].
  - exists 1, st, r0. split; [reflexivity |].
    apply (smaller_perm ([] ++ pending st) _ (Finish r0 :: pending st)); auto.
    + now symmetry.
    + apply smaller_parts. intros y [].
  - destruct (Hstep None k) as (fuel & st' & r & Hrun & Hless).
    + intros r. constructor.
    + discriminate.
    + exists (S fuel), st', r. split; [exact Hrun | exact Hless].
  - destruct (Hstep (Some callback) k) as (fuel & st' & r & Hrun & Hless).
    + intros r. constructor.
    + intros g [= <-]. constructor.
    + exists (S fuel), st', r. split; [exact Hrun | exact Hless].
Qed.

(** Every function body runs to its end, from every state of the pipeline:
    some amount of fuel is enough, and so is any larger amount. *)
Theorem run_total (f : Async) (st : Pipeline) :
  exists fuel st' r, forall fuel', fuel <= fuel' -> run fuel' f st = Some (st', r).
Proof.
  destruct (run_total_from (f :: pending st) f st (Permutation_refl _))
    as (fuel & st' & r & Hrun & _).
  exists fuel, st', r. intros fuel' Hle. now apply (run_mono fuel).
Qed.

Theorem argv_next_total (callback : option Async) (st : Pipeline) :
  exists fuel st' r, forall fuel', fuel <= fuel' -> argv_next fuel' callback st = Some (st', r).
Proof.
  destruct (run_total (match callback with
                       | Some f => NextWith f (fun r => Finish r)
                       | None => Next (fun r => Finish r)
                       end) st) as (fuel & st' & r & Hrun).
  specialize (Hrun (S fuel) (Nat.le_succ_diag_r _)).
  assert (Hnext : argv_next fuel callback st = Some (st', r)).
  { unfold argv_next. destruct callback as [f |]; simpl in Hrun.
    - destruct (next_with (run fuel) (Some f) st) as [[st1 r1] |]; [| discriminate].
      destruct fuel; [discriminate |]. simpl in Hrun. exact Hrun.
    - destruct (next_with (run fuel) None st) as [[st1 r1] |]; [| discriminate].
      destruct fuel; [discriminate |]. simpl in Hrun. exact Hrun. }
  exists fuel, st', r. intros fuel' Hle. now apply (argv_next_mono fuel).
Qed.

End Run.

End PipelineFacts.

(** ** The execution pipeline *)

Module ExecuteFacts.
Import Command Facts PipelineFacts.

Section Execute.
Context {host : Host}.

(** *** The checking phase *)


Lemma run_checkers_pass (checkers : list Checker) (argv : Argv) :
  Forall (passes argv) checkers ->
  run_checkers checkers argv = (checked checkers, None).
Proof.
  induction 1 as [| v rest Hv _ IH]; simpl; [reflexivity |].
  unfold passes in Hv. rewrite Hv, IH. reflexivity.
Qed.

Lemma run_checkers_stop (passed later : list Checker) (validator : Checker)
    (argv : Argv) (r : Outcome) :
  Forall (passes argv) passed ->
  check_body validator argv = r ->
  r <> JS.Return Nullish ->
  run_checkers (passed ++ validator :: later) argv
  = (checked (passed ++ [validator]), Some r).
Proof.
  intros Hpassed Hr Hne. induction Hpassed as [| v rest Hv _ IH]; simpl.
  - rewrite Hr. destruct r as [[| s] | e]; [congruence | reflexivity | reflexivity].
  - unfold passes in Hv. rewrite Hv, IH. reflexivity.
Qed.

(** The checkers are called in the order of the list, and the calls stop at
    the first one that does not return a nullable value. *)
Lemma run_checkers_prefix (checkers : list Checker) (argv : Argv) :
  exists called skipped,
    checkers = called ++ skipped
    /\ fst (run_checkers checkers argv) = checked called
    /\ Forall (passes argv) (removelast called)
    /\ (skipped <> [] -> exists last, called = removelast called ++ [last] /\ ~ passes argv last).
Proof.
  induction checkers as [| v rest (called & skipped & Hsplit & Htrace & Hpass & Hstop)]; simpl.
  - exists [], []. conjs; auto. congruence.
  - destruct (check_body v argv) as [[| s] | e] eqn:Hv; simpl.
    + exists (v :: called), skipped. destruct (run_checkers rest argv) as [events r].
      simpl in *. subst events. conjs.
      * now rewrite Hsplit.
      * reflexivity.
      * destruct called; simpl; [constructor | constructor; assumption].
      * intros Hs. destruct (Hstop Hs) as (last & Hlast & Hfail). exists last.
        split; [| assumption]. destruct called; [destruct (removelast []); discriminate |].
        simpl. simpl in Hlast. now rewrite <- Hlast.
    + exists [v], rest. conjs; auto. intros _. exists v. split; [reflexivity |].
      unfold passes. congruence.
    + exists [v], rest. conjs; auto. intros _. exists v. split; [reflexivity |].
      unfold passes. congruence.
Qed.

Lemma checkers_before_each (c : Command) (additions : list (Checker * bool)) :
  _checkers (before_each c additions)
  = rev (List.map fst (List.filter (fun a => negb (snd a)) additions))
    ++ _checkers c
    ++ List.map fst (List.filter (fun a => snd a) additions).
Proof.
  revert c. induction additions as [| [callback append] rest IH]; intros c.
  - simpl. now rewrite app_nil_r.
  - change (before_each c ((callback, append) :: rest))
      with (before_each (before c callback append) rest).
    rewrite IH. destruct append; simpl.
    + now rewrite <- app_assoc.
    + now rewrite <- app_assoc.
Qed.


(** *** Every execution ends *)

Theorem execute_total (c : Command) (argv : Argv) (fallback : Async) :
  exists fuel out, forall fuel', fuel <= fuel' -> execute fuel' c argv fallback = Some out.
Proof.
  unfold execute. destruct (truthy_error argv); [now exists 0; eauto |].
  destruct (run_checkers (_checkers c) argv) as [events [r |]]; [now exists 0; eauto |].
  destruct (_actions c) as [| a actions] eqn:Hactions; [now exists 0; eauto |].
  destruct (argv_next_total None (start c argv fallback events)) as (fuel & st & r & Hnext).
  exists fuel. eexists. intros fuel' Hle. cbv zeta. rewrite (Hnext fuel' Hle). reflexivity.
Qed.

(** *** The cursor and the events *)

Lemma positions_checked (checkers : list Checker) : positions (checked checkers) = [].
Proof. induction checkers; simpl; auto. Qed.

Lemma run_checkers_events (checkers : list Checker) (argv : Argv) :
  exists called, fst (run_checkers checkers argv) = checked called.
Proof.
  destruct (run_checkers_prefix checkers argv) as (called & _ & _ & H & _). eauto.
Qed.

Lemma seq_last (k n : nat) (before : list nat) : seq 0 k = before ++ [n] -> k = S n.
Proof.
  destruct k as [| k]; [destruct before; discriminate |].
  rewrite seq_S. intros H. apply app_inj_tail in H. destruct H as [_ H]. simpl in H. now subst.
Qed.

(** After the first call of [next]: the queue begins with the actions and
    the fallback; the cursor events name the positions from 0 up to the
    cursor, in order; no position of the original queue was skipped. *)
Lemma cursor_facts (c : Command) (argv : Argv) (fallback : Async) (fuel : nat)
    (st : Pipeline) (r : Outcome) :
  argv_next fuel None (start c argv fallback (fst (run_checkers (_checkers c) argv)))
  = Some (st, r) ->
  (exists appended,
      queue st = List.map (fun a => action_body a argv) (_actions c) ++ [fallback] ++ appended)
  /\ (exists moves, trace st = fst (run_checkers (_checkers c) argv) ++ moves
                    /\ forall e, In e moves -> position e <> None)
  /\ positions (trace st) = seq 0 (index st)
  /\ (forall p, In (Skipped p) (trace st) -> S (List.length (_actions c)) <= p).
Proof.
  intros Hnext. apply argv_next_extends in Hnext.
  destruct Hnext as [[appended Hq] (moves & Ht & Hp & Hc & Hs & _) _].
  destruct (run_checkers_events (_checkers c) argv) as [called Hcalled].
  simpl in *. rewrite Hcalled in *. conjs.
  - exists appended. now rewrite Hq, <- app_assoc.
  - exists moves. auto.
  - rewrite Ht, positions_app, positions_checked, Hp. simpl. now rewrite Nat.sub_0_r.
  - intros p Hin. rewrite Ht in Hin. apply in_app_or in Hin. destruct Hin as [Hin | Hin].
    + unfold checked in Hin. apply in_map_iff in Hin. destruct Hin as (v & [=] & _).
    + apply Hs in Hin. rewrite length_app, length_map in Hin. simpl in Hin. lia.
Qed.

(** Where the cursor stands when the first call of [next] has ended, told
    from the events. *)
Lemma cursor_boundary (c : Command) (argv : Argv) (fallback : Async) (fuel : nat)
    (st : Pipeline) (r : Outcome) :
  argv_next fuel None (start c argv fallback (fst (run_checkers (_checkers c) argv)))
  = Some (st, r) ->
  let n := List.length (_actions c) in
  ((forall p, In (Invoked p) (trace st) -> p < n) -> index st <= n)
  /\ (last_cursor (trace st) = Some (Invoked n) -> index st = S n)
  /\ (forall p, In (Invoked p) (trace st) \/ In (Skipped p) (trace st) -> p < index st).
Proof.
  intros Hnext. destruct (cursor_facts _ _ _ _ _ _ Hnext) as (_ & _ & Hpos & Hskip).
  cbv zeta. conjs.
  - intros Hstatic. destruct (Nat.le_gt_cases (index st) (List.length (_actions c))) as [| Hgt];
      [assumption | exfalso].
    assert (Hin : In (List.length (_actions c)) (positions (trace st))).
    { rewrite Hpos. apply in_seq. lia. }
    apply In_positions in Hin. destruct Hin as [Hin | Hin].
    + apply Hstatic in Hin. lia.
    + apply Hskip in Hin. lia.
  - intros Hlast. apply last_cursor_position in Hlast.
    destruct Hlast as (p & before & [= <-] & Hbefore).
    rewrite Hpos in Hbefore. now apply seq_last in Hbefore.
  - intros p Hin. apply In_positions in Hin. rewrite Hpos in Hin. apply in_seq in Hin. lia.
Qed.

Lemma last_cursor_In (events : list Event) (e : Event) :
  last_cursor events = Some e -> In e events.
Proof.
  induction events as [| x rest IH]; simpl; [discriminate |].
  destruct (last_cursor rest) as [e' |].
  - intros [= <-]. right. now apply IH.
  - destruct (position x); [| discriminate]. intros [= <-]. now left.
Qed.

Lemma last_cursor_of_positions (events : list Event) (before : list nat) (n : nat) :
  positions events = before ++ [n] ->
  exists e, last_cursor events = Some e /\ position e = Some n.
Proof.
  revert before. induction events as [| x rest IH]; intros before; simpl.
  - destruct before; discriminate.
  - destruct (position x) as [p |] eqn:Hx.
    + destruct (positions rest) as [| q qs] eqn:Hrest.
      * intros H. destruct before as [| b before]; [| destruct before; discriminate].
        injection H as ->.
        assert (Hnone : last_cursor rest = None).
        { clear - Hrest. induction rest as [| y rest IH]; simpl in *; [reflexivity |].
          destruct (position y); [discriminate |]. now rewrite IH. }
        rewrite Hnone. eauto.
      * intros H. destruct before as [| b before]; [destruct qs; discriminate |].
        injection H as _ H. destruct (IH before H) as (e & -> & He). eauto.
    + intros H. destruct (IH before H) as (e & -> & He). eauto.
Qed.

(** The three places where the cursor can stand when the first call of
    [next] has ended: within the actions, and then only actions were called;
    just after the fallback, which was then the last continuation that
    [next] reached; or further, and then [next] went on past the
    fallback. *)
Lemma cursor_cases (c : Command) (argv : Argv) (fallback : Async) (fuel : nat)
    (st : Pipeline) (r : Outcome) :
  argv_next fuel None (start c argv fallback (fst (run_checkers (_checkers c) argv)))
  = Some (st, r) ->
  let n := List.length (_actions c) in
  (index st <= n /\ forall p, In (Invoked p) (trace st) -> p < n)
  \/ (index st = S n /\ last_cursor (trace st) = Some (Invoked n))
  \/ (S n < index st /\ (In (Invoked (S n)) (trace st) \/ In (Skipped (S n)) (trace st))).
Proof.
  intros Hnext. destruct (cursor_facts _ _ _ _ _ _ Hnext) as (_ & _ & Hpos & Hskip).
  destruct (cursor_boundary _ _ _ _ _ _ Hnext) as (_ & _ & Hbelow).
  cbv zeta. set (n := List.length (_actions c)) in *.
  destruct (Nat.lt_trichotomy (index st) (S n)) as [Hlt | [Heq | Hgt]].
  - left. split; [lia |]. intros p Hp. specialize (Hbelow p (or_introl Hp)). lia.
  - right. left. split; [exact Heq |].
    rewrite Heq, seq_S in Hpos. simpl in Hpos.
    destruct (last_cursor_of_positions _ _ _ Hpos) as (e & Hlast & He).
    rewrite Hlast. pose proof (last_cursor_In _ _ Hlast) as Hin.
    destruct e; try discriminate; injection He as ->; [reflexivity |].
    apply Hskip in Hin. lia.
  - right. right. split; [exact Hgt |]. apply In_positions. rewrite Hpos. apply in_seq. lia.
Qed.

(** The events of an execution: those of the checkers, and then no other
    call of a checker. *)
Lemma execute_events (c : Command) (argv : Argv) (fallback : Async) (fuel : nat)
    (events : list Event) (r : Outcome) :
  truthy_error argv = None ->
  execute fuel c argv fallback = Some (events, r) ->
  exists rest, events = fst (run_checkers (_checkers c) argv) ++ rest
               /\ forall ref, ~ In (Checked ref) rest.
Proof.
  intros Herr. unfold execute. rewrite Herr.
  destruct (run_checkers (_checkers c) argv) as [events0 [r0 |]] eqn:Hcheck.
  { intros [= <- <-]. exists []. rewrite app_nil_r. auto. }
  destruct (_actions c) as [| a actions] eqn:Ha.
  { intros [= <- <-]. exists []. rewrite app_nil_r. auto. }
  cbv zeta.
  destruct (argv_next fuel None (start c argv fallback events0)) as [[st r1] |] eqn:Hnext;
    [| discriminate].
  replace events0 with (fst (run_checkers (_checkers c) argv)) in Hnext by now rewrite Hcheck.
  destruct (cursor_facts _ _ _ _ _ _ Hnext) as (_ & (moves & Ht & Hmoves) & _ & _).
  rewrite Hcheck in Ht. simpl in Ht.
  assert (Hno : forall ref, ~ In (Checked ref) moves).
  { intros ref Hin. apply Hmoves in Hin. now apply Hin. }
  unfold settle, recover. simpl fst.
  destruct r1 as [result | error].
  - destruct (isNullable result); intros [= <- <-]; exists moves; auto.
  - destruct (Nat.eqb _ _); [intros [= <- <-]; exists moves; auto |].
    assert (Hno' : forall ref, ~ In (Checked ref) (moves ++ [Warned error; Emitted error])).
    { intros ref Hin. apply in_app_or in Hin. destruct Hin as [Hin | [[=] | [[=] | []]]].
      now apply (Hno ref). }
    destruct error as [path param | message].
    + intros [= <- <-]. exists moves. auto.
    + rewrite Ht, <- app_assoc.
      destruct (handleError c) as [[|] | h]; [| | destruct (h _ argv) as [[| text] |]];
        intros [= <- <-]; eexists; split; try reflexivity; exact Hno'.
Qed.

Lemma length_start (c : Command) (argv : Argv) (fallback : Async) (events : list Event) :
  List.length (queue (start c argv fallback events)) = S (List.length (_actions c)).
Proof. simpl. rewrite length_app, length_map. simpl. lia. Qed.

(** [execute] once the checkers have passed and there are actions. *)
Lemma execute_acting (c : Command) (argv : Argv) (fallback : Async) (fuel : nat)
    (events : list Event) (st : Pipeline) (r : Outcome) :
  truthy_error argv = None ->
  run_checkers (_checkers c) argv = (events, None) ->
  _actions c <> [] ->
  argv_next fuel None (start c argv fallback events) = Some (st, r) ->
  forall fuel', fuel <= fuel' ->
    execute fuel' c argv fallback
    = Some (settle c argv (S (List.length (_actions c))) st r).
Proof.
  intros Herr Hcheck Hactions Hnext fuel' Hle. unfold execute.
  rewrite Herr, Hcheck. destruct (_actions c) as [| a actions] eqn:Ha; [congruence |].
  cbv zeta. rewrite (argv_next_mono fuel fuel' _ _ _ Hle Hnext).
  rewrite length_start, Ha. reflexivity.
Qed.

(** *** Where an error that escapes is caught *)

(** An error escaped from the first call of [next]: [execute] throws it
    again when the cursor stands just after the fallback, and otherwise
    goes through its [catch] block. *)
Lemma escape_boundary (c : Command) (argv : Argv) (fallback : Async) (fuel : nat)
    (events : list Event) (st : Pipeline) (error : Error) :
  truthy_error argv = None ->
  run_checkers (_checkers c) argv = (events, None) ->
  _actions c <> [] ->
  argv_next fuel None (start c argv fallback events) = Some (st, JS.Throw error) ->
  forall fuel', fuel <= fuel' ->
    (index st = S (List.length (_actions c))
     /\ last_cursor (trace st) = Some (Invoked (List.length (_actions c)))
     /\ execute fuel' c argv fallback = Some (trace st, JS.Throw error))
    \/ (index st <> S (List.length (_actions c))
        /\ last_cursor (trace st) <> Some (Invoked (List.length (_actions c)))
        /\ execute fuel' c argv fallback = Some (recover c argv (trace st) error)).
Proof.
  intros Herr Hcheck Hactions Hnext fuel' Hle.
  rewrite (execute_acting c argv fallback fuel events st _ Herr Hcheck Hactions Hnext fuel' Hle).
  replace events with (fst (run_checkers (_checkers c) argv)) in Hnext by now rewrite Hcheck.
  pose proof (cursor_cases _ _ _ _ _ _ Hnext) as Hcases.
  destruct (cursor_boundary _ _ _ _ _ _ Hnext) as (_ & Hlast & _).
  cbv zeta in Hcases, Hlast. unfold settle.
  destruct (Nat.eqb (index st) (S (List.length (_actions c)))) eqn:Hi.
  - apply Nat.eqb_eq in Hi. left. conjs; auto.
    destruct Hcases as [[H _] | [[_ H] | [H _]]]; [lia | exact H | lia].
  - apply Nat.eqb_neq in Hi. right. conjs; auto.
Qed.

Lemma recover_converted (c : Command) (argv : Argv) (events : list Event) (error : Error) :
  snd (recover c argv events error) = converted c argv error
  /\ exists logged, fst (recover c argv events error) = events ++ logged
                    /\ (logged = [] \/ logged = [Warned error; Emitted error]).
Proof.
  unfold recover, converted. destruct error as [path param | message].
  - split; [reflexivity |]. exists []. rewrite app_nil_r. auto.
  - destruct (handleError c) as [[|] | h]; [| | destruct (h _ argv) as [[| t] | e]];
      (split; [reflexivity | eexists; split; [reflexivity | auto]]).
Qed.

(** An error escaped from the first call of [next], which ended in the
    state [st]: what [execute] does with it, told from the events. *)
Lemma error_boundary_at (c : Command) (argv : Argv) (fallback : Async)
    (fuel : nat) (events : list Event) (st : Pipeline) (error : Error) :
  truthy_error argv = None ->
  run_checkers (_checkers c) argv = (events, None) ->
  _actions c <> [] ->
  argv_next fuel None (start c argv fallback events) = Some (st, JS.Throw error) ->
  let n := List.length (_actions c) in
  let only_actions := forall p, In (Invoked p) (trace st) -> p < n in
  let fallback_last := last_cursor (trace st) = Some (Invoked n) in
  let past_fallback := exists p, n < p /\ (In (Invoked p) (trace st) \/ In (Skipped p) (trace st)) in
  (exists appended,
      queue st = List.map (fun a => action_body a argv) (_actions c) ++ [fallback] ++ appended)
  /\ (only_actions \/ fallback_last \/ past_fallback)
  /\ forall fuel', fuel <= fuel' ->
       (only_actions \/ past_fallback ->
          exists logged,
            execute fuel' c argv fallback = Some (trace st ++ logged, converted c argv error)
            /\ (logged = [] \/ logged = [Warned error; Emitted error]))
       /\ (fallback_last ->
             execute fuel' c argv fallback = Some (trace st, JS.Throw error)).
Proof.
  intros Herr Hcheck Hactions Hnext. cbv zeta.
  pose proof (escape_boundary c argv fallback fuel events st error Herr Hcheck Hactions Hnext)
    as Hescape.
  replace events with (fst (run_checkers (_checkers c) argv)) in Hnext by now rewrite Hcheck.
  destruct (cursor_facts _ _ _ _ _ _ Hnext) as (Hqueue & _ & _ & _).
  pose proof (cursor_cases _ _ _ _ _ _ Hnext) as Hcases.
  destruct (cursor_boundary _ _ _ _ _ _ Hnext) as (Hstatic & Hlast & Hbelow).
  cbv zeta in Hcases, Hstatic, Hlast.
  conjs.
  - exact Hqueue.
  - destruct Hcases as [[_ H] | [[_ H] | [_ H]]]; auto.
    right. right. exists (S (List.length (_actions c))). split; [lia | exact H].
  - intros fuel' Hle. split.
    + intros Hwhere.
      assert (Hi : index st <> S (List.length (_actions c))).
      { destruct Hwhere as [H | (p & Hp & H)].
        - apply Hstatic in H. lia.
        - apply Hbelow in H. lia. }
      destruct (Hescape fuel' Hle) as [(H & _) | (_ & _ & Hout)]; [contradiction |].
      destruct (recover_converted c argv (trace st) error) as (Hsnd & logged & Hfst & Hlogged).
      exists logged. split; [| exact Hlogged].
      rewrite Hout, <- Hfst, <- Hsnd. now destruct (recover c argv (trace st) error).
    + intros Hwhere. destruct (Hescape fuel' Hle) as [(_ & _ & Hout) | (_ & H & _)];
        [exact Hout | contradiction].
Qed.

(** The depth guard of [next], and what [execute] does when the depth error
    escaped from the first call of [next], which ended in the state [st]. *)
Lemma depth_error_at (c : Command) (argv : Argv)
    (fallback : Async) (fuel : nat) (events : list Event) (st : Pipeline) :
  truthy_error argv = None ->
  run_checkers (_checkers c) argv = (events, None) ->
  _actions c <> [] ->
  argv_next fuel None (start c argv fallback events) = Some (st, JS.Throw depth_error) ->
  let n := List.length (_actions c) in
  (forall run' callback s,
      MAX_DEPTH < S (List.length (queue s)) ->
      next_with run' (Some callback) s = Some (push s (compose callback), JS.Throw depth_error))
  /\ (forall run' callback s,
        S (List.length (queue s)) <= MAX_DEPTH ->
        next_with run' (Some callback) s = next_with run' None (push s (compose callback)))
  /\ (forall fuel0 callback k s,
        MAX_DEPTH < S (List.length (queue s)) ->
        run (S fuel0) (NextWith callback k) s
        = run fuel0 (k (JS.Throw depth_error)) (push s (compose callback)))
  /\ forall fuel', fuel <= fuel' ->
       (last_cursor (trace st) = Some (Invoked n)
        /\ execute fuel' c argv fallback = Some (trace st, JS.Throw depth_error))
       \/ (last_cursor (trace st) <> Some (Invoked n)
           /\ execute fuel' c argv fallback
              = Some (trace st ++ [Warned depth_error; Emitted depth_error],
                      converted c argv depth_error)
           /\ (handleError c = Flag true ->
               converted c argv depth_error
               = JS.Return (Text (text argv "internal.error-encountered" [])))).
Proof.
  intros Herr Hcheck Hactions Hnext. cbv zeta.
  assert (Hguard : forall run' callback s,
      MAX_DEPTH < S (List.length (queue s)) ->
      next_with run' (Some callback) s = Some (push s (compose callback), JS.Throw depth_error)).
  { intros run' callback s Hlen. unfold next_with. simpl queue.
    rewrite length_app. simpl List.length.
    replace (Nat.ltb MAX_DEPTH (List.length (queue s) + 1)) with true; [reflexivity |].
    symmetry. apply Nat.ltb_lt. lia. }
  conjs.
  - exact Hguard.
  - intros run' callback s Hlen. unfold next_with. simpl queue.
    rewrite length_app. simpl List.length.
    replace (Nat.ltb MAX_DEPTH (List.length (queue s) + 1)) with false; [reflexivity |].
    symmetry. apply Nat.ltb_ge. lia.
  - intros fuel0 callback k s Hlen. simpl. now rewrite Hguard.
  - intros fuel' Hle.
    destruct (escape_boundary c argv fallback fuel events st depth_error
                Herr Hcheck Hactions Hnext fuel' Hle) as [(_ & Hlast & Hout) | (_ & Hlast & Hout)].
    + left. auto.
    + right. conjs; auto.
      * rewrite Hout. unfold recover, converted, depth_error.
        destruct (handleError c) as [[|] | h]; [reflexivity | reflexivity |].
        destruct (h _ argv) as [[| t] | e]; reflexivity.
      * intros Hflag. unfold converted, depth_error. now rewrite Hflag.
Qed.

(** C2, as the code has it: once the checkers have passed and there are
    actions, the first call of [next] ends, for enough fuel.  When it ends
    with an error, what [execute] does with the error depends on where the
    cursor stands, and on nothing else.  If only actions were called, the
    error is caught and turned into a result by the kind of error and the
    policy.  If the fallback was the last continuation that [next] reached,
    the error is thrown again, whatever the policy.  If [next] went on past
    the fallback, to a continuation added by [next(callback)] or past the end
    of the queue, the error is caught and turned into a result like the
    error of an action.  One of the three is the case. *)
Theorem error_boundary_follows_cursor (c : Command) (argv : Argv) (fallback : Async)
    (events : list Event) :
  truthy_error argv = None ->
  run_checkers (_checkers c) argv = (events, None) ->
  _actions c <> [] ->
  let n := List.length (_actions c) in
  exists fuel st r,
    (forall fuel', fuel <= fuel' ->
       argv_next fuel' None (start c argv fallback events) = Some (st, r))
    /\ (exists appended,
          queue st = List.map (fun a => action_body a argv) (_actions c)
                     ++ [fallback] ++ appended)
    /\ forall error, r = JS.Throw error ->
       let only_actions := forall p, In (Invoked p) (trace st) -> p < n in
       let fallback_last := last_cursor (trace st) = Some (Invoked n) in
       let past_fallback :=
         exists p, n < p /\ (In (Invoked p) (trace st) \/ In (Skipped p) (trace st)) in
       (only_actions \/ fallback_last \/ past_fallback)
       /\ forall fuel', fuel <= fuel' ->
            (only_actions \/ past_fallback ->
               exists logged,
                 execute fuel' c argv fallback
                 = Some (trace st ++ logged, converted c argv error)
                 /\ (logged = [] \/ logged = [Warned error; Emitted error]))
            /\ (fallback_last ->
                  execute fuel' c argv fallback = Some (trace st, JS.Throw error)).
Proof.
  intros Herr Hcheck Hactions. cbv zeta.
  destruct (argv_next_total None (start c argv fallback events)) as (fuel & st & r & Hnext).
  exists fuel, st, r. split; [exact Hnext |].
  pose proof (Hnext fuel (Nat.le_refl _)) as Hfuel. split.
  - replace events with (fst (run_checkers (_checkers c) argv)) in Hfuel by now rewrite Hcheck.
    now destruct (cursor_facts _ _ _ _ _ _ Hfuel) as (Hqueue & _).
  - intros error ->.
    destruct (error_boundary_at c argv fallback fuel events st error Herr Hcheck Hactions Hfuel)
      as (_ & Hcases & Hout).
    split; [exact Hcases | exact Hout].
Qed.

(** C3, as the code has it: when [next(callback)] makes the queue longer
    than the maximum, it throws the depth error right after queuing the
    callback, having called no continuation and not having moved the
    cursor; otherwise it goes on like [next()].  The error is thrown inside
    the function body that called [next].  Once the checkers have passed and
    there are actions, the first call of [next] ends, for enough fuel; when
    it ends with the depth error, [execute] treats it like any other error
    that is not a session error: thrown again only if the fallback was the
    last continuation that [next] reached, and otherwise logged and turned
    into a result by the policy, the generic message under the default
    policy. *)
Theorem depth_error_thrown_early_then_handled_by_policy (c : Command) (argv : Argv)
    (fallback : Async) (events : list Event) :
  truthy_error argv = None ->
  run_checkers (_checkers c) argv = (events, None) ->
  _actions c <> [] ->
  let n := List.length (_actions c) in
  (forall run' callback s,
      MAX_DEPTH < S (List.length (queue s)) ->
      next_with run' (Some callback) s = Some (push s (compose callback), JS.Throw depth_error))
  /\ (forall run' callback s,
        S (List.length (queue s)) <= MAX_DEPTH ->
        next_with run' (Some callback) s = next_with run' None (push s (compose callback)))
  /\ (forall fuel0 callback k s,
        MAX_DEPTH < S (List.length (queue s)) ->
        run (S fuel0) (NextWith callback k) s
        = run fuel0 (k (JS.Throw depth_error)) (push s (compose callback)))
  /\ exists fuel st r,
       (forall fuel', fuel <= fuel' ->
          argv_next fuel' None (start c argv fallback events) = Some (st, r))
       /\ (r = JS.Throw depth_error ->
           forall fuel', fuel <= fuel' ->
             (last_cursor (trace st) = Some (Invoked n)
              /\ execute fuel' c argv fallback = Some (trace st, JS.Throw depth_error))
             \/ (last_cursor (trace st) <> Some (Invoked n)
                 /\ execute fuel' c argv fallback
                    = Some (trace st ++ [Warned depth_error; Emitted depth_error],
                            converted c argv depth_error)
                 /\ (handleError c = Flag true ->
                     converted c argv depth_error
                     = JS.Return (Text (text argv "internal.error-encountered" []))))).
Proof.
  intros Herr Hcheck Hactions. cbv zeta.
  destruct (argv_next_total None (start c argv fallback events)) as (fuel & st & r & Hnext).
  pose proof (Hnext fuel (Nat.le_refl _)) as Hfuel.
  assert (Hguard : forall run' callback s,
      MAX_DEPTH < S (List.length (queue s)) ->
      next_with run' (Some callback) s = Some (push s (compose callback), JS.Throw depth_error)).
  { intros run' callback s Hlen. unfold next_with. simpl queue.
    rewrite length_app. simpl List.length.
    replace (Nat.ltb MAX_DEPTH (List.length (queue s) + 1)) with true; [reflexivity |].
    symmetry. apply Nat.ltb_lt. lia. }
  conjs.
  - exact Hguard.
  - intros run' callback s Hlen. unfold next_with. simpl queue.
    rewrite length_app. simpl List.length.
    replace (Nat.ltb MAX_DEPTH (List.length (queue s) + 1)) with false; [reflexivity |].
    symmetry. apply Nat.ltb_ge. lia.
  - intros fuel0 callback k s Hlen. simpl. now rewrite Hguard.
  - exists fuel, st, r. split; [exact Hnext |]. intros ->.
    exact (proj2 (proj2 (proj2 (depth_error_at c argv fallback fuel events st
                                  Herr Hcheck Hactions Hfuel)))).
Qed.

(** *** The checking phase and the empty action list *)

(** C7: on an [argv] without a parser error, when a checker returns a value
    that is not nullable, the checkers before it having returned nullable
    values, [execute] returns that value;
    the only calls made are those of the checkers up to that one: no later
    checker, no action and no fallback is called, and [next] is not called
    at all, whatever the fuel. *)
Theorem nonnullable_checker_ends_execution (c : Command) (argv : Argv) (fallback : Async)
    (fuel : nat) (passed later : list Checker) (validator : Checker) (value : string) :
  truthy_error argv = None ->
  _checkers c = passed ++ validator :: later ->
  Forall (passes argv) passed ->
  check_body validator argv = JS.Return (Text value) ->
  execute fuel c argv fallback
  = Some (checked (passed ++ [validator]), JS.Return (Text value)).
Proof.
  intros Herr Hcheckers Hpassed Hvalue. unfold execute. rewrite Herr, Hcheckers.
  rewrite (run_checkers_stop passed later validator argv (JS.Return (Text value)));
    auto. discriminate.
Qed.

(** C10: on an [argv] without a parser error, with no action, and every
    checker returning a nullable value, [execute] returns the empty string;
    the only calls made are those of the
    checkers: the queue is not built and the fallback is not called,
    whatever the fuel and whatever the fallback. *)
Theorem no_action_returns_empty_without_fallback (c : Command) (argv : Argv)
    (fallback : Async) (fuel : nat) :
  truthy_error argv = None ->
  _actions c = [] ->
  Forall (passes argv) (_checkers c) ->
  execute fuel c argv fallback = Some (checked (_checkers c), JS.Return (Text "")).
Proof.
  intros Herr Hactions Hpass. unfold execute.
  rewrite Herr, (run_checkers_pass _ _ Hpass), Hactions. reflexivity.
Qed.

(** C6, as the code has it: the checkers are called strictly in the order
    of the checker list, up to the first that does not return a nullable
    value, and no checker is called after that.  [before] and [check] in the
    default mode put the callback at the front of the list: on a new
    command the callbacks added in the default mode come first, the latest
    added first, then the framework's checker, then the callbacks added with
    [append], in the order they were added. *)
Theorem checkers_run_in_list_order_default_prepends :
  (forall (c : Command) (argv : Argv) (fallback : Async),
      truthy_error argv = None ->
      exists fuel events r called skipped rest,
        (forall fuel', fuel <= fuel' -> execute fuel' c argv fallback = Some (events, r))
        /\ _checkers c = called ++ skipped
        /\ events = checked called ++ rest
        /\ (forall ref, ~ In (Checked ref) rest)
        /\ Forall (passes argv) (removelast called)
        /\ (skipped <> [] ->
            exists last, called = removelast called ++ [last] /\ ~ passes argv last))
  /\ (forall (c : Command) (callback : Checker),
        _checkers (before c callback false) = callback :: _checkers c
        /\ _checkers (check c callback false) = callback :: _checkers c
        /\ _checkers (before c callback true) = _checkers c ++ [callback])
  /\ (forall (ident : nat) (name : string) (additions : list (Checker * bool)),
        _checkers (before_each (fresh ident name) additions)
        = rev (List.map fst (List.filter (fun a => negb (snd a)) additions))
          ++ [default_checker]
          ++ List.map fst (List.filter (fun a => snd a) additions)).
Proof.
  conjs.
  - intros c argv fallback Herr.
    destruct (execute_total c argv fallback) as (fuel & [events r] & Hexec).
    destruct (execute_events c argv fallback fuel events r Herr (Hexec fuel (Nat.le_refl _)))
      as (rest & Hevents & Hrest).
    destruct (run_checkers_prefix (_checkers c) argv)
      as (called & skipped & Hsplit & Htrace & Hpass & Hstop).
    exists fuel, events, r, called, skipped, rest. rewrite <- Htrace. conjs; auto.
  - intros c callback. conjs; reflexivity.
  - intros ident name additions. apply checkers_before_each.
Qed.

End Execute.

(** *** Examples *)

#[local] Existing Instance example_host.

(** C7 at a command whose first checker answers with a text. *)
Lemma nonnullable_checker_witness :
  truthy_error example_argv = None
  /\ _checkers (before (echo nothing) denying false)
     = [] ++ denying :: [default_checker (host := example_host)]
  /\ Forall (passes example_argv) []
  /\ check_body denying example_argv = JS.Return (Text "denied")
  /\ execute (host := example_host) 0 (before (echo nothing) denying false)
             example_argv forward
     = Some ([Checked 8], JS.Return (Text "denied")).
Proof.
  split; [reflexivity |]. split; [reflexivity |]. split; [constructor |].
  split; [reflexivity |].
  exact (nonnullable_checker_ends_execution (host := example_host)
           (before (echo nothing) denying false) example_argv forward 0
           [] [default_checker (host := example_host)] denying "denied"
           eq_refl eq_refl (Forall_nil _) eq_refl).
Defined.

(** C10 at a new command, with a fallback that would throw. *)
Lemma no_action_witness :
  truthy_error example_argv = None
  /\ _actions (fresh (host := example_host) 1 "echo") = []
  /\ Forall (passes example_argv) (_checkers (fresh (host := example_host) 1 "echo"))
  /\ execute (host := example_host) 0 (fresh 1 "echo") example_argv
             (raise (OtherError "fallback"))
     = Some ([Checked 0], JS.Return (Text "")).
Proof.
  assert (Hpass : Forall (passes example_argv) (_checkers (fresh (host := example_host) 1 "echo"))).
  { repeat constructor. }
  split; [reflexivity |]. split; [reflexivity |]. split; [exact Hpass |].
  exact (no_action_returns_empty_without_fallback (host := example_host)
           (fresh 1 "echo") example_argv (raise (OtherError "fallback")) 0
           eq_refl eq_refl Hpass).
Defined.

(** C6, as the spec states it, fails: a checker added in the default mode
    (reference 7) is called before the framework's checker (reference 0). *)
Lemma default_mode_checker_runs_first :
  execute (host := example_host) 0 (before (fresh 1 "echo") lenient false)
          example_argv nothing
  = Some ([Checked 7; Checked 0], JS.Return (Text "")).
Proof. reflexivity. Qed.

(** C2 at an action that throws, with a fallback that calls [next]. *)
Lemma error_boundary_witness :
  truthy_error example_argv = None
  /\ run_checkers (_checkers (echo (raise (OtherError "fail")))) example_argv
     = ([Checked 0], None)
  /\ _actions (echo (raise (OtherError "fail"))) <> []
  /\ exists fuel st r,
       (forall fuel', fuel <= fuel' ->
          argv_next fuel' None
            (start (echo (raise (OtherError "fail"))) example_argv forward [Checked 0])
          = Some (st, r))
       /\ exists appended, queue st = [raise (OtherError "fail"); forward] ++ appended.
Proof.
  assert (Hactions : _actions (echo (raise (OtherError "fail"))) <> []) by discriminate.
  split; [reflexivity |]. split; [reflexivity |]. split; [exact Hactions |].
  destruct (error_boundary_follows_cursor
              (echo (raise (OtherError "fail"))) example_argv forward [Checked 0]
              eq_refl eq_refl Hactions) as (fuel & st & r & Hnext & Hqueue & _).
  exists fuel, st, r. split; [exact Hnext | exact Hqueue].
Defined.

(** The same execution, computed: the error of the action is turned into
    the generic message. *)
Lemma action_error_is_converted :
  execute 2 (echo (raise (OtherError "fail"))) example_argv forward
  = Some ([Checked 0; Invoked 0; Warned (OtherError "fail"); Emitted (OtherError "fail")],
          JS.Return (Text "internal.error-encountered")).
Proof. reflexivity. Qed.

(** A fallback that throws at once: its error is thrown again. *)
Lemma fallback_error_is_thrown_again :
  execute 4 (echo forward) example_argv (raise (OtherError "outside"))
  = Some ([Checked 0; Invoked 0; Invoked 1], JS.Throw (OtherError "outside")).
Proof. reflexivity. Qed.

(** C2, as the spec states it, fails.  An action calls [next(callback)] and
    the callback throws: the error of the added continuation is turned into
    the generic message, not thrown.  A fallback calls [next()] and then
    throws: its error is turned into the generic message as well. *)
Lemma added_continuation_error_is_absorbed :
  execute (host := example_host) 6
          (echo (forward_with (raise (OtherError "boom")))) example_argv forward
  = Some ([Checked 0; Invoked 0; Invoked 1; Invoked 2;
           Warned (OtherError "boom"); Emitted (OtherError "boom")],
          JS.Return (Text "internal.error-encountered"))
  /\ execute (host := example_host) 6
             (echo forward) example_argv (forward_then_raise (OtherError "late"))
     = Some ([Checked 0; Invoked 0; Invoked 1; Skipped 2;
              Warned (OtherError "late"); Emitted (OtherError "late")],
             JS.Return (Text "internal.error-encountered")).
Proof. split; reflexivity. Qed.

(** C3 at an action whose callbacks keep queuing callbacks, with the maximum
    depth 64. *)
Lemma depth_error_witness :
  truthy_error example_argv = None
  /\ run_checkers (_checkers (echo (runaway 100))) example_argv = ([Checked 0], None)
  /\ _actions (echo (runaway 100)) <> []
  /\ exists fuel st r,
       forall fuel', fuel <= fuel' ->
         argv_next fuel' None (start (echo (runaway 100)) example_argv forward [Checked 0])
         = Some (st, r).
Proof.
  assert (Hactions : _actions (echo (runaway 100)) <> []) by discriminate.
  split; [reflexivity |]. split; [reflexivity |]. split; [exact Hactions |].
  destruct (proj2 (proj2 (proj2 (depth_error_thrown_early_then_handled_by_policy
              (echo (runaway 100)) example_argv forward [Checked 0]
              eq_refl eq_refl Hactions)))) as (fuel & st & r & Hnext & _).
  exists fuel, st, r. exact Hnext.
Defined.

(** C3, as the spec states it, fails: with the maximum depth 64 and the
    default policy, the depth error of the runaway callbacks does not reach
    the caller of [execute]; the result is the generic message. *)
Lemma depth_error_is_absorbed :
  option_map snd
    (execute (host := example_host) 300 (echo (runaway 100)) example_argv forward)
  = Some (JS.Return (Text "internal.error-encountered"))
  /\ In (Warned (depth_error (host := example_host)))
        (match execute (host := example_host) 300 (echo (runaway 100)) example_argv forward with
         | Some (events, _) => events
         | None => []
         end).
Proof. split; vm_compute; [reflexivity | tauto]. Qed.

End ExecuteFacts.


(** ** Links of the permission graph *)

Module LinkFacts.
Import Permission Facts GraphFacts.

Section Maps.
Context {V : Type}.
Implicit Types (m : StrMap.t V) (k : string) (v : V).

Lemma set_same m k v : StrMap.get m k = Some v -> StrMap.set m k v = m.
Proof.
  induction m as [| [k' v'] rest IH]; simpl; [discriminate |].
  destruct (String.eqb k' k) eqn:E.
  - now intros [= ->].
  - intros H. now rewrite IH.
Qed.

Lemma set_set m k v v' : StrMap.set (StrMap.set m k v) k v' = StrMap.set m k v'.
Proof.
  induction m as [| [k0 v0] rest IH]; simpl.
  - now rewrite String.eqb_refl.
  - destruct (String.eqb k0 k) eqn:E; simpl; rewrite E; [reflexivity | now rewrite IH].
Qed.

Lemma In_set m k v k' v' :
  In (k', v') m -> In (k', v') (StrMap.set m k v) \/ (k' = k /\ StrMap.get m k = Some v').
Proof.
  induction m as [| [k0 v0] rest IH]; simpl; [tauto |].
  intros [Hin | Hin].
  - injection Hin as -> ->. destruct (String.eqb k' k) eqn:E.
    + apply String.eqb_eq in E. now right.
    + left. now left.
  - destruct (String.eqb k0 k) eqn:E.
    + left. now right.
    + destruct (IH Hin) as [H | H]; [left; now right | now right].
Qed.

Lemma set_In m k v : In (k, v) (StrMap.set m k v).
Proof.
  induction m as [| [k0 v0] rest IH]; simpl; [now left |].
  destruct (String.eqb k0 k) eqn:E.
  - apply String.eqb_eq in E. subst. now left.
  - now right.
Qed.

Lemma In_set_inv m k v k' v' :
  In (k', v') (StrMap.set m k v) -> In (k', v') m \/ (k' = k /\ v' = v).
Proof.
  induction m as [| [k0 v0] rest IH]; simpl.
  - intros [[= <- <-] | []]. now right.
  - destruct (String.eqb k0 k) eqn:E.
    + apply String.eqb_eq in E. subst k0. intros [[= <- <-] | Hin]; [now right | left; now right].
    + intros [Hin | Hin]; [left; now left |].
      destruct (IH Hin) as [H | H]; [left; now right | now right].
Qed.

End Maps.

Section Links.
Context {numbers : JS.Numbers}.
Implicit Types (store : Store) (session : Session) (map : Edges).

Lemma link_eq store source target condition :
  link store source target condition
  = StrMap.set store source
      (StrMap.set (edges_of store source) target
         (conditions_of store source target ++ [condition])).
Proof.
  unfold link, edges_of, conditions_of, edge.
  destruct (StrMap.has store source) eqn:Hs.
  - unfold StrMap.has in Hs.
    destruct (StrMap.get store source) as [map |] eqn:Hmap; [| discriminate].
    destruct (StrMap.has map target) eqn:Ht.
    + unfold StrMap.has in Ht.
      destruct (StrMap.get map target) as [conditions |] eqn:Hc; [| discriminate].
      reflexivity.
    + rewrite (has_get _ _ Ht), get_set_eq. now rewrite set_set.
  - rewrite (has_get _ _ Hs), get_set_eq. cbv beta iota.
    change (StrMap.has (@nil (string * list Computed)) target) with false. cbv iota.
    rewrite get_set_eq. now rewrite !set_set.
Qed.

Lemma edge_set store source map s t :
  edge (StrMap.set store source map) s t
  = if String.eqb source s then StrMap.get map t else edge store s t.
Proof.
  unfold edge. destruct (String.eqb source s) eqn:E.
  - apply String.eqb_eq in E. subst s. now rewrite get_set_eq.
  - apply String.eqb_neq in E. now rewrite get_set_ne.
Qed.

Lemma edge_link_other store source target condition s t :
  (s, t) <> (source, target) ->
  edge (link store source target condition) s t = edge store s t.
Proof.
  intros Hne. rewrite link_eq, edge_set.
  destruct (String.eqb source s) eqn:E; [| reflexivity].
  apply String.eqb_eq in E. subst s.
  assert (Ht : target <> t) by congruence.
  rewrite get_set_ne by assumption.
  unfold edges_of, edge. now destruct (StrMap.get store source).
Qed.

Lemma edge_unlink_other store source target condition s t :
  (s, t) <> (source, target) ->
  edge (unlink store source target condition) s t = edge store s t.
Proof.
  intros Hne. unfold unlink.
  destruct (StrMap.get store source) as [map |] eqn:Hmap; [| reflexivity].
  destruct (StrMap.get map target) as [conditions |] eqn:Hget; [| reflexivity].
  rewrite edge_set. destruct (String.eqb source s) eqn:E; [| reflexivity].
  apply String.eqb_eq in E. subst s.
  assert (Ht : target <> t) by congruence.
  rewrite get_set_ne by assumption. unfold edge. now rewrite Hmap.
Qed.

(** X2: [link] appends the condition to the list of the edge it names, which
    it creates when there is none, and [unlink] drops the first occurrence
    of the condition from that list; neither changes the conditions of any
    other edge. *)
Theorem link_unlink_change_one_edge store source target condition :
  edge (link store source target condition) source target
  = Some (conditions_of store source target ++ [condition])
  /\ edge (unlink store source target condition) source target
     = option_map (fun conditions => remove conditions condition) (edge store source target)
  /\ (forall s t, (s, t) <> (source, target) ->
        edge (link store source target condition) s t = edge store s t
        /\ edge (unlink store source target condition) s t = edge store s t).
Proof.
  conjs.
  - rewrite edge_link. unfold conditions_of. now destruct (edge store source target).
  - apply edge_unlink.
  - intros s t Hne. split; [now apply edge_link_other | now apply edge_unlink_other].
Qed.

Lemma remove_absent (conditions : list Computed) (condition : Computed) :
  (forall x, In x conditions -> same x condition = false) ->
  remove conditions condition = conditions.
Proof.
  induction conditions as [| x rest IH]; simpl; [reflexivity |].
  intros H. rewrite (H x) by now left. f_equal. apply IH. intros y Hy. apply H. now right.
Qed.

(** X3: [unlink] leaves the store as it is when the edge does not exist, and
    when none of its conditions is the given one. *)
Theorem unlink_absent_changes_nothing store source target condition :
  (forall conditions, edge store source target = Some conditions ->
     forall x, In x conditions -> same x condition = false) ->
  unlink store source target condition = store.
Proof.
  intros H. unfold unlink. unfold edge in H.
  destruct (StrMap.get store source) as [map |] eqn:Hmap; [| reflexivity].
  destruct (StrMap.get map target) as [conditions |] eqn:Hget; [| reflexivity].
  rewrite (remove_absent conditions condition (H _ eq_refl)).
  rewrite (set_same map target conditions Hget). now apply set_same.
Qed.

(** *** The loop of [subgraph], one iteration at a time *)

Lemma subgraph_loop_unfold store session queue result :
  subgraph_loop store session queue result
  = match queue with
    | [] => result
    | node :: rest =>
        if JS.truthy node
        then if JS.includes result node
             then subgraph_loop store session rest result
             else subgraph_loop store session (expand store session node rest) (result ++ [node])
        else result
    end.
Proof.
  funelim (subgraph_loop store session queue result).
  - reflexivity.
  - now rewrite Heq.
  - rewrite Heq, Hseen. reflexivity.
  - rewrite Heq, Hnew. unfold expand. rewrite Hmap. reflexivity.
  - rewrite Heq, Hnew. unfold expand. rewrite Hnone. reflexivity.
Qed.

(** Stores whose nodes expand alike give the same traversal. *)
Lemma subgraph_loop_ext store1 store2 session queue result :
  (forall node rest, expand store1 session node rest = expand store2 session node rest) ->
  subgraph_loop store1 session queue result = subgraph_loop store2 session queue result.
Proof.
  intros Hext. funelim (subgraph_loop store1 session queue result);
    rewrite (subgraph_loop_unfold store2).
  - reflexivity.
  - now rewrite Heq.
  - rewrite Heq, Hseen. now apply H.
  - rewrite Heq, Hnew, <- Hext. unfold expand. rewrite Hmap. now apply H.
  - rewrite Heq, Hnew, <- Hext. unfold expand. rewrite Hnone. now apply H.
Qed.

End Links.

(** [unlink] with a condition that the edge does not have: the edge from
    ["a"] to ["b"] has the condition [true], and [false] is unlinked. *)
Lemma unlink_absent_witness :
  let store := link (numbers := JS.level_numbers) [] "a" "b" (Static true) in
  (forall conditions, edge store "a" "b" = Some conditions ->
     forall x, In x conditions -> same x (Static false) = false)
  /\ unlink store "a" "b" (Static false) = store.
Proof.
  cbv zeta.
  assert (H : forall conditions,
            edge (link (numbers := JS.level_numbers) [] "a" "b" (Static true)) "a" "b"
            = Some conditions ->
            forall x, In x conditions -> same x (Static false) = false).
  { intros conditions Hc. rewrite edge_link in Hc. injection Hc as <-.
    intros x [<- | []]. reflexivity. }
  split; [exact H |].
  exact (unlink_absent_changes_nothing _ "a" "b" (Static false) H).
Defined.

End LinkFacts.

(** ** Traversals *)

Module TraversalFacts.
Import Permission Facts GraphFacts ResolverFacts LinkFacts.

Section Traversal.
Context {numbers : JS.Numbers}.
Implicit Types (store : Store) (session : Session) (map : Edges).

(** What the loop does on every graph: the nodes given in [result] stay in
    front; the nodes it adds are not empty, were not in [result], are
    pairwise different, and are reachable from the queue along followed
    edges. *)
Lemma subgraph_loop_adds store session queue result :
  exists added,
    subgraph_loop store session queue result = result ++ added
    /\ NoDup added
    /\ (forall n, In n added ->
          n <> "" /\ ~ In n result /\ reachable store session queue n).
Proof.
  funelim (subgraph_loop store session queue result).
  - exists []. rewrite app_nil_r. conjs; [reflexivity | constructor | intros n []].
  - exists []. rewrite app_nil_r. conjs; [reflexivity | constructor | intros n []].
  - destruct H as (added & Heq' & Hnd & Hadded). exists added. conjs; auto.
    intros n Hn. destruct (Hadded n Hn) as (Ha1 & Ha2 & Ha3). conjs; auto.
    eapply reachable_starts; [| exact Ha3]. intros s Hs. apply reach_start. now right.
  - destruct H as (added & Heq' & Hnd & Hadded).
    pose proof (proj1 (includes_false _ _) Hnew) as Hfresh.
    pose proof (proj1 (truthy_nonempty _) Heq) as Hnode.
    exists (node :: added). conjs.
    + rewrite Heq', <- app_assoc. reflexivity.
    + constructor; [| exact Hnd]. intros Hin. destruct (Hadded _ Hin) as (_ & Ha2 & _).
      apply Ha2, in_or_app. right. now left.
    + intros n [<- | Hn].
      * conjs; auto. apply reach_start. now left.
      * destruct (Hadded n Hn) as (Ha1 & Ha2 & Ha3). conjs; auto.
        -- intros Hin. apply Ha2, in_or_app. now left.
        -- eapply reachable_starts; [| exact Ha3]. intros s Hs.
           rewrite visit_edges_app in Hs. apply in_app_or in Hs. destruct Hs as [Hs | Hs].
           ++ apply reach_start. now right.
           ++ eapply reach_step; [apply reach_start; now left |].
              eapply step_targets; eassumption.
  - destruct H as (added & Heq' & Hnd & Hadded).
    pose proof (proj1 (includes_false _ _) Hnew) as Hfresh.
    pose proof (proj1 (truthy_nonempty _) Heq) as Hnode.
    exists (node :: added). conjs.
    + rewrite Heq', <- app_assoc. reflexivity.
    + constructor; [| exact Hnd]. intros Hin. destruct (Hadded _ Hin) as (_ & Ha2 & _).
      apply Ha2, in_or_app. right. now left.
    + intros n [<- | Hn].
      * conjs; auto. apply reach_start. now left.
      * destruct (Hadded n Hn) as (Ha1 & Ha2 & Ha3). conjs; auto.
        -- intros Hin. apply Ha2, in_or_app. now left.
        -- eapply reachable_starts; [| exact Ha3]. intros s Hs. apply reach_start. now right.
Qed.

(** X4: On every graph, cyclic or not, [subgraph] keeps the nodes passed in
    [result] in front and adds each node at most once; no added node is the
    empty string, none was in [result], and each is reachable from the start
    nodes along followed edges.  With the default [result] the set holds a
    non-empty start node whenever it is the first of the start nodes. *)
Theorem subgraph_adds_reachable_nodes_once store session parents result :
  (exists added,
     subgraph store parents session result = result ++ added
     /\ NoDup added
     /\ (forall n, In n added ->
           n <> "" /\ ~ In n result /\ reachable store session parents n))
  /\ (NoDup result -> NoDup (subgraph store parents session result))
  /\ (forall first rest, parents = first :: rest -> first <> "" ->
        In first (subgraph store parents session [])).
Proof.
  unfold subgraph.
  destruct (subgraph_loop_adds store session parents result) as (added & Heq & Hnd & Hadded).
  conjs.
  - exists added. auto.
  - intros Hres. rewrite Heq. apply NoDup_app; auto.
    intros n Hn Hn'. destruct (Hadded n Hn') as (_ & H & _). contradiction.
  - intros first rest -> Hfirst. rewrite subgraph_loop_unfold.
    apply truthy_nonempty in Hfirst. rewrite Hfirst. simpl.
    destruct (subgraph_loop_adds store session (expand store session first rest) [first])
      as (added' & -> & _). now left.
Qed.

(** *** [link] and then [unlink] *)

Lemma same_refl (c : Computed) : same c c = true.
Proof. destruct c; simpl; [apply Bool.eqb_reflx | apply Nat.eqb_refl]. Qed.

Lemma remove_appended session conditions condition :
  coherent session conditions condition ->
  spec_traversable session (remove (conditions ++ [condition]) condition)
  = spec_traversable session conditions.
Proof.
  unfold spec_traversable. induction conditions as [| x rest IH]; intros Hco; simpl.
  - now rewrite same_refl.
  - destruct (same x condition) eqn:E.
    + rewrite existsb_app. simpl. rewrite orb_false_r.
      rewrite (Hco x (or_introl eq_refl) E). apply orb_comm.
    + simpl. rewrite IH; [reflexivity |]. intros y Hy. apply Hco. now right.
Qed.

Lemma visit_edges_set session map target conditions queue :
  spec_traversable session conditions
  = spec_traversable session
      (match StrMap.get map target with Some old => old | None => [] end) ->
  visit_edges session (StrMap.set map target conditions) queue
  = visit_edges session map queue.
Proof.
  revert queue. induction map as [| [k old] rest IH]; intros queue H; simpl in *.
  - rewrite every_false_spec, H. reflexivity.
  - destruct (String.eqb k target) eqn:E; simpl.
    + now rewrite !every_false_spec, H.
    + destruct (every_false session old); now apply IH.
Qed.

Lemma unlink_link_eq store source target condition :
  unlink (link store source target condition) source target condition
  = StrMap.set store source
      (StrMap.set (edges_of store source) target
         (remove (conditions_of store source target ++ [condition]) condition)).
Proof.
  rewrite link_eq. unfold unlink. rewrite get_set_eq, get_set_eq.
  now rewrite !set_set.
Qed.

Lemma expand_unlink_link store session source target condition node queue :
  coherent session (conditions_of store source target) condition ->
  expand (unlink (link store source target condition) source target condition)
         session node queue
  = expand store session node queue.
Proof.
  intros Hco. rewrite unlink_link_eq. unfold expand.
  destruct (String.eqb source node) eqn:E.
  - apply String.eqb_eq in E. subst node. rewrite get_set_eq.
    rewrite visit_edges_set.
    + unfold edges_of. now destruct (StrMap.get store source).
    + rewrite (remove_appended _ _ _ Hco). unfold conditions_of, edge, edges_of.
      destruct (StrMap.get store source); reflexivity.
  - apply String.eqb_neq in E. now rewrite get_set_ne.
Qed.

Lemma subgraph_unlink_link store session source target condition parents result :
  coherent session (conditions_of store source target) condition ->
  subgraph (unlink (link store source target condition) source target condition)
           parents session result
  = subgraph store parents session result.
Proof.
  intros Hco. unfold subgraph. apply subgraph_loop_ext.
  intros node rest. now apply expand_unlink_link.
Qed.

(** X5: Adding a condition to an edge and removing it again gives every
    traversal back as it was, for a session in which the conditions of the
    edge that are the same object as the added one resolve alike.  The store
    itself need not be as before: the edge may stay, without a condition,
    and the list may have lost an earlier occurrence instead of the added
    one. *)
Theorem link_then_unlink_restores_subgraph
    store session source target condition parents result :
  coherent session (conditions_of store source target) condition ->
  subgraph (unlink (link store source target condition) source target condition)
           parents session result
  = subgraph store parents session result.
Proof. apply subgraph_unlink_link. Qed.

(** *** [link] only widens *)

Lemma step_link store session source target condition a b :
  step store session a b -> step (link store source target condition) session a b.
Proof.
  unfold step, traversed. rewrite link_eq.
  destruct (StrMap.get store a) as [map |] eqn:Hmap; [| discriminate].
  intros H. apply includes_In, In_visit_edges in H. destruct H as (conditions & Hin & Ht).
  destruct (String.eqb source a) eqn:E.
  - apply String.eqb_eq in E. subst a. rewrite get_set_eq.
    apply includes_In, In_visit_edges. unfold edges_of, conditions_of, edge. rewrite Hmap.
    destruct (In_set map target
                (match StrMap.get map target with Some l => l | None => [] end ++ [condition])
                b conditions Hin) as [H | [-> Hget]].
    + exists conditions. auto.
    + rewrite Hget. exists (conditions ++ [condition]). split; [apply set_In |].
      unfold spec_traversable in *. rewrite existsb_app, Ht. reflexivity.
  - apply String.eqb_neq in E. rewrite get_set_ne by assumption. rewrite Hmap.
    apply includes_In, In_visit_edges. eauto.
Qed.

Lemma truthy_targets_link store source target condition :
  truthy_targets store -> target <> "" ->
  truthy_targets (link store source target condition).
Proof.
  intros Hstore Htarget s map t conditions. rewrite link_eq.
  destruct (String.eqb source s) eqn:E.
  - apply String.eqb_eq in E. subst s. rewrite get_set_eq. intros [= <-] Hin.
    apply In_set_inv in Hin. destruct Hin as [Hin | [-> _]].
    + unfold edges_of in Hin. destruct (StrMap.get store source) as [m |] eqn:Hm; [| destruct Hin].
      eapply Hstore; eassumption.
    + now apply truthy_nonempty.
  - apply String.eqb_neq in E. rewrite get_set_ne by assumption. apply Hstore.
Qed.

Lemma subgraph_link_incl store session source target condition parents :
  truthy_targets store ->
  target <> "" ->
  Forall (fun n => JS.truthy n = true) parents ->
  incl (subgraph store parents session [])
       (subgraph (link store source target condition) parents session []).
Proof.
  intros Hstore Htarget Hparents n Hn.
  destruct (subgraph_loop_spec store session parents [] Hstore Hparents)
    as (_ & _ & _ & _ & Hsound); [intros ? ? [] |].
  destruct (subgraph_loop_spec (link store source target condition) session parents []
              (truthy_targets_link _ _ _ _ Hstore Htarget) Hparents)
    as (_ & Hqueue & Hclosed & _ & _); [intros ? ? [] |].
  cbv zeta in *. unfold subgraph in *.
  destruct (Hsound n Hn) as [[] | Hr]. clear Hn.
  induction Hr as [m Hm | a b _ IH Hstep].
  - now apply Hqueue.
  - eapply Hclosed; [exact IH | apply step_link; exact Hstep].
Qed.

(** X6: On a graph without the empty string as a node, a new link never takes a
    node out of a traversal: what [subgraph] returned before, it returns
    afterwards too, whatever the condition of the link. *)
Theorem link_only_widens_subgraph store session source target condition parents :
  truthy_targets store ->
  target <> "" ->
  Forall (fun n => JS.truthy n = true) parents ->
  incl (subgraph store parents session [])
       (subgraph (link store source target condition) parents session []).
Proof. apply subgraph_link_incl. Qed.

Lemma truthy_targets_nil : truthy_targets [].
Proof. intros s map t conditions. discriminate. Qed.

End Traversal.

(** The traversal of a cycle between ["a"] and ["b"]. *)
Lemma subgraph_reachable_witness :
  let store := link (numbers := JS.level_numbers)
                 (link [] "a" "b" (Static true)) "b" "a" (Static true) in
  truthy_targets store
  /\ Forall (fun n => JS.truthy n = true) ["a"]
  /\ NoDup (subgraph store ["a"] anonymous []).
Proof.
  cbv zeta.
  assert (Ht : truthy_targets (link (numbers := JS.level_numbers)
                 (link [] "a" "b" (Static true)) "b" "a" (Static true))).
  { apply truthy_targets_link; [| discriminate].
    apply truthy_targets_link; [apply truthy_targets_nil | discriminate]. }
  assert (Hp : Forall (fun n => JS.truthy n = true) ["a"]) by (repeat constructor).
  split; [exact Ht |]. split; [exact Hp |].
  pose proof (subgraph_reachable _ anonymous ["a"] Ht Hp) as H. cbv zeta in H.
  exact (proj1 H).
Defined.

(** The condition [true] is added a second time to the edge from ["a"] to
    ["b"] and removed again. *)
Lemma link_then_unlink_witness :
  let store := link (numbers := JS.level_numbers) [] "a" "b" (Static true) in
  coherent anonymous (conditions_of store "a" "b") (Static true)
  /\ subgraph (unlink (link store "a" "b" (Static true)) "a" "b" (Static true))
              ["a"] anonymous []
     = subgraph store ["a"] anonymous [].
Proof.
  cbv zeta.
  assert (H : coherent anonymous
                (conditions_of (link (numbers := JS.level_numbers) [] "a" "b" (Static true))
                               "a" "b")
                (Static true)).
  { intros x Hx _. unfold conditions_of in Hx. rewrite edge_link in Hx.
    destruct Hx as [<- | []]. reflexivity. }
  split; [exact H |].
  exact (link_then_unlink_restores_subgraph _ anonymous "a" "b" (Static true) ["a"] [] H).
Defined.

(** A link from ["b"] to ["c"] is added to the graph with the edge from
    ["a"] to ["b"]. *)
Lemma link_only_widens_witness :
  let store := link (numbers := JS.level_numbers) [] "a" "b" (Static true) in
  truthy_targets store
  /\ "c" <> ""
  /\ Forall (fun n => JS.truthy n = true) ["a"]
  /\ incl (subgraph store ["a"] anonymous [])
          (subgraph (link store "b" "c" (Static true)) ["a"] anonymous []).
Proof.
  cbv zeta.
  assert (Ht : truthy_targets (link (numbers := JS.level_numbers) [] "a" "b" (Static true))).
  { apply truthy_targets_link; [apply truthy_targets_nil | discriminate]. }
  assert (Hc : "c" <> "") by discriminate.
  assert (Hp : Forall (fun n => JS.truthy n = true) ["a"]) by (repeat constructor).
  split; [exact Ht |]. split; [exact Hc |]. split; [exact Hp |].
  exact (link_only_widens_subgraph _ anonymous "b" "c" (Static true) ["a"] Ht Hc Hp).
Defined.

End TraversalFacts.

(** ** The edge rule of the traversal *)

Module EdgeFacts.
Import Permission Facts GraphFacts ResolverFacts LinkFacts TraversalFacts.

Section Edge.
Context {numbers : JS.Numbers}.
Implicit Types (store : Store) (session : Session) (map : Edges).










End Edge.


End EdgeFacts.

(** ** What [test] decides *)

Module TestFacts.
Import Permission Facts GraphFacts ResolverFacts LinkFacts TraversalFacts.

Section Tests.
Context {numbers : JS.Numbers}.
Implicit Types (p : Permissions) (session : Session) (cache : Cache).

Lemma check_allows p session name :
  snd (check p name session) = JS.Return (allows p session name).
Proof.
  unfold allows. destruct (check_returns name session p) as [b ->]. reflexivity.
Qed.

Lemma check_parents_spec p session parents :
  forall cache, cached p session cache ->
    snd (check_parents p session cache parents)
    = List.map (fun parent => snd (check p parent session)) parents
    /\ cached p session (fst (check_parents p session cache parents)).
Proof.
  induction parents as [| parent rest IH]; intros cache Hcache; simpl.
  - auto.
  - destruct (StrMap.get cache parent) as [promise |] eqn:Hget.
    + destruct (IH cache Hcache) as [H1 H2].
      destruct (check_parents p session cache rest) as [cache' results]. simpl in *.
      split; [| assumption]. now rewrite (Hcache _ _ Hget), H1.
    + assert (Hcache' : cached p session
                (StrMap.set cache parent (snd (check p parent session)))).
      { intros k v. destruct (String.eqb parent k) eqn:E.
        - apply String.eqb_eq in E. subst k. rewrite get_set_eq. now intros [= <-].
        - apply String.eqb_neq in E. rewrite get_set_ne by assumption. apply Hcache. }
      destruct (IH _ Hcache') as [H1 H2].
      destruct (check_parents p session _ rest) as [cache' results]. simpl in *.
      split; [| assumption]. now rewrite H1.
Qed.

Lemma await_all_checks p session parents :
  await_all (List.map (fun parent => snd (check p parent session)) parents)
  = JS.Return (List.map (allows p session) parents).
Proof.
  induction parents as [| parent rest IH]; simpl; [reflexivity |].
  now rewrite check_allows, IH.
Qed.

Lemma existsb_orb {A : Type} (f g : A -> bool) (l : list A) :
  existsb (fun a => f a || g a) l = existsb f l || existsb g l.
Proof.
  induction l as [| a l IH]; simpl; [reflexivity |]. rewrite IH.
  destruct (f a), (g a), (existsb f l), (existsb g l); reflexivity.
Qed.

Lemma existsb_map_id {A : Type} (f : A -> bool) (l : list A) :
  existsb (fun result => result) (List.map f l) = existsb f l.
Proof. induction l as [| a l IH]; simpl; [reflexivity | now rewrite IH]. Qed.

Lemma test_loop_spec p x session names :
  forall cache, cached p session cache ->
    test_loop p x session cache names = JS.Return (forallb (satisfied p x session) names).
Proof.
  induction names as [| name rest IH]; intros cache Hcache; simpl; [reflexivity |].
  unfold satisfied at 1. rewrite existsb_orb.
  destruct (existsb (fun parent => JS.includes x parent) _) eqn:Hheld; simpl.
  - now apply IH.
  - destruct (check_parents_spec p session (subgraph (inherits p) [name] session []) cache Hcache)
      as [Hresults Hcache'].
    destruct (check_parents p session cache _) as [cache' promises]. simpl in *.
    rewrite Hresults, await_all_checks, existsb_map_id.
    destruct (existsb (allows p session) _); simpl; [now apply IH | reflexivity].
Qed.

Lemma test_spec p x y session :
  test p x y session
  = JS.Return (forallb (satisfied p x session) (subgraph (depends p) y session [])).
Proof. unfold test. apply test_loop_spec. intros k v. discriminate. Qed.

Lemma satisfied_iff p x session name :
  satisfied p x session name = true <->
  exists parent, In parent (subgraph (inherits p) [name] session [])
                 /\ (In parent x \/ snd (check p parent session) = JS.Return true).
Proof.
  unfold satisfied. rewrite existsb_exists. split.
  - intros (parent & Hin & H). exists parent. split; [assumption |].
    apply orb_prop in H. destruct H as [H | H].
    + left. now apply includes_In.
    + right. rewrite check_allows. now rewrite H.
  - intros (parent & Hin & [H | H]); exists parent; (split; [assumption |]).
    + apply includes_In in H. now rewrite H.
    + rewrite check_allows in H. injection H as ->. apply orb_true_r.
Qed.

Lemma test_true_iff p x y session :
  test p x y session = JS.Return true <->
  forall name, In name (subgraph (depends p) y session []) ->
    exists parent, In parent (subgraph (inherits p) [name] session [])
                   /\ (In parent x \/ snd (check p parent session) = JS.Return true).
Proof.
  rewrite test_spec. split.
  - intros [= H] name Hin. rewrite forallb_forall in H. now apply satisfied_iff, H.
  - intros H. f_equal. apply forallb_forall. intros name Hin. now apply satisfied_iff, H.
Qed.

(** X7: for a session that resolves the conditions of the edges, [test]
    returns [true] exactly when every name of the dependency closure of [y]
    has, in its inherit closure, a name that is held or that [check] grants.
    The cache and the order of the names do not show in this; a provider
    that throws grants nothing. *)
Theorem test_true_iff_every_dependency_granted p x y session :
  test p x y session = JS.Return true <->
  forall name, In name (subgraph (depends p) y session []) ->
    exists parent, In parent (subgraph (inherits p) [name] session [])
                   /\ (In parent x \/ snd (check p parent session) = JS.Return true).
Proof. apply test_true_iff. Qed.

(** X8: Holding more names never makes a passing test fail. *)
Theorem test_monotone_in_held_names p x x' y session :
  incl x x' ->
  test p x y session = JS.Return true ->
  test p x' y session = JS.Return true.
Proof.
  intros Hincl. rewrite !test_true_iff. intros H name Hin.
  destruct (H name Hin) as (parent & Hp & [Hheld | Hgranted]); exists parent; auto.
Qed.




(** *** What [test] reads *)

Lemma check_providers p p' name session :
  providers p = providers p' -> check p name session = check p' name session.
Proof. intros H. unfold check, check_try, matching. now rewrite H. Qed.

Lemma test_ext p p' x y session :
  providers p = providers p' ->
  (forall parents, subgraph (inherits p) parents session []
                   = subgraph (inherits p') parents session []) ->
  (forall parents, subgraph (depends p) parents session []
                   = subgraph (depends p') parents session []) ->
  test p x y session = test p' x y session.
Proof.
  intros Hproviders Hinherits Hdepends. rewrite !test_spec, Hdepends. f_equal.
  assert (Hsame : forall name, satisfied p x session name = satisfied p' x session name).
  { intros name. unfold satisfied. rewrite Hinherits.
    induction (subgraph (inherits p') [name] session []) as [| parent rest IH];
      simpl; [reflexivity |].
    rewrite IH. unfold allows.
    now rewrite (check_providers p p' parent session Hproviders). }
  induction (subgraph (depends p') y session []) as [| name rest IH]; simpl; [reflexivity |].
  now rewrite Hsame, IH.
Qed.

(** X10: After [inherit] and then its disposer, and after [depend] and then its
    disposer, every test gives what it gave before, for a session in which
    the conditions of the edge that are the same object as the added one
    resolve alike. *)
Theorem inherit_or_depend_then_dispose_restores_test
    p child parent condition x y session :
  coherent session (conditions_of (inherits p) parent child) condition ->
  coherent session (conditions_of (depends p) parent child) condition ->
  test (inherit_dispose (inherit p child parent condition) child parent condition) x y session
  = test p x y session
  /\ test (depend_dispose (depend p parent child condition) parent child condition) x y session
     = test p x y session.
Proof.
  intros Hinherits Hdepends. split; apply test_ext; simpl; try reflexivity.
  - intros parents. now apply subgraph_unlink_link.
  - intros parents. now apply subgraph_unlink_link.
Qed.

End Tests.

(** In the scenario of the short-circuit property, the test for
    ["cmd.foo"] passes with ["authority.3"] held, and with ["cmd.bar"] held
    as well. *)
Lemma test_monotone_witness :
  incl ["authority.3"] ["authority.3"; "cmd.bar"]
  /\ test granted ["authority.3"] ["cmd.foo"] anonymous = JS.Return true
  /\ test granted ["authority.3"; "cmd.bar"] ["cmd.foo"] anonymous = JS.Return true.
Proof.
  assert (Hi : incl ["authority.3"] ["authority.3"; "cmd.bar"]).
  { intros x [<- | []]. now left. }
  assert (Ht : test granted ["authority.3"] ["cmd.foo"] anonymous = JS.Return true)
    by (vm_compute; reflexivity).
  split; [exact Hi |]. split; [exact Ht |].
  exact (test_monotone_in_held_names granted _ _ ["cmd.foo"] anonymous Hi Ht).
Defined.


(** On a new resolver, ["cmd.foo"] inherits from ["authority.3"] and the
    disposer runs. *)
Lemma inherit_then_dispose_witness :
  coherent anonymous (conditions_of (inherits create) "authority.3" "cmd.foo") (Static true)
  /\ coherent anonymous (conditions_of (depends create) "authority.3" "cmd.foo") (Static true)
  /\ test (inherit_dispose (inherit create "cmd.foo" "authority.3" (Static true))
                           "cmd.foo" "authority.3" (Static true))
          [] ["cmd.foo"] anonymous
     = test create [] ["cmd.foo"] anonymous.
Proof.
  assert (H1 : coherent anonymous (conditions_of (inherits create) "authority.3" "cmd.foo")
                 (Static true)) by (intros x []).
  assert (H2 : coherent anonymous (conditions_of (depends create) "authority.3" "cmd.foo")
                 (Static true)) by (intros x []).
  split; [exact H1 |]. split; [exact H2 |].
  exact (proj1 (inherit_or_depend_then_dispose_restores_test
                  create "cmd.foo" "authority.3" (Static true) [] ["cmd.foo"] anonymous H1 H2)).
Defined.

End TestFacts.

(** ** Providers *)

Module ProviderFacts.
Import Permission Facts GraphFacts ResolverFacts LinkFacts TraversalFacts TestFacts.

(** *** The entries of a dictionary *)

Section Entries.
Context {V : Type}.
Implicit Types (o : Dict.t V) (k : string) (v : V).

Lemma In_insert_sorted (n : N) (e : string * V) (l : list (N * (string * V))) x :
  In x (Dict.insert_sorted n e l) <-> x = (n, e) \/ In x l.
Proof.
  induction l as [| [m e'] rest IH]; simpl.
  - split; intros [H | H]; auto.
  - destruct (n <=? m)%N; simpl.
    + split; intros [H | H]; auto.
    + rewrite IH. split; intros H; intuition auto.
Qed.

Lemma In_index_entries o (n : N) k v :
  In (n, (k, v)) (Dict.index_entries o) <-> In (k, v) o /\ Dict.array_index k = Some n.
Proof.
  induction o as [| [k' v'] rest IH]; simpl; [tauto |].
  destruct (Dict.array_index k') as [m |] eqn:E.
  - rewrite In_insert_sorted, IH. split.
    + intros [[= -> -> ->] | [H1 H2]]; auto.
    + intros [[[= -> ->] | H1] H2]; [left; congruence | right; auto].
  - rewrite IH. split.
    + intros [H1 H2]. auto.
    + intros [[[= -> ->] | H1] H2]; [congruence | auto].
Qed.

(** [Object.entries] lists the properties of the object and nothing else. *)
Lemma In_entries o k v : In (k, v) (Dict.entries o) <-> In (k, v) o.
Proof.
  unfold Dict.entries, Dict.named_entries. rewrite in_app_iff, in_map_iff, filter_In. simpl.
  split.
  - intros [[[n [k' v']] [Heq Hin]] | [Hin _]]; [| exact Hin].
    simpl in Heq. injection Heq as -> ->. now apply In_index_entries in Hin.
  - intros Hin. destruct (Dict.array_index k) as [n |] eqn:E.
    + left. exists (n, (k, v)). split; [reflexivity |]. now apply In_index_entries.
    + right. auto.
Qed.

Lemma In_set_iff (m : StrMap.t V) k v k' v' :
  NoDup (StrMap.keys m) ->
  In (k', v') (StrMap.set m k v) <-> (k' = k /\ v' = v) \/ (k' <> k /\ In (k', v') m).
Proof.
  unfold StrMap.keys. induction m as [| [k0 v0] rest IH]; simpl; intros Hnd.
  - split.
    + intros [[= <- <-] | []]. now left.
    + intros [[-> ->] | [_ []]]. now left.
  - inversion Hnd as [| ? ? Hnotin Hnd']. subst. specialize (IH Hnd').
    destruct (String.eqb k0 k) eqn:E.
    + apply String.eqb_eq in E. subst k0. simpl. split.
      * intros [[= <- <-] | Hin]; [now left | right]. split; [| now right].
        intros ->. apply Hnotin. change k with (fst (k, v')). now apply in_map.
      * intros [[-> ->] | [Hne [[= -> ->] | Hin]]]; [now left | congruence | now right].
    + apply String.eqb_neq in E. simpl. rewrite IH. split.
      * intros [[= <- <-] | [H | [H1 H2]]]; auto.
      * intros [H | [H1 [[= -> ->] | H2]]]; auto.
Qed.

Lemma In_delete_iff (m : StrMap.t V) k k' v' :
  NoDup (StrMap.keys m) ->
  In (k', v') (StrMap.delete m k) <-> k' <> k /\ In (k', v') m.
Proof.
  unfold StrMap.keys. induction m as [| [k0 v0] rest IH]; simpl; intros Hnd; [tauto |].
  inversion Hnd as [| ? ? Hnotin Hnd']. subst. specialize (IH Hnd').
  destruct (String.eqb k0 k) eqn:E.
  - apply String.eqb_eq in E. subst k0. split.
    + intros Hin. split; [| now right].
      intros ->. apply Hnotin. change k with (fst (k, v')). now apply in_map.
    + intros [Hne [[= -> ->] | Hin]]; [congruence | exact Hin].
  - apply String.eqb_neq in E. simpl. rewrite IH. split.
    + intros [[= <- <-] | [H1 H2]]; auto.
    + intros [H1 [[= -> ->] | H2]]; auto.
Qed.

End Entries.

Section Providers.
Context {numbers : JS.Numbers}.
Implicit Types (p : Permissions) (session : Session).

(** X11: For a provider object with distinct keys, as every object has: after
    [provide(name, callback)] the callbacks that [check] consults for a name
    are [callback], when [name] matches, and the matching callbacks that
    were registered under other keys; a callback registered under [name]
    before is replaced.  After the disposer of [provide] ran, they are
    the matching callbacks under other keys: the disposer removes whatever
    is registered under [name] by then, also a callback of a later call of
    [provide] with that name. *)
Theorem provide_replaces_and_dispose_removes_by_name p name callback :
  NoDup (StrMap.keys (providers p)) ->
  (forall n key cb,
     In (key, cb) (matching (provide p name callback) n) <->
     matches n key = true /\
     ((key = name /\ cb = callback) \/ (key <> name /\ In (key, cb) (providers p))))
  /\ (forall n key cb,
        In (key, cb) (matching (provide_dispose p name) n) <->
        matches n key = true /\ key <> name /\ In (key, cb) (providers p))
  /\ (forall later n,
        matching (provide_dispose (provide (provide p name callback) name later) name) n
        = matching (provide_dispose p name) n)
  /\ NoDup (StrMap.keys (providers (provide p name callback)))
  /\ NoDup (StrMap.keys (providers (create (numbers := numbers)))).
Proof.
  intros Hnd. conjs.
  - intros n key cb. unfold matching. rewrite filter_In, In_entries. simpl.
    rewrite (In_set_iff _ _ _ _ _ Hnd). tauto.
  - intros n key cb. unfold matching. rewrite filter_In, In_entries. simpl.
    rewrite (In_delete_iff _ _ _ _ Hnd). tauto.
  - intros later n. unfold matching. simpl. rewrite set_set.
    f_equal. f_equal. clear Hnd.
    induction (providers p) as [| [k v] rest IH]; simpl.
    + now rewrite String.eqb_refl.
    + destruct (String.eqb k name) eqn:E; simpl; rewrite E; [reflexivity | now rewrite IH].
  - simpl. now apply NoDup_keys_set.
  - simpl. repeat constructor; simpl; intuition discriminate.
Qed.

(** *** The providers of a new resolver *)

Lemma entries_create :
  Dict.entries (providers (create (numbers := numbers)))
  = [("authority.*", authority_provider); ("bot.*", bot_provider)].
Proof. reflexivity. Qed.

Lemma slice_from_authority (suffix : string) :
  JS.slice_from 10 ("authority." ++ suffix) = suffix.
Proof. unfold JS.slice_from. simpl. rewrite Nat.sub_0_r. apply substring_zero_length. Qed.

Lemma slice_from_bot (suffix : string) : JS.slice_from 4 ("bot." ++ suffix) = suffix.
Proof. unfold JS.slice_from. simpl. rewrite Nat.sub_0_r. apply substring_zero_length. Qed.

Lemma matching_authority (suffix : string) :
  matching create ("authority." ++ suffix) = [("authority.*", authority_provider)].
Proof.
  unfold matching. rewrite entries_create. cbn [List.filter fst].
  assert (H1 : matches ("authority." ++ suffix) "authority.*" = true).
  { apply matches_spec. right. exists "authority.", suffix. auto. }
  assert (H2 : matches ("authority." ++ suffix) "bot.*" = false) by reflexivity.
  now rewrite H1, H2.
Qed.

Lemma matching_bot (suffix : string) :
  matching create ("bot." ++ suffix) = [("bot.*", bot_provider)].
Proof.
  unfold matching. rewrite entries_create. cbn [List.filter fst].
  assert (H1 : matches ("bot." ++ suffix) "bot.*" = true).
  { apply matches_spec. right. exists "bot.", suffix. auto. }
  assert (H2 : matches ("bot." ++ suffix) "authority.*" = false) by reflexivity.
  now rewrite H1, H2.
Qed.

Lemma matching_other (name : string) :
  JS.startsWith name "authority." = false ->
  JS.startsWith name "bot." = false ->
  matching create name = [].
Proof.
  intros Ha Hb. unfold matching. rewrite entries_create. cbn [List.filter fst].
  assert (H1 : matches name "authority.*" = false).
  { destruct (matches name "authority.*") eqn:E; [| reflexivity].
    apply matches_spec in E. destruct E as [-> | (pre & rest & Hkey & ->)]; [discriminate |].
    assert (pre = "authority.").
    { clear - Hkey. do 10 (destruct pre as [| ? pre]; [discriminate | injection Hkey as <- Hkey]).
      destruct pre as [| ? pre]; [reflexivity |].
      destruct pre; discriminate. }
    subst pre. unfold JS.startsWith in Ha. now rewrite prefix_append in Ha. }
  assert (H2 : matches name "bot.*" = false).
  { destruct (matches name "bot.*") eqn:E; [| reflexivity].
    apply matches_spec in E. destruct E as [-> | (pre & rest & Hkey & ->)]; [discriminate |].
    assert (pre = "bot.").
    { clear - Hkey. do 4 (destruct pre as [| ? pre]; [discriminate | injection Hkey as <- Hkey]).
      destruct pre as [| ? pre]; [reflexivity |].
      destruct pre; discriminate. }
    subst pre. unfold JS.startsWith in Hb. now rewrite prefix_append in Hb. }
  now rewrite H1, H2.
Qed.

Lemma check_authority session (suffix : string) :
  check create ("authority." ++ suffix) session
  = ([Called "authority.*"],
     JS.Return (match user session with
                | None => true
                | Some u => JS.num_ge (authority u) (JS.to_number suffix)
                end)).
Proof.
  unfold check, check_try. rewrite matching_authority.
  unfold run_callbacks, authority_provider. rewrite slice_from_authority.
  destruct (user session) as [u |]; [destruct (JS.num_ge _ _) |]; reflexivity.
Qed.

Lemma check_other session (name : string) :
  JS.startsWith name "authority." = false ->
  JS.startsWith name "bot." = false ->
  check create name session = ([], JS.Return false).
Proof.
  intros Ha Hb. unfold check, check_try. now rewrite matching_other.
Qed.

(** X12: On a new resolver: a name under ["authority."] is granted exactly to a
    session without a user and to a user whose authority is at least the
    number after the prefix; a name under ["bot."] is granted as the bot of
    the session says, and denied when the session has no bot or the bot
    throws; every other name is denied without calling anything. *)
Theorem new_resolver_grants_by_authority_and_bot session :
  (forall suffix,
     check create ("authority." ++ suffix) session
     = ([Called "authority.*"],
        JS.Return (match user session with
                   | None => true
                   | Some u => JS.num_ge (authority u) (JS.to_number suffix)
                   end)))
  /\ (forall suffix,
        snd (check create ("bot." ++ suffix) session)
        = JS.Return (match bot session with
                     | None => false
                     | Some supports =>
                         match supports suffix with
                         | JS.Return b => b
                         | JS.Throw _ => false
                         end
                     end))
  /\ (forall name,
        JS.startsWith name "authority." = false ->
        JS.startsWith name "bot." = false ->
        check create name session = ([], JS.Return false)).
Proof.
  conjs.
  - intros suffix. apply check_authority.
  - intros suffix. unfold check, check_try. rewrite matching_bot.
    unfold run_callbacks, bot_provider. rewrite slice_from_bot.
    destruct (bot session) as [supports |]; [| reflexivity].
    destruct (supports suffix) as [[|] | e]; reflexivity.
  - intros name. apply check_other.
Qed.

End Providers.

(** A provider for ["cmd.x"] is registered on a new resolver. *)
Lemma provide_witness :
  NoDup (StrMap.keys (providers (create (numbers := JS.level_numbers))))
  /\ NoDup (StrMap.keys (providers (provide (create (numbers := JS.level_numbers))
                                            "cmd.x" (fun _ _ => JS.Return true)))).
Proof.
  assert (H : NoDup (StrMap.keys (providers (create (numbers := JS.level_numbers))))).
  { repeat constructor; simpl; intuition discriminate. }
  split; [exact H |].
  exact (proj1 (proj2 (proj2 (proj2
           (provide_replaces_and_dispose_removes_by_name
              create "cmd.x" (fun _ _ => JS.Return true) H))))).
Defined.

End ProviderFacts.

(** ** Granting and listing *)

Module GrantFacts.
Import Permission Facts GraphFacts ResolverFacts LinkFacts TraversalFacts TestFacts ProviderFacts.

Section Grants.
Context {numbers : JS.Numbers}.
Implicit Types (p : Permissions) (session : Session) (store : Store).

(** *** [inherit] grants and [depend] restricts *)


(** X14: On a dependency graph without the empty string as a node, a call of
    [depend] never makes a failing test pass. *)
Theorem depend_never_grants p dependent dependency condition x y session :
  truthy_targets (depends p) ->
  dependency <> "" ->
  Forall (fun n => JS.truthy n = true) y ->
  test (depend p dependent dependency condition) x y session = JS.Return true ->
  test p x y session = JS.Return true.
Proof.
  intros Hstore Hdependency Hy. rewrite !test_true_iff. simpl. intros H name Hin.
  destruct (H name) as (granter & Hg & Hwhy).
  - now apply subgraph_link_incl.
  - exists granter. split; [exact Hg |].
    destruct Hwhy as [Hheld | Hgranted]; [now left | right].
    rewrite <- Hgranted. reflexivity.
Qed.

(** *** [list] *)

Lemma add_all_spec (items : list string) :
  forall set, NoDup set ->
    NoDup (add_all set items)
    /\ (forall n, In n (add_all set items) <-> In n set \/ In n items).
Proof.
  induction items as [| x rest IH]; intros set Hnd; simpl.
  - split; [assumption | tauto].
  - destruct (JS.includes set x) eqn:E.
    + destruct (IH set Hnd) as [H1 H2]. split; [assumption |].
      intros n. rewrite H2. apply includes_In in E. split; [tauto |].
      intros [H | [<- | H]]; auto.
    + apply includes_false in E.
      destruct (IH (set ++ [x])) as [H1 H2].
      { apply NoDup_app; [assumption | repeat constructor; simpl; tauto |].
        intros y Hy [<- | []]. contradiction. }
      split; [assumption |].
      intros n. rewrite H2, in_app_iff. simpl. tauto.
Qed.

Lemma has_link store source target condition k :
  StrMap.has (link store source target condition) k
  = String.eqb source k || StrMap.has store k.
Proof.
  rewrite link_eq. unfold StrMap.has. destruct (String.eqb source k) eqn:E.
  - apply String.eqb_eq in E. subst k. now rewrite get_set_eq.
  - apply String.eqb_neq in E. now rewrite get_set_ne.
Qed.

Lemma has_unlink store source target condition k :
  StrMap.has (unlink store source target condition) k = StrMap.has store k.
Proof.
  unfold unlink. destruct (StrMap.get store source) as [map |] eqn:Hmap; [| reflexivity].
  destruct (StrMap.get map target) as [conditions |]; [| reflexivity].
  unfold StrMap.has. destruct (String.eqb source k) eqn:E.
  - apply String.eqb_eq in E. subst k. now rewrite get_set_eq, Hmap.
  - apply String.eqb_neq in E. now rewrite get_set_ne.
Qed.

Lemma In_list_names p n :
  In n (list_names p) <-> StrMap.has (inherits p) n = true \/ StrMap.has (depends p) n = true.
Proof.
  unfold list_names. destruct (add_all_spec (StrMap.keys (inherits p) ++ StrMap.keys (depends p)) [])
    as [_ H]; [constructor |].
  rewrite H, in_app_iff, !has_keys. simpl. tauto.
Qed.

(** X15: [list] returns, each once, the names that have an entry in one of the
    two graphs: the parents of the inherit edges and the dependents of the
    dependency edges.  A child or a dependency is listed only when it is
    such a name too, and a name stays listed after the disposers of all its
    edges have run. *)
Theorem list_names_are_the_edge_sources p :
  NoDup (list_names p)
  /\ (forall n, In n (list_names p) <->
        StrMap.has (inherits p) n = true \/ StrMap.has (depends p) n = true)
  /\ (forall child parent condition n,
        In n (list_names (inherit p child parent condition)) <->
        n = parent \/ In n (list_names p))
  /\ (forall dependent dependency condition n,
        In n (list_names (depend p dependent dependency condition)) <->
        n = dependent \/ In n (list_names p))
  /\ (forall child parent condition n,
        In n (list_names (inherit_dispose p child parent condition)) <-> In n (list_names p))
  /\ (forall dependent dependency condition n,
        In n (list_names (depend_dispose p dependent dependency condition)) <->
        In n (list_names p)).
Proof.
  conjs.
  - unfold list_names. apply add_all_spec. constructor.
  - apply In_list_names.
  - intros child parent condition n. rewrite !In_list_names. simpl.
    rewrite has_link, orb_true_iff, String.eqb_eq. intuition auto.
  - intros dependent dependency condition n. rewrite !In_list_names. simpl.
    rewrite has_link, orb_true_iff, String.eqb_eq. intuition auto.
  - intros child parent condition n. rewrite !In_list_names. simpl.
    now rewrite has_unlink.
  - intros dependent dependency condition n. rewrite !In_list_names. simpl.
    now rewrite has_unlink.
Qed.

(** *** [authority] *)

Variable number_to_string : JS.Num -> string.





End Grants.


(** With ["cmd.bar"] and ["cmd.foo"] held, the test for ["cmd.bar"] passes
    after ["cmd.bar"] was made to depend on ["cmd.foo"], and so it passes
    without the dependency. *)
Lemma depend_never_grants_witness :
  truthy_targets (depends (create (numbers := JS.level_numbers)))
  /\ "cmd.foo" <> ""
  /\ Forall (fun n => JS.truthy n = true) ["cmd.bar"]
  /\ test (depend create "cmd.bar" "cmd.foo" (Static true))
          ["cmd.bar"; "cmd.foo"] ["cmd.bar"] anonymous
     = JS.Return true
  /\ test create ["cmd.bar"; "cmd.foo"] ["cmd.bar"] anonymous = JS.Return true.
Proof.
  assert (Hs : truthy_targets (depends (create (numbers := JS.level_numbers))))
    by exact truthy_targets_nil.
  assert (Hc : "cmd.foo" <> "") by discriminate.
  assert (Hy : Forall (fun n => JS.truthy n = true) ["cmd.bar"]) by (repeat constructor).
  assert (Ht : test (depend create "cmd.bar" "cmd.foo" (Static true))
                    ["cmd.bar"; "cmd.foo"] ["cmd.bar"] anonymous
               = JS.Return true) by (vm_compute; reflexivity).
  split; [exact Hs |]. split; [exact Hc |]. split; [exact Hy |]. split; [exact Ht |].
  exact (depend_never_grants create "cmd.bar" "cmd.foo" (Static true)
           ["cmd.bar"; "cmd.foo"] ["cmd.bar"] anonymous Hs Hc Hy Ht).
Defined.


End GrantFacts.

(** ** The registry of commands *)

Module RegistryFacts.
Import Command Facts CommandFacts LinkFacts.

Section Registry.
Context {host : Host}.

Lemma remove_string_In (items : list string) (item x : string) :
  In x (remove_string items item) -> In x items.
Proof.
  induction items as [| y rest IH]; simpl; [tauto |].
  destruct (String.eqb y item); [now right |]. intros [H | H]; auto.
Qed.

Lemma remove_string_other (items : list string) (item x : string) :
  x <> item -> In x items -> In x (remove_string items item).
Proof.
  intros Hne. induction items as [| y rest IH]; simpl; [tauto |].
  destruct (String.eqb y item) eqn:E.
  - apply String.eqb_eq in E. subst y. intros [H | H]; [congruence | exact H].
  - intros [H | H]; [now left | right; auto].
Qed.

Lemma remove_string_NoDup (items : list string) (item : string) :
  NoDup items -> NoDup (remove_string items item) /\ ~ In item (remove_string items item).
Proof.
  induction 1 as [| y rest Hy Hnd [IH1 IH2]]; simpl.
  - split; [constructor | tauto].
  - destruct (String.eqb y item) eqn:E.
    + apply String.eqb_eq in E. subst y. auto.
    + apply String.eqb_neq in E. split.
      * constructor; [| exact IH1]. intros Hin. apply Hy. eapply remove_string_In. exact Hin.
      * intros [H | H]; [congruence | contradiction].
Qed.

(** X17: A call of [_registerAlias] that returns, on a command whose aliases are
    distinct and registered to it: the aliases are again distinct and
    registered to it; the name, in lower case and completed, is among them,
    in front when [prepend] is set, and the aliases are otherwise those of
    before; no name of the registry has changed its command; the command
    list is as it was. *)
Theorem registerAlias_keeps_registry_consistent
    (w w' : World) (name key : string) (prepend : bool) :
  _registerAlias w name prepend = (w', JS.Return tt) ->
  full_name (this w) name = JS.Return key ->
  registered w ->
  NoDup (_aliases (this w)) ->
  registered w'
  /\ NoDup (_aliases (this w'))
  /\ (forall a, In a (_aliases (this w')) <-> a = key \/ In a (_aliases (this w)))
  /\ (prepend = true -> displayName (this w') = Some key)
  /\ StrMap.get (commands (commander w')) key = Some (id (this w))
  /\ (forall k other, StrMap.get (commands (commander w)) k = Some other ->
        StrMap.get (commands (commander w')) k = Some other)
  /\ (forall k, k <> key ->
        StrMap.get (commands (commander w')) k = StrMap.get (commands (commander w)) k)
  /\ _commandList (commander w') = _commandList (commander w)
  /\ id (this w') = id (this w).
Proof.
  intros Hcall Hname Hreg Hnd. unfold _registerAlias in Hcall. rewrite Hname in Hcall.
  destruct (JS.includes (_aliases (this w)) key) eqn:Hdone.
  - apply includes_In in Hdone.
    assert (Hset : forall a, In a (key :: remove_string (_aliases (this w)) key)
                             <-> a = key \/ In a (_aliases (this w))).
    { intros a. simpl. split.
      - intros [H | H]; [now left | right; eapply remove_string_In; exact H].
      - intros [H | H]; [now left |].
        destruct (string_dec a key) as [-> | Hne]; [now left | right].
        now apply remove_string_other. }
    destruct prepend; injection Hcall as <-.
    + unfold registered. simpl. conjs; auto.
      * intros a [<- | Ha]; [now apply Hreg |]. apply Hreg. eapply remove_string_In. exact Ha.
      * destruct (remove_string_NoDup _ key Hnd) as [H1 H2]. now constructor.
    + conjs; auto; try discriminate.
      intros a. split; [now right |]. intros [-> | H]; assumption.
  - pose proof (proj1 (includes_false _ _) Hdone) as Hfresh.
    assert (Hnd' : NoDup (if prepend then key :: _aliases (this w)
                          else _aliases (this w) ++ [key])).
    { destruct prepend; [now constructor |].
      apply NoDup_app; [assumption | repeat constructor; simpl; tauto |].
      intros a Ha [<- | []]. contradiction. }
    assert (Hset : forall a, In a (if prepend then key :: _aliases (this w)
                                   else _aliases (this w) ++ [key])
                             <-> a = key \/ In a (_aliases (this w))).
    { intros a. destruct prepend; simpl; [intuition auto |].
      rewrite in_app_iff. simpl. intuition auto. }
    assert (Hhead : prepend = true ->
                    hd_error (if prepend then key :: _aliases (this w)
                              else _aliases (this w) ++ [key]) = Some key).
    { now intros ->. }
    destruct (StrMap.get (commands (commander w)) key) as [previous |] eqn:Hget.
    + destruct (Nat.eqb previous (id (this w))) eqn:Hsame; [| discriminate].
      apply Nat.eqb_eq in Hsame. subst previous. injection Hcall as <-.
      unfold registered, displayName. simpl. conjs; auto.
      intros a Ha. apply Hset in Ha. destruct Ha as [-> | Ha]; [assumption | now apply Hreg].
    + injection Hcall as <-. unfold registered, displayName. simpl. conjs; auto.
      * intros a Ha. apply Hset in Ha. destruct Ha as [-> | Ha].
        -- apply get_set_eq.
        -- rewrite get_set_ne; [now apply Hreg |]. intros ->. contradiction.
      * apply get_set_eq.
      * intros k other Hk. rewrite get_set_ne; [assumption | congruence].
      * intros k Hk. apply get_set_ne. congruence.
Qed.


End Registry.

(** *** The disposers of [before] and [action] *)

Lemma remove_checker_app (items : list Checker) (item : Checker) :
  remove_checker (items ++ [item]) item
  = if existsb (fun x => Nat.eqb (checker_ref x) (checker_ref item)) items
    then remove_checker items item ++ [item]
    else items.
Proof.
  induction items as [| x rest IH]; simpl.
  - now rewrite Nat.eqb_refl.
  - destruct (Nat.eqb (checker_ref x) (checker_ref item)); simpl; [reflexivity |].
    rewrite IH. now destruct (existsb _ rest).
Qed.

Lemma remove_action_app (items : list Action) (item : Action) :
  remove_action (items ++ [item]) item
  = if existsb (fun x => Nat.eqb (action_ref x) (action_ref item)) items
    then remove_action items item ++ [item]
    else items.
Proof.
  induction items as [| x rest IH]; simpl.
  - now rewrite Nat.eqb_refl.
  - destruct (Nat.eqb (action_ref x) (action_ref item)); simpl; [reflexivity |].
    rewrite IH. now destruct (existsb _ rest).
Qed.

(** X19: The disposer of [before] and of [action] removes the first callback of
    the list that is the given function.  After a call that put the callback
    in front, the disposer gives the list back as it was.  After a call that
    put it at the end, it does so only when the function was not in the
    list already: otherwise the earlier occurrence goes and the added one
    stays at the end. *)
Theorem callback_disposer_removes_first_occurrence (c : Command) :
  (forall callback,
     _checkers (before_dispose (before c callback false) callback) = _checkers c)
  /\ (forall callback,
        _checkers (before_dispose (before c callback true) callback)
        = if existsb (fun x => Nat.eqb (checker_ref x) (checker_ref callback)) (_checkers c)
          then remove_checker (_checkers c) callback ++ [callback]
          else _checkers c)
  /\ (forall callback,
        _actions (action_dispose (action c callback true) callback) = _actions c)
  /\ (forall callback,
        _actions (action_dispose (action c callback false) callback)
        = if existsb (fun x => Nat.eqb (action_ref x) (action_ref callback)) (_actions c)
          then remove_action (_actions c) callback ++ [callback]
          else _actions c)
  /\ (forall callback append,
        _actions (before_dispose (before c callback append) callback) = _actions c
        /\ _aliases (before_dispose (before c callback append) callback) = _aliases c).
Proof.
  conjs.
  - intros callback. simpl. now rewrite Nat.eqb_refl.
  - intros callback. simpl. apply remove_checker_app.
  - intros callback. simpl. now rewrite Nat.eqb_refl.
  - intros callback. simpl. apply remove_action_app.
  - intros callback append. split; reflexivity.
Qed.

(** The command ["echo"] takes the display name ["say"]. *)
Lemma registerAlias_witness :
  let w := {| commander := {| commands := [("echo", 1)]; _commandList := [1] |};
              this := set_aliases (fresh (host := example_host) 1 "echo") ["echo"] |} in
  let w' := fst (_registerAlias (host := example_host) w "Say" true) in
  _registerAlias (host := example_host) w "Say" true = (w', JS.Return tt)
  /\ full_name (host := example_host) (this w) "Say" = JS.Return "say"
  /\ registered w
  /\ NoDup (_aliases (this w))
  /\ registered w'.
Proof.
  cbv zeta.
  set (w := {| commander := {| commands := [("echo", 1)]; _commandList := [1] |};
               this := set_aliases (fresh (host := example_host) 1 "echo") ["echo"] |}).
  assert (Hr : registered w) by (intros a [<- | []]; reflexivity).
  assert (Hn : NoDup (_aliases (this w))) by (repeat constructor; simpl; tauto).
  split; [reflexivity |]. split; [reflexivity |]. split; [exact Hr |]. split; [exact Hn |].
  exact (proj1 (registerAlias_keeps_registry_consistent (host := example_host)
                  w (fst (_registerAlias (host := example_host) w "Say" true))
                  "Say" "say" true eq_refl eq_refl Hr Hn)).
Defined.

End RegistryFacts.

(** ** Disposing of commands *)

Module DisposeFacts.
Import Command Facts CommandFacts LinkFacts RegistryFacts.

(** *** Trees of commands *)

Lemma Tree_induction (P : Tree -> Prop) :
  (forall cmd disposables children,
     Forall P children -> P (Node cmd disposables children)) ->
  forall t, P t.
Proof.
  intros step. fix IH 1. intros [cmd disposables children]. apply step.
  induction children as [| child rest IHrest]; constructor; [apply IH | exact IHrest].
Qed.

Lemma delete_each_app (a b : list string) (m : StrMap.t nat) :
  delete_each (a ++ b) m = delete_each b (delete_each a m).
Proof. unfold delete_each. apply fold_left_app. Qed.

Lemma remove_ids_app (a b : list nat) (items : list nat) :
  remove_ids (a ++ b) items = remove_ids b (remove_ids a items).
Proof. unfold remove_ids. apply fold_left_app. Qed.

(** [dispose] in one piece: the registry without the aliases of the tree,
    the command list without its commands, the array of the parent without
    the command, and the events from the top down. *)
Lemma dispose_child_spec (t : Tree) :
  forall c siblings,
    dispose_child t c siblings
    = ({| commands := delete_each (tree_aliases t) (commands c);
          _commandList := remove_ids (tree_ids t) (_commandList c) |},
       remove_id siblings (id (root t)),
       tree_events t).
Proof.
  induction t as [cmd disposables children IH] using Tree_induction.
  intros c siblings. simpl.
  set (each := fix each (children : list Tree) (c : Commander) (own : list nat)
                 : Commander * list nat * list Disposal :=
                 match children with
                 | [] => (c, own, [])
                 | child :: rest =>
                     let '(c1, own1, events1) := dispose_child child c own in
                     let '(c2, own2, events2) := each rest c1 own1 in
                     (c2, own2, events1 ++ events2)
                 end).
  assert (Heach : forall own c0,
            each children c0 own
            = ({| commands := delete_each (flat_map tree_aliases children) (commands c0);
                  _commandList := remove_ids (flat_map tree_ids children) (_commandList c0) |},
               fold_left remove_id (List.map (fun child => id (root child)) children) own,
               flat_map tree_events children)).
  { induction IH as [| child rest Hchild _ IHrest]; intros own c0; simpl.
    - now destruct c0.
    - rewrite Hchild, IHrest. simpl. now rewrite delete_each_app, remove_ids_app. }
  rewrite Heach. simpl. now rewrite delete_each_app, remove_ids_app.
Qed.

(** *** Deleting from a map *)

Section Maps.
Context {V : Type}.
Implicit Types (m : StrMap.t V) (k : string).

Lemma keys_delete_incl m k x : In x (StrMap.keys (StrMap.delete m k)) -> In x (StrMap.keys m).
Proof.
  unfold StrMap.keys. induction m as [| [k' v'] rest IH]; simpl; [tauto |].
  destruct (String.eqb k' k); simpl; [now right |]. intros [H | H]; auto.
Qed.

Lemma NoDup_keys_delete m k : NoDup (StrMap.keys m) -> NoDup (StrMap.keys (StrMap.delete m k)).
Proof.
  unfold StrMap.keys. induction m as [| [k' v'] rest IH]; simpl; intros Hnd; [constructor |].
  inversion Hnd as [| ? ? Hnotin Hnd']. subst.
  destruct (String.eqb k' k); simpl; [assumption |].
  constructor; [| now apply IH]. intros Hin. apply Hnotin. eapply keys_delete_incl. exact Hin.
Qed.

Lemma get_delete m k k' :
  NoDup (StrMap.keys m) ->
  StrMap.get (StrMap.delete m k) k' = if String.eqb k k' then None else StrMap.get m k'.
Proof.
  unfold StrMap.keys. induction m as [| [k0 v0] rest IH]; simpl; intros Hnd.
  - now destruct (String.eqb k k').
  - inversion Hnd as [| ? ? Hnotin Hnd']. subst. specialize (IH Hnd').
    destruct (String.eqb k0 k) eqn:E.
    + apply String.eqb_eq in E. subst k0.
      destruct (String.eqb k k') eqn:E'; [| reflexivity].
      apply String.eqb_eq in E'. subst k'.
      destruct (StrMap.get rest k) as [v |] eqn:Hget; [| reflexivity].
      exfalso. apply Hnotin. apply get_In in Hget.
      change k with (fst (k, v)). now apply in_map.
    + simpl. rewrite IH. destruct (String.eqb k0 k') eqn:E0; [| reflexivity].
      apply String.eqb_eq in E0. subst k0. rewrite String.eqb_sym, E. reflexivity.
Qed.

End Maps.

Lemma get_delete_each (names : list string) :
  forall (m : StrMap.t nat) k,
    NoDup (StrMap.keys m) ->
    NoDup (StrMap.keys (delete_each names m))
    /\ StrMap.get (delete_each names m) k
       = if JS.includes names k then None else StrMap.get m k.
Proof.
  induction names as [| name rest IH]; intros m k Hnd; simpl.
  - auto.
  - destruct (IH (StrMap.delete m name) k (NoDup_keys_delete m name Hnd)) as [H1 H2].
    split; [exact H1 |]. rewrite H2, get_delete by assumption.
    rewrite (String.eqb_sym k name).
    destruct (String.eqb name k), (JS.includes rest k); reflexivity.
Qed.

Lemma remove_id_In (items : list nat) (item x : nat) :
  In x (remove_id items item) -> In x items.
Proof.
  induction items as [| y rest IH]; simpl; [tauto |].
  destruct (Nat.eqb y item); [now right |]. intros [H | H]; auto.
Qed.

Lemma remove_id_NoDup (items : list nat) (item x : nat) :
  NoDup items ->
  NoDup (remove_id items item)
  /\ (In x (remove_id items item) <-> In x items /\ x <> item).
Proof.
  induction 1 as [| y rest Hy Hnd [IH1 IH2]]; simpl.
  - split; [constructor | tauto].
  - destruct (Nat.eqb y item) eqn:E.
    + apply Nat.eqb_eq in E. subst y. split; [assumption |].
      split.
      * intros Hx. split; [now right |]. intros ->. contradiction.
      * intros [[Hx | Hx] Hne]; [congruence | exact Hx].
    + apply Nat.eqb_neq in E. split.
      * constructor; [| exact IH1]. intros Hin. apply Hy. eapply remove_id_In. exact Hin.
      * simpl. rewrite IH2. split.
        -- intros [<- | [Hx Hne]]; auto.
        -- intros [[<- | Hx] Hne]; auto.
Qed.

Lemma remove_ids_NoDup (ids : list nat) :
  forall items x, NoDup items ->
    NoDup (remove_ids ids items)
    /\ (In x (remove_ids ids items) <-> In x items /\ ~ In x ids).
Proof.
  induction ids as [| i rest IH]; intros items x Hnd; simpl.
  - split; [assumption | tauto].
  - destruct (remove_id_NoDup items i x Hnd) as [H1 H2].
    destruct (IH (remove_id items i) x H1) as [H3 H4].
    split; [exact H3 |]. rewrite H4, H2. intuition auto.
Qed.

(** X20: [dispose] deletes from the registry every alias in the alias lists of
    the command and of the commands below it, by name, whichever command
    the registry maps the name to, and leaves every other name as it was.
    It takes those commands out of the command list, and the command out of
    the children of its parent.  Each command calls its disposables and
    announces its removal before the commands below it do. *)
Theorem dispose_unregisters_the_tree_by_name
    (t : Tree) (c : Commander) (siblings : option (list nat)) :
  NoDup (StrMap.keys (commands c)) ->
  NoDup (_commandList c) ->
  let c' := fst (fst (dispose t c siblings)) in
  (forall k, StrMap.get (commands c') k
             = if JS.includes (tree_aliases t) k then None else StrMap.get (commands c) k)
  /\ (forall k, In k (_aliases (root t)) -> StrMap.get (commands c') k = None)
  /\ (forall i, In i (_commandList c') <-> In i (_commandList c) /\ ~ In i (tree_ids t))
  /\ NoDup (StrMap.keys (commands c'))
  /\ NoDup (_commandList c')
  /\ snd (fst (dispose t c siblings))
     = option_map (fun children => remove_id children (id (root t))) siblings
  /\ snd (dispose t c siblings) = tree_events t.
Proof.
  intros Hkeys Hlist. cbv zeta.
  assert (Hfst : fst (fst (dispose t c siblings))
                 = {| commands := delete_each (tree_aliases t) (commands c);
                      _commandList := remove_ids (tree_ids t) (_commandList c) |}).
  { unfold dispose. destruct siblings; rewrite dispose_child_spec; reflexivity. }
  rewrite Hfst. simpl.
  assert (Hget : forall k, StrMap.get (delete_each (tree_aliases t) (commands c)) k
                 = if JS.includes (tree_aliases t) k then None else StrMap.get (commands c) k).
  { intros k. now apply get_delete_each. }
  conjs.
  - exact Hget.
  - intros k Hk. rewrite Hget.
    assert (Hin : In k (tree_aliases t)).
    { destruct t as [cmd ds children]. simpl in *. apply in_or_app. now right. }
    apply includes_In in Hin. now rewrite Hin.
  - intros i. now apply remove_ids_NoDup.
  - now apply (get_delete_each (tree_aliases t) (commands c) "").
  - now apply (remove_ids_NoDup (tree_ids t) (_commandList c) 0).
  - unfold dispose. destruct siblings; rewrite dispose_child_spec; reflexivity.
  - unfold dispose. destruct siblings; rewrite dispose_child_spec; reflexivity.
Qed.

Section Failed.
Context {host : Host}.

(** X21: A failed registration leaves the name in the alias list of the command.
    When that command is disposed of afterwards, the name is deleted from
    the registry, although it was registered to the other command. *)
Theorem dispose_after_failed_alias_unregisters_other
    (w : World) (name key : string) (other : nat) :
  full_name (this w) name = JS.Return key ->
  StrMap.get (commands (commander w)) key = Some other ->
  other <> id (this w) ->
  registered w ->
  NoDup (StrMap.keys (commands (commander w))) ->
  exists w',
    _registerAlias w name false = (w', JS.Throw (duplicate_error key))
    /\ StrMap.get (commands (commander w')) key = Some other
    /\ StrMap.get
         (commands (fst (fst (dispose (Node (this w') [] []) (commander w') None)))) key
       = None.
Proof.
  intros Hname Hget Hother Hreg Hkeys. unfold _registerAlias. rewrite Hname.
  destruct (JS.includes (_aliases (this w)) key) eqn:Hdone.
  - apply includes_In in Hdone. apply Hreg in Hdone. congruence.
  - rewrite Hget. apply Nat.eqb_neq in Hother. rewrite Hother.
    eexists. split; [reflexivity |]. split; [exact Hget |].
    unfold dispose. rewrite dispose_child_spec. simpl.
    destruct (get_delete_each (_aliases (this w) ++ [key]) (commands (commander w)) key Hkeys)
      as [_ H].
    rewrite H, JS.includes_app. simpl. rewrite String.eqb_refl. now rewrite orb_true_r.
Qed.

End Failed.

(** The command ["echo"], with the alias ["say"] and one command below it,
    is disposed of. *)
Lemma dispose_witness :
  let c := {| commands := [("echo", 1); ("say", 1); ("echo.twice", 2); ("help", 3)];
              _commandList := [1; 2; 3] |} in
  let echo := set_aliases (fresh (host := example_host) 1 "echo") ["echo"; "say"] in
  let twice := set_aliases (fresh (host := example_host) 2 "echo.twice") ["echo.twice"] in
  let t := Node echo [] [Node twice [] []] in
  NoDup (StrMap.keys (commands c))
  /\ NoDup (_commandList c)
  /\ snd (dispose t c None) = tree_events t.
Proof.
  cbv zeta.
  assert (Hk : NoDup (StrMap.keys
                 (commands {| commands := [("echo", 1); ("say", 1); ("echo.twice", 2); ("help", 3)];
                              _commandList := [1; 2; 3] |}))).
  { repeat constructor; simpl; intuition discriminate. }
  assert (Hl : NoDup (_commandList
                 {| commands := [("echo", 1); ("say", 1); ("echo.twice", 2); ("help", 3)];
                    _commandList := [1; 2; 3] |})).
  { repeat constructor; simpl; intuition discriminate. }
  split; [exact Hk |]. split; [exact Hl |].
  pose proof (dispose_unregisters_the_tree_by_name
                (Node (set_aliases (fresh (host := example_host) 1 "echo") ["echo"; "say"]) []
                   [Node (set_aliases (fresh (host := example_host) 2 "echo.twice")
                            ["echo.twice"]) [] []])
                _ None Hk Hl) as H.
  cbv zeta in H. exact (proj2 (proj2 (proj2 (proj2 (proj2 (proj2 H)))))).
Defined.

(** ["echo"] is registered to command 1; command 2 asks for the alias
    ["Echo"] and is then disposed of. *)
Lemma dispose_after_failed_alias_witness :
  let w := {| commander := {| commands := [("echo", 1); ("say", 2)]; _commandList := [1; 2] |};
              this := set_aliases (fresh (host := example_host) 2 "say") ["say"] |} in
  full_name (host := example_host) (this w) "Echo" = JS.Return "echo"
  /\ StrMap.get (commands (commander w)) "echo" = Some 1
  /\ 1 <> id (this w)
  /\ registered w
  /\ NoDup (StrMap.keys (commands (commander w)))
  /\ exists w',
       _registerAlias (host := example_host) w "Echo" false
       = (w', JS.Throw (duplicate_error "echo"))
       /\ StrMap.get (commands (commander w')) "echo" = Some 1
       /\ StrMap.get
            (commands (fst (fst (dispose (Node (this w') [] []) (commander w') None)))) "echo"
          = None.
Proof.
  cbv zeta.
  set (w := {| commander := {| commands := [("echo", 1); ("say", 2)]; _commandList := [1; 2] |};
               this := set_aliases (fresh (host := example_host) 2 "say") ["say"] |}).
  assert (Hr : registered w) by (intros a [<- | []]; reflexivity).
  assert (Hne : 1 <> id (this w)) by discriminate.
  assert (Hk : NoDup (StrMap.keys (commands (commander w)))).
  { repeat constructor; simpl; intuition discriminate. }
  split; [reflexivity |]. split; [reflexivity |]. split; [exact Hne |].
  split; [exact Hr |]. split; [exact Hk |].
  exact (dispose_after_failed_alias_unregisters_other (host := example_host)
           w "Echo" "echo" 1 eq_refl eq_refl Hne Hr Hk).
Defined.

End DisposeFacts.

(** ** Executions as a whole *)

Module RunFacts.
Import Command Facts PipelineFacts ExecuteFacts.

Section Runs.
Context {host : Host}.

(** *** Before the pipeline *)

(** X22: An error of the parser and an error of a checker end [execute] before
    the pipeline is set up.  The text of a parser error is returned and
    nothing is called.  An error thrown by a checker is thrown to the
    caller, whatever the policy of the command: the checkers after it, the
    actions and the fallback are not called, nothing is logged and no
    ['command-error'] is emitted. *)
Theorem errors_before_the_pipeline_bypass_policy
    (c : Command) (argv : Argv) (fallback : Async) (fuel : nat) :
  (forall e, truthy_error argv = Some e ->
     execute fuel c argv fallback = Some ([], JS.Return (Text e)))
  /\ (forall passed validator later e,
        truthy_error argv = None ->
        _checkers c = passed ++ validator :: later ->
        Forall (passes argv) passed ->
        check_body validator argv = JS.Throw e ->
        execute fuel c argv fallback
        = Some (checked (passed ++ [validator]), JS.Throw e)).
Proof.
  split.
  - intros e He. unfold execute. now rewrite He.
  - intros passed validator later e Herr Hsplit Hpassed Hthrow.
    unfold execute. rewrite Herr, Hsplit.
    rewrite (run_checkers_stop passed later validator argv (JS.Throw e) Hpassed Hthrow);
      [reflexivity | discriminate].
Qed.

(** *** The result is never nullable *)

Lemma run_checkers_value (checkers : list Checker) (argv : Argv) (events : list Event)
    (v : Value) :
  run_checkers checkers argv = (events, Some (JS.Return v)) -> isNullable v = false.
Proof.
  revert events. induction checkers as [| validator rest IH]; intros events; simpl.
  - discriminate.
  - destruct (check_body validator argv) as [result | e]; [| discriminate].
    destruct (isNullable result) eqn:Hnull.
    + destruct (run_checkers rest argv) as [events' r]. intros [= _ ->]. eapply IH. reflexivity.
    + now intros [= _ <-].
Qed.

(** X23: Whenever [execute] returns, the value is a fragment, not [null] or
    [undefined]: a nullable result of the pipeline or of the error handler
    is replaced by the empty string. *)
Theorem execute_never_returns_nullable
    (c : Command) (argv : Argv) (fallback : Async) (fuel : nat)
    (events : list Event) (v : Value) :
  execute fuel c argv fallback = Some (events, JS.Return v) ->
  isNullable v = false.
Proof.
  unfold execute. destruct (truthy_error argv) as [e |]; [now intros [= _ <-] |].
  destruct (run_checkers (_checkers c) argv) as [events0 [r0 |]] eqn:Hcheck.
  { intros [= -> ->]. eapply run_checkers_value. exact Hcheck. }
  destruct (_actions c) as [| a actions]; [now intros [= _ <-] |].
  cbv zeta.
  destruct (argv_next fuel None _) as [[st r] |]; [| discriminate].
  unfold settle, recover. destruct r as [result | error].
  - destruct (isNullable result) eqn:Hnull; now intros [= _ <-].
  - destruct (Nat.eqb _ _); [discriminate |].
    destruct error as [path param | message]; [now intros [= _ <-] |].
    destruct (handleError c) as [[|] | h]; try now intros [= _ <-].
    destruct (h _ argv) as [result | e]; [| discriminate].
    destruct (isNullable result) eqn:Hnull; now intros [= _ <-].
Qed.

(** *** The cursor *)

Lemma positions_logged (error : Error) : positions [Warned error; Emitted error] = [].
Proof. reflexivity. Qed.

(** X24: In every execution the cursor goes through the queue positions
    0, 1, 2, ... in order: no continuation is called twice, none is passed
    over, and the positions of the actions and of the fallback are never
    found empty. *)
Theorem continuations_run_once_in_queue_order
    (c : Command) (argv : Argv) (fallback : Async) (fuel : nat)
    (events : list Event) (r : Outcome) :
  execute fuel c argv fallback = Some (events, r) ->
  (exists reached, positions events = seq 0 reached)
  /\ NoDup (positions events)
  /\ (forall p, In (Skipped p) events -> S (List.length (_actions c)) <= p).
Proof.
  intros Hexec.
  assert (Hmain : (exists reached, positions events = seq 0 reached)
                  /\ (forall p, In (Skipped p) events -> S (List.length (_actions c)) <= p)).
  { revert Hexec. unfold execute.
    destruct (truthy_error argv) as [e |].
    { intros [= <- _]. split; [now exists 0 | intros p []]. }
    destruct (run_checkers_events (_checkers c) argv) as [called Hcalled].
    destruct (run_checkers (_checkers c) argv) as [events0 [r0 |]] eqn:Hcheck.
    { intros [= <- _]. simpl in Hcalled. subst events0. split.
      - exists 0. apply positions_checked.
      - intros p Hin. unfold checked in Hin. apply in_map_iff in Hin.
        destruct Hin as (v & [=] & _). }
    destruct (_actions c) as [| a actions] eqn:Ha.
    { intros [= <- _]. simpl in Hcalled. subst events0. split.
      - exists 0. apply positions_checked.
      - intros p Hin. unfold checked in Hin. apply in_map_iff in Hin.
        destruct Hin as (v & [=] & _). }
    cbv zeta.
    destruct (argv_next fuel None (start c argv fallback events0)) as [[st r1] |] eqn:Hnext;
      [| discriminate].
    replace events0 with (fst (run_checkers (_checkers c) argv)) in Hnext by now rewrite Hcheck.
    destruct (cursor_facts _ _ _ _ _ _ Hnext) as (_ & _ & Hpos & Hskip).
    rewrite Ha in Hskip.
    intros Hsettle.
    assert (Hevents : events = trace st
                      \/ exists error, events = trace st ++ [Warned error; Emitted error]).
    { revert Hsettle. unfold settle, recover. destruct r1 as [result | error].
      - destruct (isNullable result); intros [= <- _]; now left.
      - destruct (Nat.eqb _ _); [intros [= <- _]; now left |].
        destruct error as [path param | message]; [intros [= <- _]; now left |].
        destruct (handleError c) as [[|] | h]; [| | destruct (h _ argv) as [[| t] | e]];
          intros [= <- _]; right; eauto. }
    destruct Hevents as [-> | [error ->]].
    - split; [eauto | exact Hskip].
    - split.
      + exists (index st). now rewrite positions_app, positions_logged, app_nil_r.
      + intros p Hin. apply in_app_or in Hin.
        destruct Hin as [Hin | [[=] | [[=] | []]]]. now apply Hskip. }
  destruct Hmain as [[reached Hreached] Hskipped]. conjs.
  - eauto.
  - rewrite Hreached. apply seq_NoDup.
  - exact Hskipped.
Qed.

(** *** An action that does not call [next] *)



(** *** Actions that only forward *)

Lemma forward_chain (r : Outcome) (k : nat) :
  forall fuel st,
    k < fuel ->
    (forall i, i < k -> nth_error (queue st) (index st + i) = Some forward) ->
    nth_error (queue st) (index st + k) = Some (Finish r) ->
    argv_next fuel None st
    = Some ({| queue := queue st; index := index st + S k;
               trace := trace st ++ List.map Invoked (seq (index st) (S k)) |}, r).
Proof.
  induction k as [| k IH]; intros fuel st Hfuel Hforward Hlast.
  - unfold argv_next, next_with. rewrite Nat.add_0_r in Hlast. rewrite Hlast.
    destruct fuel as [| fuel]; [lia |]. simpl. now rewrite Nat.add_1_r.
  - unfold argv_next, next_with.
    pose proof (Hforward 0 (Nat.lt_0_succ k)) as Hfirst. rewrite Nat.add_0_r in Hfirst.
    rewrite Hfirst. destruct fuel as [| fuel]; [lia |].
    change (run (S fuel) forward ?s)
      with (match argv_next fuel None s with
            | Some (st', r') => run fuel (Finish r') st'
            | None => None
            end).
    pose proof (IH fuel {| queue := queue st; index := S (index st);
                           trace := trace st ++ [Invoked (index st)] |}) as Hinner.
    cbn [queue index trace] in Hinner. rewrite Hinner.
    + destruct fuel as [| fuel]; [lia |]. cbn [run].
      rewrite <- app_assoc.
      replace (index st + S (S k)) with (S (index st + S k)) by lia.
      replace (S (index st) + S k) with (S (index st + S k)) by lia.
      reflexivity.
    + lia.
    + intros i Hi. replace (S (index st) + i) with (index st + S i) by lia.
      apply Hforward. lia.
    + replace (S (index st) + k) with (index st + S k) by lia. exact Hlast.
Qed.

(** X26: When every action only calls [next] and returns what it gave, and
    the fallback returns or throws without calling [next] itself, the
    actions are called in order and then the fallback, and its outcome
    is the outcome of [execute]: a value is the result, the empty string
    when it is nullable, and an error is thrown to the caller whatever the
    policy of the command, without a log entry. *)
Theorem forwarding_actions_hand_over_to_fallback
    (c : Command) (argv : Argv) (r : Outcome) (fuel : nat) (events : list Event) :
  truthy_error argv = None ->
  run_checkers (_checkers c) argv = (events, None) ->
  _actions c <> [] ->
  Forall (fun a => action_body a argv = forward) (_actions c) ->
  List.length (_actions c) < fuel ->
  execute fuel c argv (Finish r)
  = Some (events ++ List.map Invoked (seq 0 (S (List.length (_actions c)))),
          match r with
          | JS.Return v => JS.Return (if isNullable v then Text "" else v)
          | JS.Throw error => JS.Throw error
          end).
Proof.
  intros Herr Hcheck Hactions Hforward Hfuel.
  assert (Hnext : argv_next fuel None (start c argv (Finish r) events)
                  = Some ({| queue := queue (start c argv (Finish r) events);
                             index := 0 + S (List.length (_actions c));
                             trace := events
                                      ++ List.map Invoked (seq 0 (S (List.length (_actions c)))) |},
                          r)).
  { apply (forward_chain r (List.length (_actions c)) fuel (start c argv (Finish r) events) Hfuel).
    - intros i Hi. simpl. rewrite nth_error_app1 by now rewrite length_map.
      rewrite nth_error_map.
      destruct (nth_error (_actions c) i) as [a |] eqn:Ha.
      + simpl. f_equal. rewrite Forall_forall in Hforward. apply Hforward.
        eapply nth_error_In. exact Ha.
      + apply nth_error_None in Ha. lia.
    - simpl. rewrite nth_error_app2 by (rewrite length_map; lia).
      rewrite length_map, Nat.sub_diag. reflexivity. }
  rewrite (execute_acting c argv (Finish r) fuel events _ r Herr Hcheck Hactions Hnext fuel
             (Nat.le_refl _)).
  unfold settle. simpl. rewrite Nat.eqb_refl.
  destruct r as [v | error]; [now destruct (isNullable v) | reflexivity].
Qed.

(** *** Every execution ends, with one result *)

Lemma execute_mono (c : Command) (argv : Argv) (fallback : Async) (fuel fuel' : nat)
    (out : list Event * Outcome) :
  fuel <= fuel' ->
  execute fuel c argv fallback = Some out -> execute fuel' c argv fallback = Some out.
Proof.
  intros Hle. unfold execute. destruct (truthy_error argv); [auto |].
  destruct (run_checkers (_checkers c) argv) as [events [r |]]; [auto |].
  destruct (_actions c) as [| a actions]; [auto |]. cbv zeta.
  destruct (argv_next fuel None _) as [[st r] |] eqn:Hnext; [| discriminate].
  now rewrite (argv_next_mono fuel fuel' _ _ _ Hle Hnext).
Qed.

(** X27: The machinery of [execute] adds no way to go on for ever: with actions,
    a fallback and callbacks whose bodies end, the execution ends, and the
    events and the outcome are the same however far it is allowed to
    run. *)
Theorem execute_ends_with_one_outcome (c : Command) (argv : Argv) (fallback : Async) :
  (exists fuel out, forall fuel', fuel <= fuel' -> execute fuel' c argv fallback = Some out)
  /\ (forall fuel1 fuel2 out1 out2,
        execute fuel1 c argv fallback = Some out1 ->
        execute fuel2 c argv fallback = Some out2 ->
        out1 = out2).
Proof.
  split.
  - unfold execute. destruct (truthy_error argv); [now exists 0; eauto |].
    destruct (run_checkers (_checkers c) argv) as [events [r |]]; [now exists 0; eauto |].
    destruct (_actions c) as [| a actions] eqn:Hactions; [now exists 0; eauto |].
    destruct (argv_next_total None (start c argv fallback events)) as (fuel & st & r & Hnext).
    exists fuel. eexists. intros fuel' Hle. cbv zeta. rewrite (Hnext fuel' Hle). reflexivity.
  - intros fuel1 fuel2 out1 out2 H1 H2.
    apply (execute_mono c argv fallback fuel1 (Nat.max fuel1 fuel2)) in H1; [| apply Nat.le_max_l].
    apply (execute_mono c argv fallback fuel2 (Nat.max fuel1 fuel2)) in H2; [| apply Nat.le_max_r].
    congruence.
Qed.

End Runs.

#[local] Existing Instance example_host.

(** The only action of ["echo"] returns nothing, and neither does the
    fallback: the result is the empty string. *)
Lemma execute_never_nullable_witness :
  execute 5 (echo nothing) example_argv nothing
  = Some ([Checked 0; Invoked 0], JS.Return (Text ""))
  /\ isNullable (Text "") = false.
Proof.
  assert (H : execute 5 (echo nothing) example_argv nothing
              = Some ([Checked 0; Invoked 0], JS.Return (Text ""))) by reflexivity.
  split; [exact H |].
  exact (execute_never_returns_nullable (echo nothing) example_argv nothing 5 _ _ H).
Defined.

(** The action of ["echo"] queues a callback: the action, the fallback and
    the callback are called, in this order. *)
Lemma continuations_order_witness :
  execute 5 (echo (forward_with nothing)) example_argv forward
  = Some ([Checked 0; Invoked 0; Invoked 1; Invoked 2], JS.Return (Text ""))
  /\ NoDup (positions [Checked 0; Invoked 0; Invoked 1; Invoked 2]).
Proof.
  assert (H : execute 5 (echo (forward_with nothing)) example_argv forward
              = Some ([Checked 0; Invoked 0; Invoked 1; Invoked 2], JS.Return (Text "")))
    by reflexivity.
  split; [exact H |].
  exact (proj1 (proj2 (continuations_run_once_in_queue_order
                         (echo (forward_with nothing)) example_argv forward 5 _ _ H))).
Defined.


(** The only action of ["echo"] forwards, and the fallback throws: the
    error reaches the caller. *)
Lemma forwarding_actions_witness :
  let c := echo forward in
  truthy_error example_argv = None
  /\ run_checkers (_checkers c) example_argv = ([Checked 0], None)
  /\ _actions c <> []
  /\ Forall (fun a => action_body a example_argv = forward) (_actions c)
  /\ List.length (_actions c) < 2
  /\ execute 2 c example_argv (Finish (JS.Throw (OtherError "boom")))
     = Some ([Checked 0] ++ List.map Invoked (seq 0 2), JS.Throw (OtherError "boom")).
Proof.
  cbv zeta.
  assert (Ha : _actions (echo forward) <> []) by discriminate.
  assert (Hf : Forall (fun a => action_body a example_argv = forward) (_actions (echo forward)))
    by (repeat constructor).
  assert (Hl : List.length (_actions (echo forward)) < 2) by (simpl; lia).
  split; [reflexivity |]. split; [reflexivity |]. split; [exact Ha |].
  split; [exact Hf |]. split; [exact Hl |].
  exact (forwarding_actions_hand_over_to_fallback (echo forward) example_argv
           (JS.Throw (OtherError "boom")) 2 [Checked 0] eq_refl eq_refl Ha Hf Hl).
Defined.

End RunFacts.

(** ** Shortcut arguments *)

Module EscapeFacts.
Import Command Facts ResolverFacts.

Lemma replace_dollars_other (c : ascii) (s : string) :
  c <> dollar -> replace_dollars (String c s) = String c (replace_dollars s).
Proof.
  intros Hc. apply Ascii.eqb_neq in Hc. unfold dollar in Hc.
  destruct s as [| d s]; [reflexivity |]. cbn [replace_dollars]. now rewrite Hc.
Qed.

Lemma replace_dollars_lone (c : ascii) (s : string) :
  c <> dollar ->
  replace_dollars (String dollar (String c s)) = String dollar (replace_dollars (String c s)).
Proof.
  intros Hc. apply Ascii.eqb_neq in Hc. unfold dollar in *.
  change (replace_dollars (String "$" (String c s)))
    with (if Ascii.eqb "$" "$" && Ascii.eqb c "$"
          then (placeholder ++ replace_dollars s)%string
          else String "$"%char (replace_dollars (String c s))).
  now rewrite Hc, andb_false_r.
Qed.

Lemma replace_indices_other (c : ascii) (s : string) :
  c <> dollar -> replace_indices (String c s) = String c (replace_indices s).
Proof.
  intros Hc. apply Ascii.eqb_neq in Hc. unfold dollar in Hc.
  destruct s as [| d s]; [reflexivity |]. cbn [replace_indices]. now rewrite Hc.
Qed.

Lemma replace_indices_lone (c : ascii) (s : string) :
  Dict.is_digit c = false ->
  replace_indices (String dollar (String c s)) = String dollar (replace_indices (String c s)).
Proof.
  intros Hc. unfold dollar.
  change (replace_indices (String "$" (String c s)))
    with (if Ascii.eqb "$" "$" && Dict.is_digit c
          then String "{"%char (String c (String "}"%char (replace_indices s)))
          else String "$"%char (replace_indices (String c s))).
  now rewrite Hc, andb_false_r.
Qed.

Lemma replace_indices_placeholder (s : string) :
  replace_indices (placeholder ++ s) = (placeholder ++ replace_indices s)%string.
Proof.
  unfold placeholder.
  repeat (cbn [append]; rewrite replace_indices_other by (unfold dollar; discriminate); f_equal).
Qed.

Lemma replace_placeholder_other (c : ascii) (s : string) :
  c <> at_sign -> replace_placeholder 0 (String c s) = String c (replace_placeholder 0 s).
Proof.
  intros Hc. cbn [replace_placeholder]. unfold placeholder. cbn [String.prefix].
  destruct (ascii_dec "@" c) as [E | _]; [| reflexivity].
  exfalso. apply Hc. now symmetry.
Qed.

Lemma replace_placeholder_skip (p s : string) :
  replace_placeholder (String.length p) (p ++ s) = replace_placeholder 0 s.
Proof. induction p as [| c p IH]; [now destruct s | exact IH]. Qed.

Lemma replace_placeholder_step (c : ascii) (rest : string) :
  replace_placeholder 0 (String c rest)
  = if String.prefix placeholder (String c rest)
    then String "$" (replace_placeholder (String.length placeholder - 1) rest)
    else String c (replace_placeholder 0 rest).
Proof. reflexivity. Qed.

Lemma placeholder_head (s : string) :
  (placeholder ++ s)%string = String "@" ("@__PLACEHOLDER__@@" ++ s).
Proof. reflexivity. Qed.

Lemma placeholder_tail_length :
  String.length placeholder - 1 = String.length "@__PLACEHOLDER__@@".
Proof. reflexivity. Qed.

Lemma replace_placeholder_match (s : string) :
  replace_placeholder 0 (placeholder ++ s) = String dollar (replace_placeholder 0 s).
Proof.
  rewrite placeholder_head, replace_placeholder_step, <- placeholder_head.
  rewrite prefix_append, placeholder_tail_length, replace_placeholder_skip.
  reflexivity.
Qed.

Lemma digit_not_special (d : ascii) :
  Dict.is_digit d = true -> d <> dollar /\ d <> at_sign.
Proof.
  unfold Dict.is_digit, dollar, at_sign. intros H.
  split; intros ->; vm_compute in H; discriminate.
Qed.

(** X28: [_escape] reads its argument from left to right: two dollars give one
    dollar, a dollar and a digit give the digit in braces, a dollar before
    any other character stays, as does a dollar at the end, and a character
    that is neither a dollar nor an at sign stays.  A value that is not a
    string is returned as it is. *)
Theorem escape_rewrites_dollar_forms (A : Type) (s t : string) :
  _escape (A := A) (inl s) = inl t ->
  _escape (A := A) (inl (String dollar (String dollar s))) = inl (String dollar t)
  /\ (forall d, Dict.is_digit d = true ->
        _escape (A := A) (inl (String dollar (String d s)))
        = inl (String "{" (String d (String "}" t))))
  /\ (forall c, c <> dollar -> c <> at_sign -> Dict.is_digit c = false ->
        _escape (A := A) (inl (String dollar (String c s)))
        = inl (String dollar (String c t)))
  /\ (forall c, c <> dollar -> c <> at_sign ->
        _escape (A := A) (inl (String c s)) = inl (String c t))
  /\ _escape (A := A) (inl (String dollar EmptyString)) = inl (String dollar EmptyString)
  /\ _escape (A := A) (inl EmptyString) = inl EmptyString
  /\ (forall other : A, _escape (inr other) = inr other).
Proof.
  unfold _escape. intros [= <-]. conjs.
  - f_equal.
    change (replace_dollars (String dollar (String dollar s)))
      with (placeholder ++ replace_dollars s)%string.
    now rewrite replace_indices_placeholder, replace_placeholder_match.
  - intros d Hd. f_equal. destruct (digit_not_special d Hd) as [H1 H2].
    rewrite replace_dollars_lone, replace_dollars_other by assumption.
    change (replace_indices (String dollar (String d (replace_dollars s))))
      with (if Ascii.eqb "$" "$" && Dict.is_digit d
            then String "{"%char (String d (String "}"%char (replace_indices (replace_dollars s))))
            else String "$"%char (replace_indices (String d (replace_dollars s)))).
    rewrite Hd. cbn [Ascii.eqb Bool.eqb andb].
    rewrite !replace_placeholder_other; [reflexivity | | assumption |];
      unfold at_sign; discriminate.
  - intros c H1 H2 Hc. f_equal.
    rewrite replace_dollars_lone, replace_dollars_other by assumption.
    rewrite replace_indices_lone, replace_indices_other by assumption.
    rewrite !replace_placeholder_other; [reflexivity | assumption |].
    unfold dollar, at_sign. discriminate.
  - intros c H1 H2. f_equal.
    rewrite replace_dollars_other, replace_indices_other, replace_placeholder_other
      by assumption.
    reflexivity.
  - reflexivity.
  - reflexivity.
  - reflexivity.
Qed.


(** The argument ["$$x"]. *)
Lemma escape_witness :
  _escape (A := unit) (inl "x") = inl "x"
  /\ _escape (A := unit) (inl "$$x") = inl "$x".
Proof.
  assert (H : _escape (A := unit) (inl "x") = inl "x") by reflexivity.
  split; [exact H |].
  exact (proj1 (escape_rewrites_dollar_forms unit "x" "x" H)).
Defined.


End EscapeFacts.

(** ** Suggestions *)

Module SuggestFacts.
Import Suggest Facts.

Section Selection.
Variable distance : string -> string -> nat.
Variable exceeds : nat -> nat -> bool.
Variable target : string.

Local Abbreviation qualifies := (Suggest.qualifies distance exceeds target).
Local Abbreviation at_distance := (Suggest.at_distance distance exceeds target).
Local Abbreviation selected := (Suggest.selected distance exceeds target).

Lemma at_distance_app (m : nat) (a b : list string) :
  at_distance m (a ++ b) = at_distance m a ++ at_distance m b.
Proof. unfold at_distance. apply filter_app. Qed.

Lemma at_distance_closer (m : nat) (seen : list string) :
  (forall name, In name seen -> qualifies name = true -> distance name target <> m) ->
  at_distance m seen = [].
Proof.
  intros H. unfold at_distance. induction seen as [| x rest IH]; simpl; [reflexivity |].
  destruct (qualifies x) eqn:Hq; simpl.
  - destruct (Nat.eqb (distance x target) m) eqn:E.
    + apply Nat.eqb_eq in E. now destruct (H x (or_introl eq_refl) Hq).
    + apply IH. intros name Hin. apply H. now right.
  - apply IH. intros name Hin. apply H. now right.
Qed.

Lemma select_spec (items : list string) :
  forall seen suggestions minDistance,
    selected seen suggestions minDistance ->
    exists result minDistance',
      select distance exceeds target items suggestions minDistance = JS.Return result
      /\ selected (seen ++ items) result minDistance'.
Proof.
  induction items as [| name rest IH]; intros seen suggestions minDistance Hsel.
  - exists suggestions, minDistance. rewrite app_nil_r. auto.
  - replace (seen ++ name :: rest) with ((seen ++ [name]) ++ rest)
      by now rewrite <- app_assoc.
    cbn [select]. fold (qualifies name).
    destruct (Nat.leb (String.length name) 2
              || exceeds (distance name target) (String.length name)) eqn:Hskip.
    + apply IH. assert (Hq : qualifies name = false) by (unfold qualifies; now rewrite Hskip).
      destruct suggestions as [found |], minDistance as [m |]; simpl in *; try contradiction.
      * destruct Hsel as (Hfound & Hne & Hmin). conjs; auto.
        -- rewrite at_distance_app, <- Hfound. unfold at_distance. simpl. rewrite Hq. simpl.
           now rewrite app_nil_r.
        -- intros x Hx. apply in_app_or in Hx. destruct Hx as [Hx | [<- | []]]; [now apply Hmin |].
           congruence.
      * intros x Hx. apply in_app_or in Hx. destruct Hx as [Hx | [<- | []]]; auto.
    + assert (Hq : qualifies name = true) by (unfold qualifies; now rewrite Hskip).
      destruct suggestions as [found |], minDistance as [m |]; simpl in Hsel; try contradiction.
      * destruct Hsel as (Hfound & Hne & Hmin).
        destruct (Nat.eqb (distance name target) m) eqn:Heq.
        -- apply Nat.eqb_eq in Heq. apply IH. simpl. conjs.
           ++ rewrite at_distance_app, <- Hfound. unfold at_distance. simpl.
              rewrite Hq, Heq, Nat.eqb_refl. reflexivity.
           ++ destruct found; discriminate.
           ++ intros x Hx. apply in_app_or in Hx.
              destruct Hx as [Hx | [<- | []]]; [now apply Hmin | lia].
        -- apply Nat.eqb_neq in Heq.
           destruct (Nat.ltb (distance name target) m) eqn:Hlt.
           ++ apply Nat.ltb_lt in Hlt. apply IH. simpl. conjs.
              ** rewrite at_distance_app. rewrite at_distance_closer.
                 --- unfold at_distance. simpl. now rewrite Hq, Nat.eqb_refl.
                 --- intros x Hx Hqx. specialize (Hmin x Hx Hqx). lia.
              ** discriminate.
              ** intros x Hx. apply in_app_or in Hx.
                 destruct Hx as [Hx | [<- | []]]; [| lia].
                 intros Hqx. specialize (Hmin x Hx Hqx). lia.
           ++ apply Nat.ltb_ge in Hlt. apply IH. simpl. conjs.
              ** rewrite at_distance_app, <- Hfound. unfold at_distance. simpl.
                 apply Nat.eqb_neq in Heq. rewrite Hq, Heq. simpl. now rewrite app_nil_r.
              ** exact Hne.
              ** intros x Hx. apply in_app_or in Hx.
                 destruct Hx as [Hx | [<- | []]]; [now apply Hmin | lia].
      * apply IH. simpl. conjs.
        -- rewrite at_distance_app. rewrite at_distance_closer.
           ++ unfold at_distance. simpl. now rewrite Hq, Nat.eqb_refl.
           ++ intros x Hx Hqx. rewrite (Hsel x Hx) in Hqx. discriminate.
        -- discriminate.
        -- intros x Hx. apply in_app_or in Hx.
           destruct Hx as [Hx | [<- | []]]; [| lia].
           intros Hqx. rewrite (Hsel x Hx) in Hqx. discriminate.
Qed.

(** X30: The loop of [suggest] ends without an error, although [suggestions] is
    declared without a value.  It leaves [suggestions] undefined exactly
    when every item is passed over as too short or too far from the target.
    Otherwise the suggestions are the remaining items at the least distance
    among them, in the order of the items: there is at least one, none is
    further from the target than any remaining item, and an item that
    occurs twice is suggested twice. *)
Theorem suggest_selects_the_closest_names (items : list string) :
  exists result,
    select distance exceeds target items None None = JS.Return result
    /\ (result = None <-> forall name, In name items -> qualifies name = false)
    /\ (forall found, result = Some found ->
          found <> []
          /\ exists least,
               found = at_distance least items
               /\ (forall name, In name found ->
                     In name items /\ qualifies name = true
                     /\ distance name target = least)
               /\ (forall name, In name items -> qualifies name = true ->
                     least <= distance name target)).
Proof.
  destruct (select_spec items [] None None) as (result & minDistance' & Hrun & Hsel).
  { intros name []. }
  exists result. simpl in Hsel. conjs.
  - exact Hrun.
  - destruct result as [found |], minDistance' as [m |]; simpl in Hsel; try contradiction.
    + destruct Hsel as (Hfound & Hne & Hmin). split; [discriminate |].
      intros Hnone. exfalso. destruct found as [| x found]; [congruence |].
      assert (Hx : In x (at_distance m items)) by (rewrite <- Hfound; now left).
      unfold at_distance in Hx. apply filter_In in Hx. destruct Hx as [Hin Hx].
      rewrite (Hnone x Hin) in Hx. discriminate.
    + split; auto.
  - intros found ->. destruct minDistance' as [m |]; simpl in Hsel; [| contradiction].
    destruct Hsel as (Hfound & Hne & Hmin). split; [exact Hne |].
    exists m. conjs; auto.
    intros name Hin. rewrite Hfound in Hin. unfold at_distance in Hin.
    apply filter_In in Hin. destruct Hin as [Hin Hq].
    apply andb_prop in Hq. destruct Hq as [Hq Hd]. apply Nat.eqb_eq in Hd. auto.
Qed.

End Selection.
End SuggestFacts.
